(** * micrometrics: the symbol-interning benchmark (0001-string-interning.cpp)

    A shallow embedding of [SymbolRegistry], the symbol pool, the workload
    generator and the benchmark driver [main], with the properties the
    specification states about them.

    Conventions
    - [uint32_t] and [std::size_t] values are [N] with the wrap-around of
      the C++ conversions and increments written out ([mod 2^32],
      [mod 2^64]).
    - [std::unordered_map<std::string, uint32_t>] is a [gmap string N];
      [std::vector<std::string>] is a [list string].
    - The one allocation whose size comes from the command line,
      [stream.reserve(n)] in [generate_incoming_stream], fails the way
      [std::vector] says: with [std::length_error] above [max_size()], with
      [std::bad_alloc] when the allocator has no such storage. [main]
      catches nothing, so either exception ends the process through
      [std::terminate]. Every other allocation succeeds.
    - Unsynchronised access is not modelled: [get_symbol] takes no lock,
      and a call of it that runs beside an inserting [get_id] is a data
      race, which C++ leaves undefined. The concurrent model has callers of
      [get_id] only. *)

From stdpp Require Import gmap strings list fin_maps pretty.
From Stdlib Require Import NArith ZArith Lia Ascii.

Local Open Scope N_scope.

(** ** Machine integers *)

Definition UINT32_MOD : N := 2 ^ 32.
Definition SIZE_MOD : N := 2 ^ 64.

(** [static_cast<uint32_t>(n)] for a [std::size_t] value [n]. *)
Definition to_uint32 (n : N) : N := n mod UINT32_MOD.

(** [++m] on a [std::size_t]. *)
Definition size_incr (m : N) : N := (m + 1) mod SIZE_MOD.

(** ** SymbolRegistry *)

Record SymbolRegistry : Type := mkRegistry {
  string_to_id_ : gmap string N;
  id_to_string_ : list string
}.

Definition empty_registry : SymbolRegistry :=
  {| string_to_id_ := ∅; id_to_string_ := [] |}.

(** [uint32_t get_id(std::string_view symbol)]: the returned identifier and
    the registry after the call. *)
Definition get_id (symbol : string) (r : SymbolRegistry) : N * SymbolRegistry :=
  match string_to_id_ r !! symbol with
  | Some id => (id, r)
  | None =>
      let new_id := to_uint32 (N.of_nat (length (id_to_string_ r))) in
      (new_id,
       {| string_to_id_ := <[symbol := new_id]> (string_to_id_ r);
          id_to_string_ := id_to_string_ r ++ [symbol] |})
  end.

(** The result of [get_symbol]: [std::vector::at] throws
    [std::out_of_range] when the index is not below the size. *)
Inductive lookup_result : Type :=
  | Text (s : string)
  | OutOfRange.

Definition get_symbol (id : N) (r : SymbolRegistry) : lookup_result :=
  match id_to_string_ r !! N.to_nat id with
  | Some s => Text s
  | None => OutOfRange
  end.

(** A sequence of [get_id] calls, keeping only the registry. *)
Definition register_all (symbols : list string) (r : SymbolRegistry) : SymbolRegistry :=
  foldl (fun acc sym => snd (get_id sym acc)) r symbols.

(** ** The registry invariant

    The reverse table never repeats a symbol, and the forward map holds
    exactly the symbols of the reverse table, each with its position
    truncated to 32 bits. *)

Record consistent (r : SymbolRegistry) : Prop := mkConsistent {
  consistent_nodup : NoDup (id_to_string_ r);
  consistent_lookup : ∀ s i,
    string_to_id_ r !! s = Some i ↔
    ∃ n : nat, id_to_string_ r !! n = Some s ∧ i = to_uint32 (N.of_nat n)
}.

(** The registry holds at most [2^32] symbols, so that no identifier was
    truncated. *)
Definition within_uint32 (r : SymbolRegistry) : Prop :=
  N.of_nat (length (id_to_string_ r)) <= UINT32_MOD.

(** The identifiers the registry has handed out. *)
Definition assigned_ids (r : SymbolRegistry) : gset N :=
  map_img (string_to_id_ r).

(** ** A supply of symbols outside the pool

    The binary digits of a positive number, least significant first: short
    strings, pairwise different, used to fill a registry beyond the
    catalogue. *)

Fixpoint binary_symbol (p : positive) : string :=
  match p with
  | xH => "1"
  | xO q => String "0" (binary_symbol q)
  | xI q => String "1" (binary_symbol q)
  end.

(** The first [n] of them. *)
Definition binary_symbols (n : nat) : list string :=
  map (fun k => binary_symbol (Pos.of_succ_nat k)) (seq 0 n).

(** ** SYMBOL_POOL *)

Definition SYMBOL_POOL : list string := [
  (* Equities *)
  "AAPL"; "MSFT"; "GOOGL"; "AMZN"; "NVDA";
  "TSLA"; "META"; "BRK.B"; "JPM";  "V";
  (* ETFs *)
  "SPY";  "QQQ";  "IWM";   "DIA";  "GLD";
  "TLT";  "VTI";  "EEM";   "XLF";  "HYG";
  (* Forex pairs *)
  "EURUSD"; "GBPUSD"; "USDJPY"; "USDCHF"; "AUDUSD";
  "NZDUSD"; "USDCAD"; "EURGBP"; "EURJPY"; "GBPJPY";
  (* Futures / commodities *)
  "ES";  "NQ";  "CL";  "GC";  "SI";
  "NG";  "ZB";  "ZN";  "ZC";  "ZS";
  (* Crypto *)
  "BTCUSD"; "ETHUSD"; "SOLUSD"; "BNBUSD"; "XRPUSD"
]%string.

(** ** The standard-library facilities the source relies on

    [std::mt19937], [std::uniform_int_distribution<int>],
    [std::vector<std::string>] storage and the clock behind [Timer] are
    not part of the repository: they are parameters of the model. An
    engine is constructed from a seed; drawing from a distribution over
    [a, b] yields a value and the advanced engine; [vector_max_size] is
    [std::vector<std::string>::max_size()] and [vector_allocate n] tells
    whether the allocator provides storage for [n] strings; the [k]-th
    [elapsed_ms()] reading of a run is [elapsed_ms k]. *)

Class StdLib : Type := {
  engine : Type;
  mt19937 : N → engine;
  uniform_int_distribution : Z → Z → engine → Z * engine;
  vector_max_size : N;
  vector_allocate : N → bool;
  millis : Type;
  elapsed_ms : nat → millis
}.

(** What the C++ standard promises of [uniform_int_distribution(a, b)]:
    every draw lies in the closed interval. *)
Class StdLibLaws (L : StdLib) : Prop := {
  uniform_in_range : ∀ (a b : Z) (g : engine),
    (a ≤ b)%Z →
    (a ≤ fst (uniform_int_distribution a b g) ≤ b)%Z
}.

(** ** generate_incoming_stream *)

(** The exceptions [reserve] throws. *)
Inductive thrown : Type :=
  | LengthError
  | BadAlloc.

(** [stream.reserve(n)] on the empty vector [stream]: [std::length_error]
    when [n > max_size()]; otherwise storage for [n] elements is
    allocated when [n] exceeds the capacity, which is 0, and the allocator
    may fail with [std::bad_alloc]. [None] when the call returns. *)
Definition reserve `{StdLib} (n : N) : option thrown :=
  if vector_max_size <? n then Some LengthError
  else if (n =? 0) || vector_allocate n then None
  else Some BadAlloc.

(** The [for] loop of [generate_incoming_stream], [n] iterations left.
    [SYMBOL_POOL[k]] is unchecked in the source; the distribution keeps
    [k] inside the pool. *)
Fixpoint generate_loop `{StdLib} (n : nat) (rng : engine) (stream : list string)
  : list string :=
  match n with
  | O => stream
  | S n' =>
      let '(k, rng') :=
        uniform_int_distribution 0 (Z.of_nat (length SYMBOL_POOL) - 1) rng in
      generate_loop n' rng' (stream ++ [SYMBOL_POOL !!! Z.to_nat k])
  end.

(** The stream, or the exception that leaves the function. *)
Definition generate_incoming_stream `{StdLib} (n : N) (seed : N)
  : thrown + list string :=
  let rng := mt19937 seed in
  let stream := [] in
  match reserve n with
  | Some e => inl e
  | None => inr (generate_loop (N.to_nat n) rng stream)
  end.

(** ** generate_incoming_stream, with its engine in memory

    The same function with [rng] as the object it is in the source: it is
    constructed at an address of its own when the function is entered,
    [pick(rng)] reads and advances it through the reference, and it is
    destroyed when the function is left, by [return] or by the exception.
    The memory holds the engines alive at the time of the call. *)

(** [std::mt19937 rng(seed);] at an address no live engine has. *)
Definition new_engine `{StdLib} (g : engine) (memory : gmap nat engine)
  : nat * gmap nat engine :=
  let rng := fresh (dom memory) in (rng, <[rng := g]> memory).

(** [pick(rng)]: the value drawn and the memory with the engine advanced;
    [None] for a reference to no engine. *)
Definition draw `{StdLib} (a b : Z) (rng : nat) (memory : gmap nat engine)
  : option (Z * gmap nat engine) :=
  match memory !! rng with
  | Some g =>
      let '(k, g') := uniform_int_distribution a b g in
      Some (k, <[rng := g']> memory)
  | None => None
  end.

Fixpoint generate_loop_st `{StdLib} (n : nat) (rng : nat) (stream : list string)
    (memory : gmap nat engine) : list string * gmap nat engine :=
  match n with
  | O => (stream, memory)
  | S n' =>
      match draw 0 (Z.of_nat (length SYMBOL_POOL) - 1) rng memory with
      | Some (k, memory) =>
          generate_loop_st n' rng (stream ++ [SYMBOL_POOL !!! Z.to_nat k]) memory
      | None => (stream, memory)
      end
  end.

Definition generate_incoming_stream_st `{StdLib} (n : N) (seed : N)
    (memory : gmap nat engine) : (thrown + list string) * gmap nat engine :=
  let '(rng, memory) := new_engine (mt19937 seed) memory in
  let stream := [] in
  match reserve n with
  | Some e => (inl e, delete rng memory)
  | None =>
      let '(stream, memory) := generate_loop_st (N.to_nat n) rng stream memory in
      (inr stream, delete rng memory)
  end.

(** ** The two comparison paths *)

(** [if (c) ++m;] *)
Definition count_if (c : bool) (m : N) : N := if c then size_incr m else m.

(** [sink += c ? 1 : 0;] *)
Definition sink_add (c : bool) (sink : N) : N :=
  (sink + (if c then 1 else 0)) mod SIZE_MOD.

(** [for (std::size_t f = 0; f < fanout; ++f) body;] where the body does
    not read [f]. *)
Definition repeat_fanout {A : Type} (fanout : N) (body : A → A) (a : A) : A :=
  N.iter fanout body a.

(** 1-to-1, registry path: one [get_id] and one identifier comparison per
    incoming symbol. *)
Fixpoint registry_1to1 (target_id : N) (incoming : list string)
    (matches : N) (registry : SymbolRegistry) : N * SymbolRegistry :=
  match incoming with
  | [] => (matches, registry)
  | sym :: rest =>
      let '(incoming_id, registry) := get_id sym registry in
      registry_1to1 target_id rest
        (count_if (incoming_id =? target_id) matches) registry
  end.

(** 1-to-1, direct path: one string comparison per incoming symbol. *)
Fixpoint direct_1to1 (target_string : string) (incoming : list string)
    (matches : N) : N :=
  match incoming with
  | [] => matches
  | sym :: rest =>
      direct_1to1 target_string rest
        (count_if (String.eqb sym target_string) matches)
  end.

(** 1-to-many, registry path: one [get_id], then [fanout] identifier
    comparisons. *)
Fixpoint registry_1tomany (fanout target_id : N) (incoming : list string)
    (matches : N) (registry : SymbolRegistry) : N * SymbolRegistry :=
  match incoming with
  | [] => (matches, registry)
  | sym :: rest =>
      let '(incoming_id, registry) := get_id sym registry in
      registry_1tomany fanout target_id rest
        (repeat_fanout fanout (count_if (incoming_id =? target_id)) matches)
        registry
  end.

(** 1-to-many, direct path: [fanout] string comparisons. *)
Fixpoint direct_1tomany (fanout : N) (target_string : string)
    (incoming : list string) (matches : N) : N :=
  match incoming with
  | [] => matches
  | sym :: rest =>
      direct_1tomany fanout target_string rest
        (repeat_fanout fanout (count_if (String.eqb sym target_string)) matches)
  end.

(** The untimed passes that feed [sink] before each measurement: first
    the two of the 1-to-1 scenario, then the two of a fanout point. *)
Fixpoint warm_registry_1to1 (target_id : N) (incoming : list string)
    (sink : N) (registry : SymbolRegistry) : N * SymbolRegistry :=
  match incoming with
  | [] => (sink, registry)
  | s :: rest =>
      let '(id, registry) := get_id s registry in
      warm_registry_1to1 target_id rest (sink_add (id =? target_id) sink) registry
  end.

Fixpoint warm_direct_1to1 (target_string : string) (incoming : list string)
    (sink : N) : N :=
  match incoming with
  | [] => sink
  | s :: rest =>
      warm_direct_1to1 target_string rest
        (sink_add (String.eqb s target_string) sink)
  end.

Fixpoint warm_registry_1tomany (fanout target_id : N) (incoming : list string)
    (sink : N) (registry : SymbolRegistry) : N * SymbolRegistry :=
  match incoming with
  | [] => (sink, registry)
  | s :: rest =>
      let '(id, registry) := get_id s registry in
      warm_registry_1tomany fanout target_id rest
        (repeat_fanout fanout (sink_add (id =? target_id)) sink) registry
  end.

Fixpoint warm_direct_1tomany (fanout : N) (target_string : string)
    (incoming : list string) (sink : N) : N :=
  match incoming with
  | [] => sink
  | s :: rest =>
      warm_direct_1tomany fanout target_string rest
        (repeat_fanout fanout (sink_add (String.eqb s target_string)) sink)
  end.

(** ** Command line *)

Definition isspace (c : ascii) : bool :=
  let n := N_of_ascii c in (n =? 32) || ((9 <=? n) && (n <=? 13)).

Definition isdigit (c : ascii) : bool :=
  let n := N_of_ascii c in (48 <=? n) && (n <=? 57).

Fixpoint skip_spaces (s : string) : string :=
  match s with
  | String c s' => if isspace c then skip_spaces s' else s
  | EmptyString => s
  end.

Fixpoint digits_value (acc : Z) (s : string) : Z :=
  match s with
  | String c s' =>
      if isdigit c
      then digits_value (acc * 10 + Z.of_N (N_of_ascii c - 48)) s'
      else acc
  | EmptyString => acc
  end.

Definition LLONG_MAX : Z := 2 ^ 63 - 1.
Definition LLONG_MIN : Z := - 2 ^ 63.

(** The optional sign in front of the digits: whether it is a minus, and
    what follows it. *)
Definition strip_sign (s : string) : bool * string :=
  match s with
  | String c s' =>
      if Ascii.eqb c "-" then (true, s')
      else if Ascii.eqb c "+" then (false, s')
      else (false, s)
  | EmptyString => (false, s)
  end.

(** [std::atoll]: leading white space, an optional sign, then the longest
    run of decimal digits; [0] when there is none. Values outside
    [long long] are clamped, as [strtoll] does (the C standard leaves
    them undefined for [atoll]). *)
Definition atoll (s : string) : Z :=
  let '(negative, digits) := strip_sign (skip_spaces s) in
  let v := digits_value 0 digits in
  let v := if negative then (- v)%Z else v in
  Z.max LLONG_MIN (Z.min LLONG_MAX v).

(** [static_cast<std::size_t>(v)] for a [long long] value [v]. *)
Definition to_size (v : Z) : N := Z.to_N (v mod Z.of_N SIZE_MOD).

Definition DEFAULT_ITERATIONS : N := 10000000.

(** [argc > 1 ? static_cast<std::size_t>(std::atoll(argv[1])) : 10'000'000] *)
Definition parse_iterations (argv : list string) : N :=
  match argv with
  | _ :: arg :: _ => to_size (atoll arg)
  | _ => DEFAULT_ITERATIONS
  end.
(** ** Output *)

Inductive scenario : Type :=
  | OneToOne
  | OneToMany (fanout : N).

(** One constructor for each thing [main] writes to [std::cout]. *)
Inductive line `{StdLib} : Type :=
  | Banner (iterations pool_size : N)
  | ScenarioTitle (sc : scenario)
  | ColumnHeads
  | Rule (width : N)
  | TableRow (label : string) (ms : millis) (matches : N)
  | Speedup (ms_registry ms_direct : millis)
  | SummaryTitle
  | SummaryHeads
  | SummaryRow (fanout : N) (ms_registry ms_direct : millis)
  | Blank.

(** What the process writes, in order: lines on [std::cout], and the
    diagnostic on [std::cerr] with the scenario and the two counts. *)
Inductive event `{StdLib} : Type :=
  | Cout (l : line)
  | Cerr (sc : scenario) (matches_registry matches_direct : N).

Record outcome `{StdLib} : Type := mkOutcome {
  exit_code : Z;
  trace : list event
}.

Record FanoutResult `{StdLib} : Type := mkFanoutResult {
  fanout : N;
  ms_registry : millis;
  ms_direct : millis;
  matches : N
}.

(** [print_table_row] and [print_speedup] *)
Definition print_table_row `{StdLib} (label : string) (ms : millis) (matches : N)
  : list event := [Cout (TableRow label ms matches)].

Definition print_speedup `{StdLib} (ms_registry ms_direct : millis) : list event :=
  [Cout (Speedup ms_registry ms_direct)].

(** ** main *)

Definition W : N := 38.
Definition SW : N := 10.

(** The variables of [main] that live across the fanout sweep; [timers]
    counts the [elapsed_ms()] readings taken so far. *)
Record bench_state `{StdLib} : Type := mkBench {
  st_registry : SymbolRegistry;
  st_sink : N;
  st_timers : nat;
  st_out : list event;
  st_fanout_results : list FanoutResult
}.

(** The summary printed after the sweep, and [return 0]. *)
Definition summary `{StdLib} (st : bench_state) : outcome :=
  {| exit_code := 0;
     trace :=
       st_out st
       ++ [Cout SummaryTitle; Cout SummaryHeads; Cout (Rule (SW * 4 + 2 + 12))]
       ++ map (fun r => Cout (SummaryRow (fanout r) (ms_registry r) (ms_direct r)))
              (st_fanout_results st)
       ++ [Cout (Rule (SW * 4 + 2 + 12)); Cout Blank] |}.

(** [for (std::size_t fanout = 8; fanout <= 1024; fanout *= 2) { ... }]
    followed by the rest of [main]. [None] when [fuel] runs out before the
    loop does. *)
Fixpoint fanout_sweep `{StdLib} (fuel : nat) (target_id : N) (target_string : string)
    (incoming : list string) (fanout : N) (st : bench_state) : option outcome :=
  match fuel with
  | O => None
  | S fuel' =>
      if fanout <=? 1024 then
        let '(sink, registry) :=
          warm_registry_1tomany fanout target_id incoming (st_sink st) (st_registry st) in
        let sink := warm_direct_1tomany fanout target_string incoming sink in
        let out :=
          st_out st ++ [Cout (ScenarioTitle (OneToMany fanout)); Cout ColumnHeads;
                     Cout (Rule (W + 24))] in
        let '(matches_c, registry) :=
          registry_1tomany fanout target_id incoming 0 registry in
        let ms_c := elapsed_ms (st_timers st) in
        let matches_d := direct_1tomany fanout target_string incoming 0 in
        let ms_d := elapsed_ms (S (st_timers st)) in
        if negb (matches_c =? matches_d) then
          Some {| exit_code := 1;
                  trace := out ++ [Cerr (OneToMany fanout) matches_c matches_d] |}
        else
          let out :=
            out ++ print_table_row "Registry (lookup + NxID cmp)" ms_c matches_c
                ++ print_table_row "Direct Nxstd::string cmp" ms_d matches_d
                ++ [Cout (Rule (W + 24))]
                ++ print_speedup ms_c ms_d in
          fanout_sweep fuel' target_id target_string incoming
            ((fanout * 2) mod SIZE_MOD)
            {| st_registry := registry;
               st_sink := sink;
               st_timers := S (S (st_timers st));
               st_out := out;
               st_fanout_results :=
                 st_fanout_results st
                 ++ [{| fanout := fanout; ms_registry := ms_c;
                        ms_direct := ms_d; matches := matches_c |}] |}
      else Some (summary st)
  end.

(** Enough iterations for the sweep: the fanout doubles from 8 and stops
    above 1024. *)
Definition SWEEP_FUEL : nat := 16.

(** [main] from the banner on, for the iteration count [ITERATIONS] and the
    generated stream [incoming]. *)
Definition benchmark `{StdLib} (ITERATIONS : N) (incoming : list string)
  : option outcome :=
  let out := [Cout (Banner ITERATIONS (N.of_nat (length SYMBOL_POOL)))] in
  let registry := register_all SYMBOL_POOL empty_registry in
  let target_string := "BTCUSD"%string in
  let '(target_id, registry) := get_id target_string registry in
  let sink := 0 in
  let '(sink, registry) := warm_registry_1to1 target_id incoming sink registry in
  let sink := warm_direct_1to1 target_string incoming sink in
  let out :=
    out ++ [Cout (ScenarioTitle OneToOne); Cout ColumnHeads; Cout (Rule (W + 24))] in
  let '(matches_a, registry) := registry_1to1 target_id incoming 0 registry in
  let ms_a := elapsed_ms 0%nat in
  let matches_b := direct_1to1 target_string incoming 0 in
  let ms_b := elapsed_ms 1%nat in
  if negb (matches_a =? matches_b) then
    Some {| exit_code := 1; trace := out ++ [Cerr OneToOne matches_a matches_b] |}
  else
    let out :=
      out ++ print_table_row "Registry (lookup + ID cmp)" ms_a matches_a
          ++ print_table_row "Direct std::string cmp" ms_b matches_b
          ++ [Cout (Rule (W + 24))]
          ++ print_speedup ms_a ms_b in
    fanout_sweep SWEEP_FUEL target_id target_string incoming 8
      {| st_registry := registry; st_sink := sink; st_timers := 2;
         st_out := out; st_fanout_results := [] |}.

(** The status of a process that [std::abort] ended, as a shell reports
    it: 128 + [SIGABRT]. *)
Definition ABORTED : Z := 134.

(** [int main(int argc, char* argv[])], with [argc = length argv]. The
    banner is written and the registry prepared before the stream is
    generated. [main] has no handler: an exception from
    [generate_incoming_stream] reaches [std::terminate], which aborts the
    process; the trace holds what [main] had written to its streams by
    then. *)
Definition main `{StdLib} (argv : list string) : option outcome :=
  let ITERATIONS := parse_iterations argv in
  match generate_incoming_stream ITERATIONS 42 with
  | inr incoming => benchmark ITERATIONS incoming
  | inl _ =>
      Some {| exit_code := ABORTED;
              trace := [Cout (Banner ITERATIONS (N.of_nat (length SYMBOL_POOL)))] |}
  end.

(** ** What a run shows *)

(** The scenarios a run started, in order: one per title line. *)
Definition started `{StdLib} (tr : list event) : list scenario :=
  omap (fun e => match e with Cout (ScenarioTitle sc) => Some sc | _ => None end) tr.

(** The diagnostics on [std::cerr]. *)
Definition diagnostics `{StdLib} (tr : list event) : list (scenario * N * N) :=
  omap (fun e => match e with Cerr sc a b => Some (sc, a, b) | _ => None end) tr.

(** The match counts of the table rows. *)
Definition row_matches `{StdLib} (tr : list event) : list N :=
  omap (fun e => match e with Cout (TableRow _ _ m) => Some m | _ => None end) tr.

(** The fanout points of the sweep and the scenarios of a full run. *)
Definition sweep_points : list N := [8; 16; 32; 64; 128; 256; 512; 1024].

Definition scenarios : list scenario := OneToOne :: (OneToMany <$> sweep_points).

(** The registry when the first measurement starts: the catalogue, the
    target, then the untimed pass over the workload. *)
Definition warmed_registry (incoming : list string) : N * SymbolRegistry :=
  let '(target_id, registry) :=
    get_id "BTCUSD" (register_all SYMBOL_POOL empty_registry) in
  (target_id, register_all incoming registry).

(** The two match counts of a fanout point from a given registry:
    registry path, direct path. *)
Definition sweep_counts (target_id : N) (target_string : string)
    (incoming : list string) (registry : SymbolRegistry) (F : N) : N * N :=
  (fst (registry_1tomany F target_id incoming 0 registry),
   direct_1tomany F target_string incoming 0).

(** The two match counts of a scenario of a run: registry path, direct
    path. *)
Definition scenario_counts (incoming : list string) (sc : scenario) : N * N :=
  let '(target_id, registry) := warmed_registry incoming in
  match sc with
  | OneToOne =>
      (fst (registry_1to1 target_id incoming 0 registry),
       direct_1to1 "BTCUSD" incoming 0)
  | OneToMany F => sweep_counts target_id "BTCUSD" incoming registry F
  end.

Definition agree (incoming : list string) (sc : scenario) : Prop :=
  fst (scenario_counts incoming sc) = snd (scenario_counts incoming sc).

#[global] Instance agree_dec (incoming : list string) (sc : scenario)
  : Decision (agree incoming sc) :=
  decide (fst (scenario_counts incoming sc) = snd (scenario_counts incoming sc)).

(** The fanout values the loop header of the sweep visits from [fanout]
    on, and whether it is done within [fuel] rounds. *)
Fixpoint points_from (fuel : nat) (fanout : N) : list N :=
  match fuel with
  | O => []
  | S fuel' =>
      if fanout <=? 1024
      then fanout :: points_from fuel' ((fanout * 2) mod SIZE_MOD)
      else []
  end.

Fixpoint sweep_exits (fuel : nat) (fanout : N) : bool :=
  match fuel with
  | O => false
  | S fuel' =>
      if fanout <=? 1024
      then sweep_exits fuel' ((fanout * 2) mod SIZE_MOD)
      else true
  end.

(** An argument in which [atoll] finds a number: after white space and an
    optional sign it begins with a decimal digit. *)
Definition numeric (s : string) : bool :=
  let '(_, digits) := strip_sign (skip_spaces s) in
  match digits with
  | String c _ => isdigit c
  | EmptyString => false
  end.

(** ** A small standard library for concrete runs

    A linear congruential engine, a distribution that reduces modulo the
    width of the interval, the [max_size()] of a vector of 32-byte strings
    in a 64-bit address space, [PTRDIFF_MAX / 32], an allocator that never
    fails, and a clock that reads nothing. It stands in for the real
    library where a run has to be computed. *)

Definition lcg_stdlib : StdLib := {|
  engine := N;
  mt19937 := fun seed => seed mod 2 ^ 32;
  uniform_int_distribution := fun a b g =>
    let g' := (g * 1103515245 + 12345) mod 2 ^ 31 in
    ((a + Z.of_N (g' / 65536) mod (b - a + 1))%Z, g');
  vector_max_size := (2 ^ 63 - 1) / 32;
  vector_allocate := fun _ => true;
  millis := unit;
  elapsed_ms := fun _ => tt
|}.

(** ** Concurrent callers of [get_id]

    Several threads call [get_id] on one registry. A thread is at a
    statement of the function body; the scheduler picks which thread
    executes its next statement. [std::mutex] is a flag: constructing the
    [std::lock_guard] waits until it is clear and sets it, and the
    destructor, run by [return], clears it. *)

Inductive caller : Type :=
  | Waiting (symbol : string)
      (* before [std::lock_guard<std::mutex> lock(mtx)] *)
  | Finding (symbol : string)
      (* before [string_to_id_.find(std::string(symbol))] *)
  | Sizing (symbol : string)
      (* not found; before [id_to_string_.size()] *)
  | Inserting (symbol : string) (new_id : N)
      (* before [string_to_id_[std::string(symbol)] = new_id] *)
  | Appending (symbol : string) (new_id : N)
      (* before [id_to_string_.emplace_back(symbol)] *)
  | Leaving (symbol : string) (id : N)
      (* before [return], which releases [mtx] *)
  | Returned (symbol : string) (id : N).

Record world : Type := mkWorld {
  w_registry : SymbolRegistry;
  w_mtx : bool;
  w_callers : list caller
}.

Definition caller_symbol (c : caller) : string :=
  match c with
  | Waiting s | Finding s | Sizing s | Inserting s _ | Appending s _
  | Leaving s _ | Returned s _ => s
  end.

(** Between acquiring and releasing [mtx]. *)
Definition in_critical_section (c : caller) : bool :=
  match c with
  | Waiting _ | Returned _ _ => false
  | _ => true
  end.

Definition has_returned (c : caller) : bool :=
  match c with
  | Returned _ _ => true
  | _ => false
  end.

(** The next statement of one caller: its next position, the flag and the
    registry after it; [None] when the caller cannot move (the mutex is
    taken, or the call is over). *)
Definition caller_step (c : caller) (locked : bool) (r : SymbolRegistry)
  : option (caller * bool * SymbolRegistry) :=
  match c with
  | Waiting s => if locked then None else Some (Finding s, true, r)
  | Finding s =>
      match string_to_id_ r !! s with
      | Some id => Some (Leaving s id, locked, r)
      | None => Some (Sizing s, locked, r)
      end
  | Sizing s =>
      Some (Inserting s (to_uint32 (N.of_nat (length (id_to_string_ r)))), locked, r)
  | Inserting s new_id =>
      Some (Appending s new_id, locked,
            {| string_to_id_ := <[s := new_id]> (string_to_id_ r);
               id_to_string_ := id_to_string_ r |})
  | Appending s new_id =>
      Some (Leaving s new_id, locked,
            {| string_to_id_ := string_to_id_ r;
               id_to_string_ := id_to_string_ r ++ [s] |})
  | Leaving s id => Some (Returned s id, false, r)
  | Returned _ _ => None
  end.

(** Thread [i] executes its next statement. *)
Definition step (i : nat) (w : world) : option world :=
  match w_callers w !! i with
  | Some c =>
      match caller_step c (w_mtx w) (w_registry w) with
      | Some (c', locked, r) =>
          Some {| w_registry := r; w_mtx := locked;
                  w_callers := <[i := c']> (w_callers w) |}
      | None => None
      end
  | None => None
  end.

(** A schedule names the thread that moves at each instant. *)
Fixpoint run (schedule : list nat) (w : world) : option world :=
  match schedule with
  | [] => Some w
  | i :: rest =>
      match step i w with
      | Some w' => run rest w'
      | None => None
      end
  end.

Definition reachable (w0 w : world) : Prop :=
  ∃ schedule, run schedule w0 = Some w.

(** All threads about to call [get_id], each with its symbol. *)
Definition initial_world (r : SymbolRegistry) (symbols : list string) : world :=
  {| w_registry := r; w_mtx := false; w_callers := Waiting <$> symbols |}.

(** A registry that some sequence of calls with the threads' symbols
    would leave. *)
Definition linearized (r0 : SymbolRegistry) (symbols : list string)
    (r : SymbolRegistry) : Prop :=
  ∃ order, (∀ s, s ∈ order → s ∈ symbols) ∧ r = register_all order r0.

(** What a caller at a given statement knows of the registry [r], where
    [rc] is the registry as the completed calls left it. *)
Definition caller_view (c : caller) (rc r : SymbolRegistry) : Prop :=
  match c with
  | Waiting _ => True
  | Finding _ => r = rc
  | Sizing s => r = rc ∧ string_to_id_ rc !! s = None
  | Inserting s new_id =>
      r = rc ∧ string_to_id_ rc !! s = None ∧
      new_id = to_uint32 (N.of_nat (length (id_to_string_ rc)))
  | Appending s new_id =>
      r = {| string_to_id_ := <[s := new_id]> (string_to_id_ rc);
             id_to_string_ := id_to_string_ rc |} ∧
      string_to_id_ rc !! s = None ∧
      new_id = to_uint32 (N.of_nat (length (id_to_string_ rc)))
  | Leaving s id => r = rc ∧ string_to_id_ rc !! s = Some id
  | Returned s id => string_to_id_ rc !! s = Some id
  end.

(** The invariant of the concurrent system started from [r0] with the
    given symbols. *)
Record atomic_inv (r0 : SymbolRegistry) (symbols : list string) (w : world)
  : Prop := mkAtomicInv {
  inv_symbols : caller_symbol <$> w_callers w = symbols;
  inv_owner :
    if w_mtx w
    then ∃ i c, w_callers w !! i = Some c ∧ in_critical_section c = true ∧
                ∀ j c', w_callers w !! j = Some c' →
                        in_critical_section c' = true → j = i
    else ∀ c, c ∈ w_callers w → in_critical_section c = false;
  inv_views :
    ∃ rc, linearized r0 symbols rc ∧
          (w_mtx w = false → w_registry w = rc) ∧
          ∀ c, c ∈ w_callers w → caller_view c rc (w_registry w)
}.

(** The statements that read the tables. *)
Definition reads_tables (c : caller) : bool :=
  match c with
  | Finding _ | Sizing _ => true
  | _ => false
  end.

(** Two threads present MSFT to a registry that holds AAPL; the second
    thread has moved four times and is between the two table updates. *)
Definition two_callers : world :=
  initial_world (register_all ["AAPL"] empty_registry) ["MSFT"; "MSFT"].

Definition two_callers_mid_update : world :=
  default two_callers (run [1; 1; 1; 1]%nat two_callers).

(** The schedule on which the second thread runs its call to the end and
    then the first thread runs its own, and the state it leads to. *)
Definition second_then_first : list nat := [1; 1; 1; 1; 1; 1; 0; 0; 0]%nat.

Definition two_callers_done : world :=
  default two_callers (run second_then_first two_callers).

(** The statements a caller has still to execute at most: all six from
    before the lock, none after [return]. *)
Definition remaining (c : caller) : nat :=
  match c with
  | Waiting _ => 6
  | Finding _ => 5
  | Sizing _ => 4
  | Inserting _ _ => 3
  | Appending _ _ => 2
  | Leaving _ _ => 1
  | Returned _ _ => 0
  end.

Definition work (w : world) : nat := sum_list (remaining <$> w_callers w).

(** Whether the next statement of a caller is the assignment
    [string_to_id_[std::string(symbol)] = new_id], the append
    [id_to_string_.emplace_back(symbol)]. *)
Definition assigns (c : caller) : nat :=
  match c with
  | Inserting _ _ => 1
  | _ => 0
  end.

Definition appends (c : caller) : nat :=
  match c with
  | Appending _ _ => 1
  | _ => 0
  end.

(** The same for the statements of the calls that present [s]. *)
Definition assigns_of (s : string) (c : caller) : nat :=
  match c with
  | Inserting s' _ => if decide (s' = s) then 1 else 0
  | _ => 0
  end.

Definition appends_of (s : string) (c : caller) : nat :=
  match c with
  | Appending s' _ => if decide (s' = s) then 1 else 0
  | _ => 0
  end.

(** How many of the statements that a schedule executes satisfy [count]:
    with [assigns], the assignments of an identifier that happen on it. *)
Fixpoint executed (count : caller → nat) (schedule : list nat) (w : world) : nat :=
  match schedule with
  | [] => 0
  | i :: rest =>
      match w_callers w !! i, step i w with
      | Some c, Some w' => count c + executed count rest w'
      | _, _ => 0
      end
  end.

(** ** First-seen order *)

(** The symbols of a call sequence, each kept at its first occurrence. *)
Fixpoint first_seen (calls : list string) : list string :=
  match calls with
  | [] => []
  | s :: rest => s :: filter (fun x => x ≠ s) (first_seen rest)
  end.

(** How often the target occurs in a workload. *)
Definition occurrences (target : string) (incoming : list string) : N :=
  N.of_nat (length (filter (fun s => s = target) incoming)).

(** ** Arguments *)

(** A string of white space only. *)
Fixpoint all_spaces (s : string) : bool :=
  match s with
  | String c s' => isspace c && all_spaces s'
  | EmptyString => true
  end.

(** Whether a string begins with a decimal digit. *)
Definition starts_with_digit (s : string) : bool :=
  match s with
  | String c _ => isdigit c
  | EmptyString => false
  end.

(** ** The report of a run, written out *)

Definition scenario_fanout (sc : scenario) : N :=
  match sc with
  | OneToOne => 1
  | OneToMany F => F
  end.

Definition scenario_labels (sc : scenario) : string * string :=
  match sc with
  | OneToOne => ("Registry (lookup + ID cmp)", "Direct std::string cmp")
  | OneToMany _ => ("Registry (lookup + NxID cmp)", "Direct Nxstd::string cmp")
  end.

(** The seven lines of a scenario whose two counts are [matches]. *)
Definition scenario_table `{StdLib} (sc : scenario)
    (ms_registry ms_direct : millis) (matches : N) : list event :=
  [Cout (ScenarioTitle sc); Cout ColumnHeads; Cout (Rule (W + 24));
   Cout (TableRow (fst (scenario_labels sc)) ms_registry matches);
   Cout (TableRow (snd (scenario_labels sc)) ms_direct matches);
   Cout (Rule (W + 24)); Cout (Speedup ms_registry ms_direct)].

(** The heading of a scenario followed by the diagnostic. *)
Definition scenario_abort `{StdLib} (sc : scenario)
    (matches_registry matches_direct : N) : list event :=
  [Cout (ScenarioTitle sc); Cout ColumnHeads; Cout (Rule (W + 24));
   Cerr sc matches_registry matches_direct].

(** The tables of consecutive scenarios; the first uses the timer readings
    [t] and [t + 1], the next the two after them, and so on. *)
Fixpoint scenario_tables `{StdLib} (t : nat) (count : scenario → N)
    (scs : list scenario) : list event :=
  match scs with
  | [] => []
  | sc :: rest =>
      scenario_table sc (elapsed_ms t) (elapsed_ms (S t)) (count sc)
      ++ scenario_tables (S (S t)) count rest
  end.

(** The rows of the summary for consecutive fanout points. *)
Fixpoint summary_rows `{StdLib} (t : nat) (points : list N) : list event :=
  match points with
  | [] => []
  | F :: rest =>
      Cout (SummaryRow F (elapsed_ms t) (elapsed_ms (S t)))
      :: summary_rows (S (S t)) rest
  end.

(** Everything a run without mismatch writes, for [k] occurrences of the
    target in the stream. *)
Definition full_report `{StdLib} (ITERATIONS k : N) : list event :=
  [Cout (Banner ITERATIONS (N.of_nat (length SYMBOL_POOL)))]
  ++ scenario_tables 0 (fun sc => (scenario_fanout sc * k) mod SIZE_MOD) scenarios
  ++ [Cout SummaryTitle; Cout SummaryHeads; Cout (Rule (SW * 4 + 2 + 12))]
  ++ summary_rows 2 sweep_points
  ++ [Cout (Rule (SW * 4 + 2 + 12)); Cout Blank].

(** Everything a run writes when [sc] is the first scenario whose counts
    differ, after the scenarios [before]. *)
Definition abort_report `{StdLib} (ITERATIONS k : N) (before : list scenario)
    (sc : scenario) (matches_registry matches_direct : N) : list event :=
  [Cout (Banner ITERATIONS (N.of_nat (length SYMBOL_POOL)))]
  ++ scenario_tables 0 (fun sc => (scenario_fanout sc * k) mod SIZE_MOD) before
  ++ scenario_abort sc matches_registry matches_direct.

(** * Properties *)

(** ** Facts about the registry *)

Section registry_facts.
Implicit Types (r : SymbolRegistry) (s : string) (i : N).

Lemma to_uint32_small n : n < UINT32_MOD → to_uint32 n = n.
Proof. intros H. unfold to_uint32. by apply N.mod_small. Qed.

Lemma to_uint32_lt n : to_uint32 n < UINT32_MOD.
Proof. unfold to_uint32. apply N.mod_lt. done. Qed.

Lemma consistent_empty : consistent empty_registry.
Proof.
  split; simpl.
  - constructor.
  - intros s i. rewrite lookup_empty. split; [done|].
    intros (n & Hn & _). by rewrite lookup_nil in Hn.
Qed.

Lemma get_id_seen r s i :
  string_to_id_ r !! s = Some i → get_id s r = (i, r).
Proof. intros H. unfold get_id. by rewrite H. Qed.

Lemma get_id_unseen r s :
  string_to_id_ r !! s = None →
  get_id s r =
    (to_uint32 (N.of_nat (length (id_to_string_ r))),
     {| string_to_id_ :=
          <[s := to_uint32 (N.of_nat (length (id_to_string_ r)))]> (string_to_id_ r);
        id_to_string_ := id_to_string_ r ++ [s] |}).
Proof. intros H. unfold get_id. by rewrite H. Qed.

Lemma get_id_lookup r s :
  string_to_id_ (snd (get_id s r)) !! s = Some (fst (get_id s r)).
Proof.
  destruct (string_to_id_ r !! s) as [i|] eqn:E.
  - by rewrite (get_id_seen _ _ _ E).
  - rewrite (get_id_unseen _ _ E). simpl. apply lookup_insert_eq.
Qed.

Lemma consistent_seen_iff r s :
  consistent r → is_Some (string_to_id_ r !! s) ↔ s ∈ id_to_string_ r.
Proof.
  intros [_ Hl]. rewrite list_elem_of_lookup. split.
  - intros [i Hi]. apply Hl in Hi as (n & Hn & _). eauto.
  - intros [n Hn]. exists (to_uint32 (N.of_nat n)). apply Hl. eauto.
Qed.

Lemma get_id_consistent r s : consistent r → consistent (snd (get_id s r)).
Proof.
  intros Hr. destruct (string_to_id_ r !! s) as [i|] eqn:E.
  - by rewrite (get_id_seen _ _ _ E).
  - rewrite (get_id_unseen _ _ E). simpl.
    assert (s ∉ id_to_string_ r) as Hfresh.
    { rewrite <- (consistent_seen_iff _ _ Hr), E. by intros [? ?]. }
    destruct Hr as [Hnd Hl]. split; simpl.
    + apply NoDup_app. split_and!; [done| |apply NoDup_singleton].
      intros x Hx ->%list_elem_of_singleton. done.
    + intros s' i. destruct (decide (s = s')) as [<-|Hne].
      * rewrite lookup_insert_eq. split.
        -- intros [= <-]. exists (length (id_to_string_ r)).
           split; [|done]. by rewrite list_lookup_middle.
        -- intros (n & Hn & ->). f_equal.
           apply lookup_snoc_Some in Hn as [[_ Hn]|[<- _]]; [|done].
           destruct Hfresh. apply list_elem_of_lookup. eauto.
      * rewrite lookup_insert_ne by done. rewrite Hl. split.
        -- intros (n & Hn & ->). exists n. split; [|done].
           by apply lookup_app_l_Some.
        -- intros (n & Hn & ->). exists n. split; [|done].
           apply lookup_snoc_Some in Hn as [[_ Hn]|[_ ?]]; [done|congruence].
Qed.

Lemma register_all_snoc symbols s r :
  register_all (symbols ++ [s]) r = snd (get_id s (register_all symbols r)).
Proof. unfold register_all. by rewrite foldl_app. Qed.

Lemma register_all_app l1 l2 r :
  register_all (l1 ++ l2) r = register_all l2 (register_all l1 r).
Proof. unfold register_all. by rewrite foldl_app. Qed.

Lemma register_all_consistent symbols r :
  consistent r → consistent (register_all symbols r).
Proof.
  revert r. induction symbols as [|s symbols IH]; intros r Hr; [done|].
  simpl. apply IH. by apply get_id_consistent.
Qed.

(** The reverse table only grows, and at its end. *)
Lemma get_id_prefix r s :
  id_to_string_ r `prefix_of` id_to_string_ (snd (get_id s r)).
Proof.
  unfold get_id. destruct (string_to_id_ r !! s); simpl; [done|].
  by apply prefix_app_r.
Qed.

Lemma register_all_prefix symbols r :
  id_to_string_ r `prefix_of` id_to_string_ (register_all symbols r).
Proof.
  revert r. induction symbols as [|s symbols IH]; intros r; [done|].
  simpl. etrans; [apply get_id_prefix|apply IH].
Qed.

(** Forward-map entries are never overwritten. *)
Lemma get_id_mono r s s' i :
  string_to_id_ r !! s' = Some i →
  string_to_id_ (snd (get_id s r)) !! s' = Some i.
Proof.
  intros H. unfold get_id. destruct (string_to_id_ r !! s) eqn:E; simpl; [done|].
  rewrite lookup_insert_ne; [done|]. intros ->. congruence.
Qed.

Lemma register_all_mono symbols r s i :
  string_to_id_ r !! s = Some i →
  string_to_id_ (register_all symbols r) !! s = Some i.
Proof.
  revert r. induction symbols as [|s' symbols IH]; intros r H; [done|].
  simpl. apply IH. by apply get_id_mono.
Qed.

(** Below the 32-bit limit the forward map is the inverse of the
    reverse table. *)
Lemma consistent_lookup_small r s i :
  consistent r → within_uint32 r →
  string_to_id_ r !! s = Some i ↔ id_to_string_ r !! N.to_nat i = Some s.
Proof.
  intros [_ Hl] Hb. unfold within_uint32 in Hb. rewrite Hl. split.
  - intros (n & Hn & ->). apply lookup_lt_Some in Hn as Hlt.
    rewrite to_uint32_small by lia. by rewrite Nat2N.id.
  - intros Hn. exists (N.to_nat i). split; [done|].
    apply lookup_lt_Some in Hn as Hlt.
    rewrite N2Nat.id. symmetry. apply to_uint32_small. lia.
Qed.

End registry_facts.

Section registry_sets.
Implicit Types (r : SymbolRegistry) (s : string) (i : N).

(** The reverse table holds the symbols registered so far, and nothing
    else. *)
Lemma get_id_elem_of r s s' :
  consistent r →
  s' ∈ id_to_string_ (snd (get_id s r)) ↔ s' ∈ id_to_string_ r ∨ s' = s.
Proof.
  intros Hr. destruct (string_to_id_ r !! s) as [i|] eqn:E.
  - rewrite (get_id_seen _ _ _ E). simpl. split; [auto|].
    intros [?| ->]; [done|]. apply (consistent_seen_iff _ _ Hr). eauto.
  - rewrite (get_id_unseen _ _ E). simpl.
    by rewrite elem_of_app, list_elem_of_singleton.
Qed.

Lemma register_all_elem_of symbols r s :
  consistent r →
  s ∈ id_to_string_ (register_all symbols r) ↔ s ∈ id_to_string_ r ∨ s ∈ symbols.
Proof.
  revert r. induction symbols as [|s' symbols IH]; intros r Hr; simpl.
  - rewrite elem_of_nil. tauto.
  - rewrite IH by (by apply get_id_consistent).
    rewrite (get_id_elem_of _ _ _ Hr), elem_of_cons. tauto.
Qed.

(** The number of symbols in the reverse table is the number of distinct
    symbols presented so far. *)
Lemma register_all_length symbols :
  length (id_to_string_ (register_all symbols empty_registry))
  = size (list_to_set symbols : gset string).
Proof.
  pose proof (register_all_consistent symbols _ consistent_empty) as Hr.
  rewrite <- (size_list_to_set (C := gset string)) by apply Hr.
  f_equal. apply set_eq. intros s. rewrite !elem_of_list_to_set.
  rewrite (register_all_elem_of _ _ _ consistent_empty). simpl.
  rewrite elem_of_nil. tauto.
Qed.

(** Symbols that are new and pairwise different are appended in order. *)
Lemma register_all_fresh symbols r :
  consistent r → NoDup symbols →
  (∀ s, s ∈ symbols → s ∉ id_to_string_ r) →
  id_to_string_ (register_all symbols r) = id_to_string_ r ++ symbols.
Proof.
  revert r. induction symbols as [|s symbols IH]; intros r Hr Hnd Hfresh; simpl.
  - by rewrite app_nil_r.
  - apply NoDup_cons in Hnd as [Hs Hnd].
    assert (string_to_id_ r !! s = None) as E.
    { apply eq_None_not_Some. rewrite (consistent_seen_iff _ _ Hr).
      apply Hfresh. by left. }
    rewrite IH; [|by apply get_id_consistent|done|].
    + rewrite (get_id_unseen _ _ E). simpl. by rewrite <- app_assoc.
    + intros s' Hs'. rewrite (get_id_elem_of _ _ _ Hr).
      intros [?| ->]; [|done]. apply (Hfresh s'); [by right|done].
Qed.

(** The identifiers in use are the truncated positions of the reverse
    table. *)
Lemma elem_of_assigned_ids r i :
  consistent r →
  i ∈ assigned_ids r ↔
  ∃ n : nat, (n < length (id_to_string_ r))%nat ∧ i = to_uint32 (N.of_nat n).
Proof.
  intros [_ Hl]. unfold assigned_ids. rewrite elem_of_map_img. split.
  - intros [s Hs]. apply Hl in Hs as (n & Hn & ->).
    exists n. split; [|done]. by eapply lookup_lt_Some.
  - intros (n & Hn & ->). apply lookup_lt_is_Some in Hn as [s Hs].
    exists s. apply Hl. eauto.
Qed.

Lemma assigned_ids_small r i :
  consistent r → within_uint32 r →
  i ∈ assigned_ids r ↔ i < N.of_nat (length (id_to_string_ r)).
Proof.
  intros Hr Hb. unfold within_uint32 in Hb.
  rewrite (elem_of_assigned_ids _ _ Hr). split.
  - intros (n & Hn & ->). rewrite to_uint32_small by lia. lia.
  - intros Hi. exists (N.to_nat i). split; [lia|].
    rewrite N2Nat.id. symmetry. apply to_uint32_small. lia.
Qed.

Lemma assigned_ids_lt r i :
  consistent r → i ∈ assigned_ids r → i < UINT32_MOD.
Proof.
  intros Hr (n & _ & ->)%elem_of_assigned_ids; [|done]. apply to_uint32_lt.
Qed.

(** Two symbols with one identifier are the same symbol, below the
    limit. *)
Lemma ids_injective r s1 s2 i :
  consistent r → within_uint32 r →
  string_to_id_ r !! s1 = Some i → string_to_id_ r !! s2 = Some i → s1 = s2.
Proof.
  intros Hr Hb H1 H2.
  apply (consistent_lookup_small _ _ _ Hr Hb) in H1, H2. congruence.
Qed.

Lemma within_uint32_prefix r r' :
  id_to_string_ r `prefix_of` id_to_string_ r' → within_uint32 r' → within_uint32 r.
Proof.
  intros Hp%prefix_length. unfold within_uint32. lia.
Qed.

End registry_sets.

(** A set of numbers that is an initial segment has its bound as size. *)
Lemma size_initial_segment (X : gset N) (m : nat) :
  (∀ i, i ∈ X ↔ i < N.of_nat m) → size X = m.
Proof.
  revert X. induction m as [|m IH]; intros X HX.
  - apply size_empty_iff. intros i. rewrite HX. split; [lia|set_solver].
  - assert (N.of_nat m ∈ X) as Hm by (apply HX; lia).
    rewrite (union_difference_singleton_L _ _ Hm).
    rewrite size_union, size_singleton.
    2:{ apply disjoint_singleton_l. rewrite elem_of_difference, elem_of_singleton. tauto. }
    rewrite (IH (X ∖ {[N.of_nat m]})); [done|].
    intros i. rewrite elem_of_difference, elem_of_singleton, HX. lia.
Qed.

(** ** The registry: stability, round trip, density, range errors *)

(** C4 (ID stability). Whatever the registry holds, two [get_id] calls in
    a row for one symbol return the same identifier, and the second call
    leaves the registry as it was: the symbol keeps its identifier and
    neither table changes size. *)
Theorem get_id_stable (r : SymbolRegistry) (s : string) :
  let r1 := snd (get_id s r) in
  let r2 := snd (get_id s r1) in
  fst (get_id s r1) = fst (get_id s r) ∧
  r2 = r1 ∧
  string_to_id_ r2 !! s = Some (fst (get_id s r)) ∧
  size (string_to_id_ r2) = size (string_to_id_ r1) ∧
  length (id_to_string_ r2) = length (id_to_string_ r1).
Proof.
  intros r1 r2. subst r1 r2.
  pose proof (get_id_lookup r s) as Hs.
  rewrite (get_id_seen _ _ _ Hs). simpl. done.
Qed.

(** C5 (range errors). On a fresh registry [get_symbol 0] is
    [OutOfRange]. After any calls, [get_symbol id] is [OutOfRange] exactly
    when [id] is not below the size of the reverse table; for a 32-bit
    [id] that is exactly when no symbol has [id], and exactly when [id]
    is not below the number of identifiers in use; and an identifier in
    use always yields text. *)
Theorem get_symbol_out_of_range (calls : list string) (id : N) :
  let r := register_all calls empty_registry in
  get_symbol 0 empty_registry = OutOfRange ∧
  (get_symbol id r = OutOfRange ↔ N.of_nat (length (id_to_string_ r)) <= id) ∧
  (id < UINT32_MOD →
     (get_symbol id r = OutOfRange ↔ id ∉ assigned_ids r) ∧
     (get_symbol id r = OutOfRange ↔ N.of_nat (size (assigned_ids r)) <= id)) ∧
  (id ∈ assigned_ids r → ∃ s, get_symbol id r = Text s).
Proof.
  intros r.
  assert (consistent r) as Hr by apply register_all_consistent, consistent_empty.
  assert (get_symbol id r = OutOfRange ↔ N.of_nat (length (id_to_string_ r)) <= id)
    as Hrange.
  { unfold get_symbol. destruct (id_to_string_ r !! N.to_nat id) as [s|] eqn:E.
    - apply lookup_lt_Some in E. split; [done|lia].
    - apply lookup_ge_None in E. split; [lia|done]. }
  assert (id < UINT32_MOD →
          id ∈ assigned_ids r ↔ id < N.of_nat (length (id_to_string_ r))) as Hin.
  { intros Hid. rewrite (elem_of_assigned_ids _ _ Hr). split.
    - intros (n & Hn & ->).
      destruct (decide (N.of_nat n < UINT32_MOD)) as [Hs|Hl].
      + rewrite to_uint32_small by done. lia.
      + pose proof (to_uint32_lt (N.of_nat n)). lia.
    - intros Hlt. exists (N.to_nat id). split; [lia|].
      rewrite N2Nat.id. symmetry. by apply to_uint32_small. }
  split_and!; [done|done| |].
  - intros Hid. specialize (Hin Hid). split.
    + rewrite Hrange, Hin. lia.
    + rewrite Hrange.
      set (m := N.min (N.of_nat (length (id_to_string_ r))) UINT32_MOD).
      assert (size (assigned_ids r) = N.to_nat m) as ->.
      { apply size_initial_segment. intros i. rewrite N2Nat.id. subst m.
        split.
        - intros Hi. pose proof (assigned_ids_lt _ _ Hr Hi) as Hlt.
          apply (elem_of_assigned_ids _ _ Hr) in Hi as (n & Hn & Hi).
          destruct (decide (N.of_nat n < UINT32_MOD)) as [Hs|Hl].
          + rewrite to_uint32_small in Hi by done. lia.
          + lia.
        - intros Hi. apply (elem_of_assigned_ids _ _ Hr).
          exists (N.to_nat i). split; [lia|].
          rewrite N2Nat.id. symmetry. apply to_uint32_small. lia. }
      rewrite N2Nat.id. subst m. lia.
  - intros Hi. unfold get_symbol.
    apply (elem_of_assigned_ids _ _ Hr) in Hi as (n & Hn & ->).
    destruct (id_to_string_ r !! N.to_nat (to_uint32 (N.of_nat n))) as [s|] eqn:E;
      [eauto|].
    apply lookup_ge_None in E. exfalso.
    assert (to_uint32 (N.of_nat n) <= N.of_nat n); [|lia].
    unfold to_uint32. apply N.Div0.mod_le.
Qed.

Lemma get_symbol_out_of_range_witness :
  (get_symbol 7 (register_all ["AAPL"; "MSFT"; "AAPL"] empty_registry) = OutOfRange
   ↔ 7 ∉ assigned_ids (register_all ["AAPL"; "MSFT"; "AAPL"] empty_registry)) ∧
  (get_symbol 7 (register_all ["AAPL"; "MSFT"; "AAPL"] empty_registry) = OutOfRange
   ↔ N.of_nat (size (assigned_ids
        (register_all ["AAPL"; "MSFT"; "AAPL"] empty_registry))) <= 7).
Proof.
  refine (proj1 (proj2 (proj2
    (get_symbol_out_of_range ["AAPL"; "MSFT"; "AAPL"] 7))) _).
  reflexivity.
Defined.

(** C2 (round trip), as the code has it. When [get_id] returns an
    identifier while the registry holds at most [2^32] symbols, every
    later [get_symbol] with that identifier yields the symbol that
    produced it; and so does the identifier of every symbol registered
    by then. *)
Theorem round_trip_within_uint32 (calls later : list string) (s : string) :
  let r := register_all calls empty_registry in
  let id := fst (get_id s r) in
  let r1 := snd (get_id s r) in
  let r2 := register_all later r1 in
  within_uint32 r1 →
  get_symbol id r2 = Text s ∧
  (∀ s' i, string_to_id_ r1 !! s' = Some i → get_symbol i r2 = Text s').
Proof.
  intros r id r1 r2 Hb.
  assert (consistent r1) as Hr1.
  { apply get_id_consistent, register_all_consistent, consistent_empty. }
  assert (∀ s' i, string_to_id_ r1 !! s' = Some i → get_symbol i r2 = Text s')
    as Hall.
  { intros s' i Hi. apply (consistent_lookup_small _ _ _ Hr1 Hb) in Hi.
    unfold get_symbol. subst r2.
    by rewrite (prefix_lookup_Some _ _ _ _ Hi (register_all_prefix later r1)). }
  split; [|done]. apply Hall. apply get_id_lookup.
Qed.

Lemma round_trip_within_uint32_witness :
  get_symbol (fst (get_id "MSFT" (register_all ["AAPL"; "MSFT"] empty_registry)))
    (register_all ["V"; "AAPL"]
       (snd (get_id "MSFT" (register_all ["AAPL"; "MSFT"] empty_registry))))
  = Text "MSFT".
Proof.
  refine (proj1
    (round_trip_within_uint32 ["AAPL"; "MSFT"] ["V"; "AAPL"] "MSFT" _)).
  apply N.leb_le. vm_compute. reflexivity.
Defined.

(** C3 (density, uniqueness), as the code has it. After any calls that
    present [k] distinct symbols, with [k] at most [2^32], the
    identifiers in use are exactly [0 .. k-1] and no two symbols share
    one. *)
Theorem ids_dense_unique_within_uint32 (calls : list string) :
  let r := register_all calls empty_registry in
  let k := size (list_to_set calls : gset string) in
  N.of_nat k <= UINT32_MOD →
  (∀ i, i ∈ assigned_ids r ↔ i < N.of_nat k) ∧
  size (assigned_ids r) = k ∧
  (∀ s1 s2 i,
     string_to_id_ r !! s1 = Some i → string_to_id_ r !! s2 = Some i → s1 = s2).
Proof.
  intros r k Hk.
  assert (consistent r) as Hr by apply register_all_consistent, consistent_empty.
  assert (length (id_to_string_ r) = k) as Hlen by apply register_all_length.
  assert (within_uint32 r) as Hb by (unfold within_uint32; by rewrite Hlen).
  assert (∀ i, i ∈ assigned_ids r ↔ i < N.of_nat k) as Hids.
  { intros i. rewrite <- Hlen. by apply assigned_ids_small. }
  split_and!; [done|by apply size_initial_segment|].
  intros s1 s2 i. by apply ids_injective.
Qed.

Lemma ids_dense_unique_within_uint32_witness :
  size (assigned_ids
          (register_all ["MSFT"; "AAPL"; "MSFT"; "V"; "AAPL"] empty_registry))
  = 3%nat.
Proof.
  refine (proj1 (proj2
    (ids_dense_unique_within_uint32 ["MSFT"; "AAPL"; "MSFT"; "V"; "AAPL"] _))).
  apply N.leb_le. vm_compute. reflexivity.
Defined.

(** ** Beyond [2^32] symbols: identifiers wrap around *)

Section binary_symbols_facts.

Lemma binary_symbol_nonempty p : binary_symbol p ≠ ""%string.
Proof. by destruct p. Qed.

Lemma binary_symbol_inj p q : binary_symbol p = binary_symbol q → p = q.
Proof.
  revert q. induction p as [p IH|p IH|]; intros [q|q|]; simpl; intros H;
    try discriminate; try reflexivity.
  - injection H as H. f_equal. by apply IH.
  - injection H as H. by apply binary_symbol_nonempty in H.
  - injection H as H. f_equal. by apply IH.
  - injection H as H. symmetry in H. by apply binary_symbol_nonempty in H.
Qed.

Lemma binary_symbols_lookup n k :
  (k < n)%nat →
  binary_symbols n !! k = Some (binary_symbol (Pos.of_succ_nat k)).
Proof.
  intros Hk. unfold binary_symbols.
  rewrite list_lookup_fmap, lookup_seq_lt by done. done.
Qed.

Lemma binary_symbols_length n : length (binary_symbols n) = n.
Proof. unfold binary_symbols. by rewrite length_map, length_seq. Qed.

Lemma binary_symbols_elem_of n s :
  s ∈ binary_symbols n ↔
  ∃ k : nat, (k < n)%nat ∧ s = binary_symbol (Pos.of_succ_nat k).
Proof.
  unfold binary_symbols. rewrite list_elem_of_fmap. split.
  - intros (k & -> & Hk). apply elem_of_seq in Hk. exists k. split; [lia|done].
  - intros (k & Hk & ->). exists k. split; [done|]. apply elem_of_seq. lia.
Qed.

Lemma binary_symbols_NoDup n : NoDup (binary_symbols n).
Proof.
  unfold binary_symbols. apply NoDup_fmap_2; [|apply NoDup_seq].
  intros j k H%binary_symbol_inj. lia.
Qed.

Lemma binary_symbols_S n :
  binary_symbols (S n) = binary_symbols n ++ [binary_symbol (Pos.of_succ_nat n)].
Proof. unfold binary_symbols. by rewrite seq_S, map_app. Qed.

(** No such symbol is in the catalogue: it begins with a digit. *)
Lemma binary_symbol_not_in_pool p : binary_symbol p ∉ SYMBOL_POOL.
Proof.
  intros H. unfold SYMBOL_POOL in H.
  repeat (apply elem_of_cons in H as [H|H]; [by destruct p|]).
  by apply elem_of_nil in H.
Qed.

End binary_symbols_facts.

(** The registry after [n] new symbols on top of a consistent one. *)
Lemma register_binary_symbols n :
  id_to_string_ (register_all (binary_symbols n) empty_registry) = binary_symbols n.
Proof.
  rewrite register_all_fresh; [done|apply consistent_empty|
    apply binary_symbols_NoDup|].
  intros s _. simpl. apply not_elem_of_nil.
Qed.

(** With exactly [2^32] symbols registered, the next new symbol is given
    identifier 0, which the first symbol already has. *)
Lemma wrap_at_uint32 (n : nat) :
  N.of_nat n = UINT32_MOD →
  let r := register_all (binary_symbols n) empty_registry in
  let s := binary_symbol (Pos.of_succ_nat n) in
  fst (get_id s r) = 0 ∧
  string_to_id_ (snd (get_id s r)) !! binary_symbol 1 = Some 0 ∧
  get_symbol 0 (snd (get_id s r)) = Text (binary_symbol 1) ∧
  s ≠ binary_symbol 1.
Proof.
  intros Hn r s.
  assert (consistent r) as Hr by apply register_all_consistent, consistent_empty.
  assert (id_to_string_ r = binary_symbols n) as Hvec
    by apply register_binary_symbols.
  assert (0 < n)%nat as Hpos by (unfold UINT32_MOD in Hn; lia).
  assert (string_to_id_ r !! s = None) as E.
  { apply eq_None_not_Some. rewrite (consistent_seen_iff _ _ Hr), Hvec.
    rewrite binary_symbols_elem_of. intros (k & Hk & Heq).
    apply binary_symbol_inj in Heq. lia. }
  assert (string_to_id_ r !! binary_symbol 1 = Some 0) as Hfirst.
  { apply (consistent_lookup _ Hr). exists 0%nat. split; [|done].
    rewrite Hvec. by rewrite binary_symbols_lookup. }
  rewrite (get_id_unseen _ _ E). cbn [fst snd string_to_id_ id_to_string_].
  split_and!.
  - rewrite Hvec, binary_symbols_length, Hn. unfold to_uint32.
    by apply N.Div0.mod_same.
  - rewrite lookup_insert_ne; [done|].
    intros Heq%binary_symbol_inj. lia.
  - unfold get_symbol. cbn [id_to_string_]. rewrite lookup_app_l.
    + rewrite Hvec. by rewrite binary_symbols_lookup.
    + rewrite Hvec, binary_symbols_length. done.
  - intros Heq%binary_symbol_inj. lia.
Qed.

(** The two failures at a registry of exactly [2^32] symbols, for any
    [n] that is that number. *)
Lemma round_trip_fails_at (n : nat) :
  N.of_nat n = UINT32_MOD →
  let r := register_all (binary_symbols n) empty_registry in
  let s := binary_symbol (Pos.of_succ_nat n) in
  get_symbol (fst (get_id s r)) (snd (get_id s r)) ≠ Text s.
Proof.
  intros Hn r s.
  destruct (wrap_at_uint32 n Hn) as (Hid & _ & Hsym & Hne).
  fold r s in Hid, Hsym, Hne. rewrite Hid, Hsym. congruence.
Qed.

Lemma ids_collide_at (n : nat) :
  N.of_nat n = UINT32_MOD →
  let calls := binary_symbols (S n) in
  let r := register_all calls empty_registry in
  let k := size (list_to_set calls : gset string) in
  ¬ (∀ i, i ∈ assigned_ids r ↔ i < N.of_nat k) ∧
  ¬ (∀ s1 s2 i,
       string_to_id_ r !! s1 = Some i → string_to_id_ r !! s2 = Some i → s1 = s2).
Proof.
  intros Hn calls r k.
  assert (consistent r) as Hr by apply register_all_consistent, consistent_empty.
  assert (k = S n) as Hk.
  { subst k calls. rewrite size_list_to_set by apply binary_symbols_NoDup.
    apply binary_symbols_length. }
  split.
  - intros Hids. specialize (Hids UINT32_MOD).
    assert (UINT32_MOD ∈ assigned_ids r) as Hin by (apply Hids; lia).
    apply (assigned_ids_lt _ _ Hr) in Hin. lia.
  - intros Hinj.
    destruct (wrap_at_uint32 n Hn) as (Hid & Hfirst & _ & Hne).
    assert (r = snd (get_id (binary_symbol (Pos.of_succ_nat n))
                       (register_all (binary_symbols n) empty_registry))) as Hr_eq.
    { subst r calls. by rewrite binary_symbols_S, register_all_snoc. }
    rewrite <- Hr_eq in Hfirst.
    apply Hne. apply (Hinj _ _ 0); [|done].
    rewrite Hr_eq, <- Hid. apply get_id_lookup.
Qed.

(** C2, refuted as stated: after [2^32] distinct symbols, the identifier
    [get_id] returns for the next new symbol leads [get_symbol] to another
    symbol's text. *)
Lemma round_trip_fails_past_uint32 :
  let r := register_all (binary_symbols (N.to_nat UINT32_MOD)) empty_registry in
  let s := binary_symbol (Pos.of_succ_nat (N.to_nat UINT32_MOD)) in
  get_symbol (fst (get_id s r)) (snd (get_id s r)) ≠ Text s.
Proof. exact (round_trip_fails_at (N.to_nat UINT32_MOD) (N2Nat.id UINT32_MOD)). Qed.

(** C3, refuted as stated: [2^32 + 1] distinct symbols do not receive the
    identifiers [0 .. 2^32], and two of them share identifier 0. *)
Lemma ids_collide_past_uint32 :
  let calls := binary_symbols (S (N.to_nat UINT32_MOD)) in
  let r := register_all calls empty_registry in
  let k := size (list_to_set calls : gset string) in
  ¬ (∀ i, i ∈ assigned_ids r ↔ i < N.of_nat k) ∧
  ¬ (∀ s1 s2 i,
       string_to_id_ r !! s1 = Some i → string_to_id_ r !! s2 = Some i → s1 = s2).
Proof. exact (ids_collide_at (N.to_nat UINT32_MOD) (N2Nat.id UINT32_MOD)). Qed.

(** ** The two comparison paths *)

Section paths.
Implicit Types (r : SymbolRegistry) (s target : string) (incoming : list string).

Lemma repeat_fanout_ext {A : Type} (F : N) (f g : A → A) (a : A) :
  (∀ x, f x = g x) → repeat_fanout F f a = repeat_fanout F g a.
Proof.
  intros Hfg. unfold repeat_fanout. revert a.
  induction F as [|F IH] using N.peano_ind; intros a; [done|].
  by rewrite !N.iter_succ, IH, Hfg.
Qed.

Lemma repeat_fanout_id {A : Type} (F : N) (f : A → A) (a : A) :
  (∀ x, f x = x) → repeat_fanout F f a = a.
Proof.
  intros Hf. unfold repeat_fanout.
  induction F as [|F IH] using N.peano_ind; [done|].
  by rewrite N.iter_succ, IH, Hf.
Qed.

Lemma repeat_fanout_1 {A : Type} (f : A → A) (a : A) : repeat_fanout 1 f a = f a.
Proof. done. Qed.

(** With the target registered, below the limit, comparing identifiers is
    comparing texts. *)
Lemma id_eqb_string_eqb r s target i target_id :
  consistent r → within_uint32 r →
  string_to_id_ r !! target = Some target_id →
  string_to_id_ r !! s = Some i →
  (i =? target_id) = String.eqb s target.
Proof.
  intros Hr Hb Ht Hs. destruct (String.eqb_spec s target) as [->|Hne].
  - apply N.eqb_eq. congruence.
  - apply N.eqb_neq. intros ->. apply Hne. by eapply ids_injective.
Qed.

(** Each registry loop leaves the registry that the same calls to
    [get_id] leave. *)
Lemma registry_1to1_registry target_id incoming m r :
  snd (registry_1to1 target_id incoming m r) = register_all incoming r.
Proof.
  revert m r. induction incoming as [|s incoming IH]; intros m r; [done|].
  simpl. destruct (get_id s r) as [i r1]. apply IH.
Qed.

Lemma registry_1tomany_registry F target_id incoming m r :
  snd (registry_1tomany F target_id incoming m r) = register_all incoming r.
Proof.
  revert m r. induction incoming as [|s incoming IH]; intros m r; [done|].
  simpl. destruct (get_id s r) as [i r1]. apply IH.
Qed.

Lemma warm_registry_1to1_registry target_id incoming m r :
  snd (warm_registry_1to1 target_id incoming m r) = register_all incoming r.
Proof.
  revert m r. induction incoming as [|s incoming IH]; intros m r; [done|].
  simpl. destruct (get_id s r) as [i r1]. apply IH.
Qed.

Lemma warm_registry_1tomany_registry F target_id incoming m r :
  snd (warm_registry_1tomany F target_id incoming m r) = register_all incoming r.
Proof.
  revert m r. induction incoming as [|s incoming IH]; intros m r; [done|].
  simpl. destruct (get_id s r) as [i r1]. apply IH.
Qed.

(** Presenting symbols the registry knows changes nothing. *)
Lemma register_all_known incoming r :
  (∀ s, s ∈ incoming → is_Some (string_to_id_ r !! s)) →
  register_all incoming r = r.
Proof.
  induction incoming as [|s incoming IH]; intros Hknown; [done|].
  simpl. destruct (Hknown s) as [i Hi]; [by left|].
  rewrite (get_id_seen _ _ _ Hi). simpl. apply IH.
  intros s' Hs'. apply Hknown. by right.
Qed.

Lemma register_all_registered incoming r s :
  s ∈ incoming → is_Some (string_to_id_ (register_all incoming r) !! s).
Proof.
  revert r. induction incoming as [|s' incoming IH]; intros r Hs.
  - by apply elem_of_nil in Hs.
  - simpl. apply elem_of_cons in Hs as [->|Hs]; [|by apply IH].
    eexists. apply register_all_mono, get_id_lookup.
Qed.

Lemma register_all_idempotent incoming r :
  register_all incoming (register_all incoming r) = register_all incoming r.
Proof.
  apply register_all_known. intros s. apply register_all_registered.
Qed.

(** The law behind the cross-check, for any starting count. *)
Lemma registry_1tomany_direct F target target_id incoming m r :
  consistent r →
  string_to_id_ r !! target = Some target_id →
  within_uint32 (register_all incoming r) →
  fst (registry_1tomany F target_id incoming m r)
  = direct_1tomany F target incoming m.
Proof.
  revert m r. induction incoming as [|s incoming IH]; intros m r Hr Ht Hb; [done|].
  simpl in *. destruct (get_id s r) as [i r1] eqn:E.
  assert (r1 = snd (get_id s r)) as Hr1 by (by rewrite E).
  assert (string_to_id_ r1 !! s = Some i) as Hi.
  { pose proof (get_id_lookup r s) as H. by rewrite E in H. }
  assert (consistent r1) as Hc by (rewrite Hr1; by apply get_id_consistent).
  assert (string_to_id_ r1 !! target = Some target_id) as Ht1
    by (rewrite Hr1; by apply get_id_mono).
  assert (within_uint32 r1) as Hb1
    by (eapply within_uint32_prefix; [apply register_all_prefix|done]).
  rewrite (id_eqb_string_eqb r1 s target i target_id) by done.
  by apply IH.
Qed.

Lemma registry_1to1_direct target target_id incoming m r :
  consistent r →
  string_to_id_ r !! target = Some target_id →
  within_uint32 (register_all incoming r) →
  fst (registry_1to1 target_id incoming m r) = direct_1to1 target incoming m.
Proof.
  revert m r. induction incoming as [|s incoming IH]; intros m r Hr Ht Hb; [done|].
  simpl in *. destruct (get_id s r) as [i r1] eqn:E.
  assert (r1 = snd (get_id s r)) as Hr1 by (by rewrite E).
  assert (string_to_id_ r1 !! s = Some i) as Hi.
  { pose proof (get_id_lookup r s) as H. by rewrite E in H. }
  assert (consistent r1) as Hc by (rewrite Hr1; by apply get_id_consistent).
  assert (string_to_id_ r1 !! target = Some target_id) as Ht1
    by (rewrite Hr1; by apply get_id_mono).
  assert (within_uint32 r1) as Hb1
    by (eapply within_uint32_prefix; [apply register_all_prefix|done]).
  rewrite (id_eqb_string_eqb r1 s target i target_id) by done.
  by apply IH.
Qed.

(** The 1-to-1 scenario is the 1-to-many scenario at fanout 1. *)
Lemma registry_1to1_fanout_1 target_id incoming m r :
  registry_1to1 target_id incoming m r = registry_1tomany 1 target_id incoming m r.
Proof.
  revert m r. induction incoming as [|s incoming IH]; intros m r; [done|].
  simpl. destruct (get_id s r) as [i r1]. by rewrite IH.
Qed.

Lemma direct_1to1_fanout_1 target incoming m :
  direct_1to1 target incoming m = direct_1tomany 1 target incoming m.
Proof.
  revert m. induction incoming as [|s incoming IH]; intros m; [done|].
  simpl. by rewrite IH.
Qed.

Lemma registry_1tomany_app F target_id l1 l2 m r :
  registry_1tomany F target_id (l1 ++ l2) m r
  = registry_1tomany F target_id l2
      (fst (registry_1tomany F target_id l1 m r))
      (snd (registry_1tomany F target_id l1 m r)).
Proof.
  revert m r. induction l1 as [|s l1 IH]; intros m r; [done|].
  simpl. destruct (get_id s r) as [i r1]. apply IH.
Qed.

Lemma direct_1tomany_app F target l1 l2 m :
  direct_1tomany F target (l1 ++ l2) m
  = direct_1tomany F target l2 (direct_1tomany F target l1 m).
Proof.
  revert m. induction l1 as [|s l1 IH]; intros m; [done|]. simpl. apply IH.
Qed.

(** A workload without the target leaves the direct count alone. *)
Lemma direct_1tomany_absent F target incoming m :
  target ∉ incoming → direct_1tomany F target incoming m = m.
Proof.
  revert m. induction incoming as [|s incoming IH]; intros m Hnot; [done|].
  simpl. apply not_elem_of_cons in Hnot as [Hne Hnot].
  assert (String.eqb s target = false) as -> by (apply String.eqb_neq; congruence).
  rewrite repeat_fanout_id by done. by apply IH.
Qed.

(** New, pairwise different symbols whose positions do not truncate to
    the target's identifier leave the registry count alone. *)
Lemma registry_1tomany_no_match F target_id incoming m r :
  consistent r → NoDup incoming →
  (∀ s, s ∈ incoming → s ∉ id_to_string_ r) →
  (∀ j : nat, (j < length incoming)%nat →
     to_uint32 (N.of_nat (length (id_to_string_ r) + j)) ≠ target_id) →
  fst (registry_1tomany F target_id incoming m r) = m.
Proof.
  revert m r. induction incoming as [|s incoming IH];
    intros m r Hr Hnd Hfresh Hpos; [done|].
  apply NoDup_cons in Hnd as [Hs Hnd].
  assert (string_to_id_ r !! s = None) as E.
  { apply eq_None_not_Some. rewrite (consistent_seen_iff _ _ Hr).
    apply Hfresh. by left. }
  simpl. rewrite (get_id_unseen _ _ E).
  assert ((to_uint32 (N.of_nat (length (id_to_string_ r))) =? target_id) = false)
    as ->.
  { apply N.eqb_neq. specialize (Hpos 0%nat). rewrite Nat.add_0_r in Hpos.
    apply Hpos. simpl. lia. }
  rewrite repeat_fanout_id by done.
  pose proof (get_id_consistent r s Hr) as Hc.
  rewrite (get_id_unseen _ _ E) in Hc. simpl in Hc.
  apply IH; [done|done| |]; simpl.
  - intros s' Hs'. rewrite elem_of_app, list_elem_of_singleton.
    intros [?| ->]; [|done]. apply (Hfresh s'); [by right|done].
  - intros j Hj. rewrite length_app. simpl.
    replace (length (id_to_string_ r) + 1 + j)%nat
      with (length (id_to_string_ r) + S j)%nat by lia.
    apply Hpos. simpl. lia.
Qed.

End paths.

(** C1 (cross-path equivalence), as the code has it. With any symbols
    registered beforehand and the target registered after them, for every
    workload and every fanout, the registry path and the direct path count
    the same matches, in the 1-to-many and in the 1-to-1 scenario, as long
    as the registry ends with at most [2^32] symbols. *)
Theorem cross_path_equivalence_within_uint32
    (registered incoming : list string) (target : string) (F : N) :
  let r0 := register_all registered empty_registry in
  let target_id := fst (get_id target r0) in
  let r := snd (get_id target r0) in
  within_uint32 (register_all incoming r) →
  fst (registry_1tomany F target_id incoming 0 r)
    = direct_1tomany F target incoming 0 ∧
  fst (registry_1to1 target_id incoming 0 r) = direct_1to1 target incoming 0.
Proof.
  intros r0 target_id r Hb.
  assert (consistent r) as Hr.
  { apply get_id_consistent, register_all_consistent, consistent_empty. }
  assert (string_to_id_ r !! target = Some target_id) as Ht by apply get_id_lookup.
  split.
  - by apply registry_1tomany_direct.
  - by apply registry_1to1_direct.
Qed.

Lemma cross_path_equivalence_within_uint32_witness :
  fst (registry_1tomany 4 40 ["BTCUSD"; "AAPL"; "BTCUSD"] 0
         (snd (get_id "BTCUSD" (register_all SYMBOL_POOL empty_registry))))
  = direct_1tomany 4 "BTCUSD" ["BTCUSD"; "AAPL"; "BTCUSD"] 0.
Proof.
  refine (proj1 (cross_path_equivalence_within_uint32
                   SYMBOL_POOL ["BTCUSD"; "AAPL"; "BTCUSD"] "BTCUSD" 4 _)).
  apply N.leb_le. vm_compute. reflexivity.
Defined.

(** The scenarios the specification works out by hand. *)
Example scenario_A :
  let r := snd (get_id "BTCUSD" empty_registry) in
  fst (registry_1tomany 1 0 ["BTCUSD"; "AAPL"; "BTCUSD"] 0 r) = 2 ∧
  direct_1tomany 1 "BTCUSD" ["BTCUSD"; "AAPL"; "BTCUSD"] 0 = 2.
Proof. vm_compute. done. Qed.

Example scenario_B :
  let r := snd (get_id "BTCUSD" empty_registry) in
  fst (registry_1tomany 4 0 ["BTCUSD"; "AAPL"; "BTCUSD"] 0 r) = 8 ∧
  direct_1tomany 4 "BTCUSD" ["BTCUSD"; "AAPL"; "BTCUSD"] 0 = 8.
Proof. vm_compute. done. Qed.

Example scenario_C :
  let r := snd (get_id "BTCUSD" empty_registry) in
  fst (registry_1tomany 8 0 ["AAPL"; "MSFT"] 0 r) = 0 ∧
  direct_1tomany 8 "BTCUSD" ["AAPL"; "MSFT"] 0 = 0.
Proof. vm_compute. done. Qed.

(** The registry as [main] prepares it: the catalogue, then the target. *)
Lemma prepared_registry :
  let r := snd (get_id "BTCUSD" (register_all SYMBOL_POOL empty_registry)) in
  fst (get_id "BTCUSD" (register_all SYMBOL_POOL empty_registry)) = 40 ∧
  id_to_string_ r = SYMBOL_POOL ∧
  string_to_id_ r !! "BTCUSD"%string = Some 40 ∧
  consistent r.
Proof.
  split_and!.
  - vm_compute. reflexivity.
  - vm_compute. reflexivity.
  - vm_compute. reflexivity.
  - apply get_id_consistent, register_all_consistent, consistent_empty.
Qed.

Lemma to_uint32_wrapped (x c : N) :
  c < UINT32_MOD → x = UINT32_MOD + c → to_uint32 x = c.
Proof.
  intros Hc ->. unfold to_uint32.
  rewrite <- N.Div0.add_mod_idemp_l, N.Div0.mod_same, N.add_0_l.
  by apply N.mod_small.
Qed.

(** On top of the prepared registry, [2^32 - 4] new symbols: the last one
    lands on position [2^32 + 40] and is given the target's identifier. *)
Lemma cross_path_fails_at (n : nat) :
  N.of_nat n = UINT32_MOD - 5 →
  let r0 := register_all SYMBOL_POOL empty_registry in
  let target_id := fst (get_id "BTCUSD" r0) in
  let r := snd (get_id "BTCUSD" r0) in
  let incoming := binary_symbols (S n) in
  fst (registry_1tomany 1 target_id incoming 0 r) = 1 ∧
  direct_1tomany 1 "BTCUSD" incoming 0 = 0.
Proof.
  intros Hn r0 target_id r incoming.
  destruct prepared_registry as (Htid & Hvec & Ht & Hr).
  fold r0 in Htid, Hvec, Ht, Hr. fold r in Hvec, Ht, Hr. fold target_id in Htid.
  clearbody r target_id. clear r0. subst target_id.
  assert (length SYMBOL_POOL = 45%nat) as Hlen by reflexivity.
  assert (UINT32_MOD = 4294967296) as Hmod by reflexivity.
  assert (∀ s, s ∈ binary_symbols (S n) → s ∉ id_to_string_ r) as Hfresh.
  { intros s (k & _ & ->)%binary_symbols_elem_of. rewrite Hvec.
    apply binary_symbol_not_in_pool. }
  split.
  - subst incoming. rewrite binary_symbols_S, registry_1tomany_app.
    rewrite registry_1tomany_registry.
    rewrite (registry_1tomany_no_match 1 40 (binary_symbols n) 0 r);
      [|done|apply binary_symbols_NoDup| |].
    2:{ intros s Hs. apply Hfresh. rewrite binary_symbols_S, elem_of_app. by left. }
    2:{ intros j Hj. rewrite binary_symbols_length in Hj. rewrite Hvec, Hlen.
        intros Heq.
        destruct (decide (N.of_nat (45 + j) < UINT32_MOD)) as [Hs|Hl].
        - rewrite to_uint32_small in Heq by done. lia.
        - rewrite (to_uint32_wrapped _ (N.of_nat (45 + j) - UINT32_MOD)) in Heq;
            lia. }
    set (r1 := register_all (binary_symbols n) r).
    assert (consistent r1) as Hr1 by (by apply register_all_consistent).
    assert (id_to_string_ r1 = SYMBOL_POOL ++ binary_symbols n) as Hvec1.
    { subst r1. rewrite register_all_fresh, Hvec;
        [done|done|apply binary_symbols_NoDup|].
      intros s Hs. apply Hfresh. rewrite binary_symbols_S, elem_of_app. by left. }
    assert (string_to_id_ r1 !! binary_symbol (Pos.of_succ_nat n) = None) as E.
    { apply eq_None_not_Some. rewrite (consistent_seen_iff _ _ Hr1), Hvec1.
      rewrite elem_of_app. intros [Hp|Hb].
      - by apply binary_symbol_not_in_pool in Hp.
      - apply binary_symbols_elem_of in Hb as (k & Hk & Heq).
        apply binary_symbol_inj in Heq. lia. }
    cbn [registry_1tomany]. rewrite (get_id_unseen _ _ E).
    rewrite Hvec1, length_app, Hlen, binary_symbols_length.
    rewrite (to_uint32_wrapped _ 40) by lia.
    reflexivity.
  - apply direct_1tomany_absent. subst incoming.
    intros (k & _ & Heq)%binary_symbols_elem_of.
    apply (binary_symbol_not_in_pool (Pos.of_succ_nat k)). rewrite <- Heq.
    unfold SYMBOL_POOL. set_solver.
Qed.

(** C1, refuted as stated: a workload of [2^32 - 4] distinct symbols on
    which the registry path counts a match and the direct path none. *)
Lemma cross_path_fails_past_uint32 :
  let r0 := register_all SYMBOL_POOL empty_registry in
  let target_id := fst (get_id "BTCUSD" r0) in
  let r := snd (get_id "BTCUSD" r0) in
  let incoming := binary_symbols (S (N.to_nat (UINT32_MOD - 5))) in
  fst (registry_1tomany 1 target_id incoming 0 r)
  ≠ direct_1tomany 1 "BTCUSD" incoming 0.
Proof.
  intros r0 target_id r incoming.
  destruct (cross_path_fails_at (N.to_nat (UINT32_MOD - 5)) (N2Nat.id _))
    as [Hreg Hdir].
  fold r0 target_id r incoming in Hreg, Hdir. rewrite Hreg, Hdir. done.
Qed.

(** ** The workload generator *)

Section generator.
Context {L : StdLib} {laws : StdLibLaws L}.

Lemma generate_loop_length (n : nat) (rng : engine) (stream : list string) :
  length (generate_loop n rng stream) = (length stream + n)%nat.
Proof.
  revert rng stream. induction n as [|n IH]; intros rng stream; simpl.
  - lia.
  - destruct (uniform_int_distribution _ _ rng) as [k rng'].
    rewrite IH, length_app. simpl. lia.
Qed.

Lemma pool_pick_in_pool (rng : engine) :
  SYMBOL_POOL
    !!! Z.to_nat (fst (uniform_int_distribution 0
                         (Z.of_nat (length SYMBOL_POOL) - 1) rng))
  ∈ SYMBOL_POOL.
Proof.
  apply list_elem_of_lookup_total_2.
  pose proof (uniform_in_range 0 (Z.of_nat (length SYMBOL_POOL) - 1) rng) as H.
  assert (length SYMBOL_POOL = 45%nat) as Hlen by reflexivity.
  rewrite Hlen in *. lia.
Qed.

Lemma generate_loop_in_pool (n : nat) (rng : engine) (stream : list string) :
  Forall (fun s => s ∈ SYMBOL_POOL) stream →
  Forall (fun s => s ∈ SYMBOL_POOL) (generate_loop n rng stream).
Proof.
  revert rng stream. induction n as [|n IH]; intros rng stream Hs; simpl; [done|].
  pose proof (pool_pick_in_pool rng) as Hpick.
  destruct (uniform_int_distribution _ _ rng) as [k rng'].
  apply IH. apply Forall_app. split; [done|]. by apply Forall_singleton.
Qed.

(** [reserve], case by case. *)
Lemma reserve_0 : reserve 0 = None.
Proof.
  unfold reserve. destruct (N.ltb_spec vector_max_size 0) as [Hlt|_]; [lia|done].
Qed.

Lemma reserve_returns (n : N) :
  reserve n = None ↔ n <= vector_max_size ∧ (n = 0 ∨ vector_allocate n = true).
Proof.
  unfold reserve. destruct (N.ltb_spec vector_max_size n) as [Hlt|Hle].
  - split; [done|]. intros [? _]. lia.
  - destruct (N.eqb_spec n 0) as [->|Hne]; simpl.
    + split; [|done]. intros _. split; [done|by left].
    + destruct (vector_allocate n); [|split; [done|intros [_ [?|?]]; done]].
      split; [|done]. intros _. split; [done|by right].
Qed.

Lemma reserve_length_error (n : N) :
  reserve n = Some LengthError ↔ vector_max_size < n.
Proof.
  unfold reserve. destruct (N.ltb_spec vector_max_size n) as [Hlt|Hle].
  - done.
  - split; [|lia]. by destruct ((n =? 0) || vector_allocate n).
Qed.

Lemma generate_incoming_stream_returns (n seed : N) :
  reserve n = None →
  generate_incoming_stream n seed
  = inr (generate_loop (N.to_nat n) (mt19937 seed) []).
Proof. unfold generate_incoming_stream. by intros ->. Qed.

Lemma generate_incoming_stream_throws (n seed : N) (e : thrown) :
  reserve n = Some e → generate_incoming_stream n seed = inl e.
Proof. unfold generate_incoming_stream. by intros ->. Qed.

Lemma generate_incoming_stream_0 (seed : N) :
  generate_incoming_stream 0 seed = inr [].
Proof. by rewrite (generate_incoming_stream_returns _ _ reserve_0). Qed.

Lemma generate_incoming_stream_inv (n seed : N) (stream : list string) :
  generate_incoming_stream n seed = inr stream →
  reserve n = None ∧ stream = generate_loop (N.to_nat n) (mt19937 seed) [].
Proof.
  unfold generate_incoming_stream. destruct (reserve n); [done|].
  intros [= <-]. done.
Qed.

Lemma generate_incoming_stream_length (n seed : N) (stream : list string) :
  generate_incoming_stream n seed = inr stream → length stream = N.to_nat n.
Proof.
  intros [_ ->]%generate_incoming_stream_inv. by rewrite generate_loop_length.
Qed.

Lemma generate_incoming_stream_in_pool (n seed : N) (stream : list string) :
  generate_incoming_stream n seed = inr stream →
  Forall (fun s => s ∈ SYMBOL_POOL) stream.
Proof.
  intros [_ ->]%generate_incoming_stream_inv. apply generate_loop_in_pool.
  constructor.
Qed.

(** The loop over the engine in memory draws what the loop over the
    engine's value draws, and touches no other engine. *)
Lemma generate_loop_st_spec (n : nat) (rng : nat) (g : engine)
    (stream : list string) (memory : gmap nat engine) :
  memory !! rng = Some g →
  ∃ g', generate_loop_st n rng stream memory
        = (generate_loop n g stream, <[rng := g']> memory).
Proof.
  revert g stream memory.
  induction n as [|n IH]; intros g stream memory Hg; simpl.
  - exists g. by rewrite insert_id.
  - unfold draw. rewrite Hg.
    destruct (uniform_int_distribution _ _ g) as [k g1].
    destruct (IH g1 (stream ++ [SYMBOL_POOL !!! Z.to_nat k])
                (<[rng := g1]> memory)) as [g' Hloop].
    { apply lookup_insert_eq. }
    exists g'. by rewrite Hloop, insert_insert_eq.
Qed.

(** In memory, the function returns what [generate_incoming_stream]
    returns and leaves the memory as it found it. *)
Lemma generate_incoming_stream_st_spec (n seed : N) (memory : gmap nat engine) :
  generate_incoming_stream_st n seed memory
  = (generate_incoming_stream n seed, memory).
Proof.
  unfold generate_incoming_stream_st, generate_incoming_stream, new_engine.
  assert (memory !! fresh (dom memory) = None) as Hfresh.
  { apply not_elem_of_dom, is_fresh. }
  destruct (reserve n) as [e|].
  - by rewrite delete_insert_id.
  - destruct (generate_loop_st_spec (N.to_nat n) (fresh (dom memory))
                (mt19937 seed) [] (<[fresh (dom memory) := mt19937 seed]> memory))
      as [g' Hloop].
    { apply lookup_insert_eq. }
    rewrite Hloop, insert_insert_eq. by rewrite delete_insert_id.
Qed.

End generator.

Lemma lcg_stdlib_laws : StdLibLaws lcg_stdlib.
Proof.
  constructor. intros a b g Hab. simpl.
  pose proof (Z.mod_pos_bound
                (Z.of_N (((g * 1103515245 + 12345) mod 2 ^ 31) / 65536))
                (b - a + 1)) as H.
  lia.
Qed.

Example generate_incoming_stream_demo :
  @generate_incoming_stream lcg_stdlib 6 42
  = inr ["MSFT"; "USDCHF"; "GLD"; "ZB"; "ETHUSD"; "DIA"].
Proof. vm_compute. reflexivity. Qed.

(** C8, refuted as stated: for a count above [max_size()] no sequence is
    produced; [reserve] throws [std::length_error], whether the engine is
    a value or an object in memory. *)
Lemma generate_incoming_stream_throws_past_max_size :
  vector_max_size (StdLib := lcg_stdlib) < SIZE_MOD - 1 ∧
  @generate_incoming_stream lcg_stdlib (SIZE_MOD - 1) 42 = inl LengthError ∧
  fst (@generate_incoming_stream_st lcg_stdlib (SIZE_MOD - 1) 42 ∅)
  = inl LengthError.
Proof.
  split; [reflexivity|].
  rewrite generate_incoming_stream_st_spec. split; reflexivity.
Qed.

(** C8 (reproducibility), as the code has it. A call of
    [generate_incoming_stream] builds its engine from the seed and leaves
    the memory as it found it, so its result depends on the count and the
    seed alone: a second call after the first, and a call with other
    engines in memory, give the result of the first. When [reserve]
    returns, the two calls give two streams of [n] elements, equal element
    by element, every element a symbol of the catalogue; when [reserve]
    throws, both calls throw that exception. *)
Theorem generate_incoming_stream_reproducible
    (L : StdLib) (laws : StdLibLaws L) (n seed : N)
    (memory elsewhere : gmap nat engine) :
  let first_call := generate_incoming_stream_st n seed memory in
  let second_call := generate_incoming_stream_st n seed (snd first_call) in
  let other_call := generate_incoming_stream_st n seed elsewhere in
  (reserve n = None →
     ∃ first_run second_run,
       fst first_call = inr first_run ∧
       fst second_call = inr second_run ∧
       length first_run = N.to_nat n ∧
       length second_run = N.to_nat n ∧
       (∀ i : nat, first_run !! i = second_run !! i) ∧
       Forall (fun s => s ∈ SYMBOL_POOL) first_run ∧
       Forall (fun s => s ∈ SYMBOL_POOL) second_run) ∧
  (∀ e, reserve n = Some e →
     fst first_call = inl e ∧ fst second_call = inl e) ∧
  fst second_call = fst first_call ∧
  fst other_call = fst first_call ∧
  fst first_call = generate_incoming_stream n seed ∧
  snd first_call = memory.
Proof.
  intros first_call second_call other_call.
  assert (first_call = (generate_incoming_stream n seed, memory)) as H1.
  { apply generate_incoming_stream_st_spec. }
  assert (second_call = (generate_incoming_stream n seed, memory)) as H2.
  { unfold second_call. rewrite H1. apply generate_incoming_stream_st_spec. }
  assert (other_call = (generate_incoming_stream n seed, elsewhere)) as H3.
  { apply generate_incoming_stream_st_spec. }
  rewrite H1, H2, H3. cbn [fst snd]. split_and!; try reflexivity.
  - intros Hres.
    pose proof (generate_incoming_stream_returns n seed Hres) as Hgen.
    exists (generate_loop (N.to_nat n) (mt19937 seed) []),
           (generate_loop (N.to_nat n) (mt19937 seed) []).
    split_and!; try done.
    + by rewrite generate_loop_length.
    + by rewrite generate_loop_length.
    + apply generate_loop_in_pool. constructor.
    + apply generate_loop_in_pool. constructor.
  - intros e He. by rewrite (generate_incoming_stream_throws n seed e He).
Qed.

Lemma generate_incoming_stream_reproducible_witness :
  ∃ first_run second_run,
    fst (@generate_incoming_stream_st lcg_stdlib 6 42 {[ 0%nat := 7 ]})
    = inr first_run ∧
    fst (@generate_incoming_stream_st lcg_stdlib 6 42
           (snd (@generate_incoming_stream_st lcg_stdlib 6 42 {[ 0%nat := 7 ]})))
    = inr second_run ∧
    length first_run = 6%nat ∧
    length second_run = 6%nat ∧
    (∀ i : nat, first_run !! i = second_run !! i) ∧
    Forall (fun s => s ∈ SYMBOL_POOL) first_run ∧
    Forall (fun s => s ∈ SYMBOL_POOL) second_run.
Proof.
  apply (generate_incoming_stream_reproducible lcg_stdlib lcg_stdlib_laws 6 42
           {[ 0%nat := 7 ]} ∅).
  reflexivity.
Defined.

(** The call of the witness, computed: the engine lives beside the one
    already in memory and is gone afterwards. *)
Example generate_incoming_stream_st_demo :
  @generate_incoming_stream_st lcg_stdlib 6 42 {[ 0%nat := 7 ]}
  = (inr ["MSFT"; "USDCHF"; "GLD"; "ZB"; "ETHUSD"; "DIA"], {[ 0%nat := 7 ]}).
Proof.
  rewrite generate_incoming_stream_st_spec. vm_compute. reflexivity.
Qed.

(** ** The driver *)

Section driver.
Context {L : StdLib}.
Implicit Types (tr : list event) (st : bench_state) (incoming : list string).

Lemma started_app tr1 tr2 : started (tr1 ++ tr2) = started tr1 ++ started tr2.
Proof. apply omap_app. Qed.

Lemma diagnostics_app tr1 tr2 :
  diagnostics (tr1 ++ tr2) = diagnostics tr1 ++ diagnostics tr2.
Proof. apply omap_app. Qed.

Lemma started_summary_rows (rs : list FanoutResult) :
  started (map (fun r => Cout (SummaryRow (fanout r) (ms_registry r) (ms_direct r))) rs)
  = [].
Proof. induction rs as [|r rs IH]; [done|]. simpl. apply IH. Qed.

Lemma diagnostics_summary_rows (rs : list FanoutResult) :
  diagnostics
    (map (fun r => Cout (SummaryRow (fanout r) (ms_registry r) (ms_direct r))) rs)
  = [].
Proof. induction rs as [|r rs IH]; [done|]. simpl. apply IH. Qed.

Lemma summary_started st : started (trace (summary st)) = started (st_out st).
Proof.
  unfold summary. cbn [trace].
  rewrite !started_app, started_summary_rows. simpl. by rewrite app_nil_r.
Qed.

Lemma summary_diagnostics st :
  diagnostics (trace (summary st)) = diagnostics (st_out st).
Proof.
  unfold summary. cbn [trace].
  rewrite !diagnostics_app, diagnostics_summary_rows. simpl. by rewrite app_nil_r.
Qed.

(** What the sweep does from a registry that knows the whole workload:
    it ends; it returns 0 after starting every point when all points
    agree; at the first point that disagrees it writes the diagnostic last
    and returns 1, with no later point started. *)
Lemma fanout_sweep_spec (fuel : nat) (target_id : N) (target_string : string)
    incoming (F0 : N) st :
  (∀ s, s ∈ incoming → is_Some (string_to_id_ (st_registry st) !! s)) →
  sweep_exits fuel F0 = true →
  ∃ o, fanout_sweep fuel target_id target_string incoming F0 st = Some o ∧
    (exit_code o = 0 ∨ exit_code o = 1)%Z ∧
    (Forall (fun F => fst (sweep_counts target_id target_string incoming
                             (st_registry st) F)
                      = snd (sweep_counts target_id target_string incoming
                               (st_registry st) F))
            (points_from fuel F0) →
       exit_code o = 0%Z ∧
       started (trace o)
         = started (st_out st) ++ (OneToMany <$> points_from fuel F0) ∧
       diagnostics (trace o) = diagnostics (st_out st)) ∧
    (∀ before F after,
       points_from fuel F0 = before ++ F :: after →
       Forall (fun F => fst (sweep_counts target_id target_string incoming
                               (st_registry st) F)
                        = snd (sweep_counts target_id target_string incoming
                                 (st_registry st) F)) before →
       fst (sweep_counts target_id target_string incoming (st_registry st) F)
       ≠ snd (sweep_counts target_id target_string incoming (st_registry st) F) →
       exit_code o = 1%Z ∧
       started (trace o) = started (st_out st) ++ (OneToMany <$> before ++ [F]) ∧
       diagnostics (trace o)
         = diagnostics (st_out st)
           ++ [(OneToMany F,
                fst (sweep_counts target_id target_string incoming
                       (st_registry st) F),
                snd (sweep_counts target_id target_string incoming
                       (st_registry st) F))] ∧
       last (trace o)
         = Some (Cerr (OneToMany F)
                   (fst (sweep_counts target_id target_string incoming
                           (st_registry st) F))
                   (snd (sweep_counts target_id target_string incoming
                           (st_registry st) F)))).
Proof.
  revert F0 st. induction fuel as [|fuel IH]; intros F0 st Hknown Hexit;
    [done|].
  cbn [sweep_exits points_from fanout_sweep] in *.
  destruct (F0 <=? 1024) eqn:Hle.
  2:{ exists (summary st). split_and!; [done|by left| |].
      - intros _. rewrite summary_started, summary_diagnostics.
        by rewrite app_nil_r.
      - intros [|??] ?? Heq; discriminate Heq. }
  pose proof (register_all_known _ _ Hknown) as Hsame.
  destruct (warm_registry_1tomany F0 target_id incoming (st_sink st) (st_registry st))
    as [sink1 r1] eqn:Ewarm.
  assert (r1 = st_registry st) as ->.
  { pose proof (warm_registry_1tomany_registry F0 target_id incoming
                  (st_sink st) (st_registry st)) as H.
    rewrite Ewarm, Hsame in H. done. }
  destruct (registry_1tomany F0 target_id incoming 0 (st_registry st))
    as [matches_c r2] eqn:Ereg.
  assert (r2 = st_registry st) as ->.
  { pose proof (registry_1tomany_registry F0 target_id incoming 0
                  (st_registry st)) as H.
    rewrite Ereg, Hsame in H. done. }
  assert (sweep_counts target_id target_string incoming (st_registry st) F0
          = (matches_c, direct_1tomany F0 target_string incoming 0))
    as HcF0 by (unfold sweep_counts; by rewrite Ereg).
  destruct (N.eqb_spec matches_c (direct_1tomany F0 target_string incoming 0))
    as [Heq|Hne]; cbn [negb].
  - (* this point agrees: the loop goes on *)
    match goal with
    | |- ∃ o, fanout_sweep fuel _ _ _ ?F' ?st' = Some o ∧ _ =>
        destruct (IH F' st' Hknown Hexit) as (o & Ho & Hcode & Hall & Hfirst)
    end.
    cbn [st_registry st_out] in Hall, Hfirst.
    exists o. split_and!; [done|done| |].
    + intros [_ Hrest]%Forall_cons. destruct (Hall Hrest) as (? & Hst & Hdi).
      split_and!; [done| |].
      * rewrite Hst. unfold print_table_row, print_speedup.
        rewrite !started_app. simpl. rewrite !app_nil_r.
        by rewrite <- app_assoc.
      * rewrite Hdi. unfold print_table_row, print_speedup.
        rewrite !diagnostics_app. simpl. by rewrite !app_nil_r.
    + intros before F after Hpts Hbefore HF.
      destruct before as [|F1 before].
      { simpl in Hpts. injection Hpts as <- _. rewrite HcF0 in HF. done. }
      simpl in Hpts. injection Hpts as <- Hpts.
      apply Forall_cons in Hbefore as [_ Hbefore].
      destruct (Hfirst before F after Hpts Hbefore HF) as (? & Hst & Hdi & Hlast).
      split_and!; [done| | |done].
      * rewrite Hst. unfold print_table_row, print_speedup.
        rewrite !started_app. simpl. rewrite !app_nil_r.
        by rewrite <- app_assoc.
      * rewrite Hdi. unfold print_table_row, print_speedup.
        rewrite !diagnostics_app. simpl. by rewrite !app_nil_r.
  - (* this point disagrees: diagnostic and [return 1] *)
    eexists. split; [reflexivity|]. cbn [exit_code trace].
    split_and!; [by right| |].
    + intros [Hagree _]%Forall_cons. rewrite HcF0 in Hagree. done.
    + intros before F after Hpts Hbefore HF.
      destruct before as [|F1 before].
      2:{ simpl in Hpts. injection Hpts as <- _.
          apply Forall_cons in Hbefore as [Hagree _].
          rewrite HcF0 in Hagree. done. }
      simpl in Hpts. injection Hpts as <- _. rewrite HcF0. cbn [fst snd].
      split_and!; [done| | |].
      * rewrite !started_app. simpl. by rewrite !app_nil_r.
      * rewrite !diagnostics_app. simpl. by rewrite !app_nil_r.
      * by rewrite last_snoc.
Qed.

End driver.

Section benchmark_facts.
Context {L : StdLib}.
Implicit Types (incoming : list string) (sc : scenario).

(** A list on which a decidable property fails somewhere has a first
    element where it fails. *)
Lemma first_failure {A : Type} (P : A → Prop) (l : list A) :
  (∀ x, Decision (P x)) → ¬ Forall P l →
  ∃ before x after, l = before ++ x :: after ∧ Forall P before ∧ ¬ P x.
Proof.
  intros Hdec. induction l as [|y l IH]; intros Hnot.
  - destruct Hnot. constructor.
  - destruct (Hdec y) as [Hy|Hy].
    + destruct IH as (before & x & after & -> & Hb & Hx).
      { intros Hl. apply Hnot. by constructor. }
      exists (y :: before), x, after. split_and!; [done|by constructor|done].
    + exists [], y, l. split_and!; [done|constructor|done].
Qed.

Lemma sweep_points_from : points_from SWEEP_FUEL 8 = sweep_points.
Proof. reflexivity. Qed.

Lemma sweep_exits_from : sweep_exits SWEEP_FUEL 8 = true.
Proof. reflexivity. Qed.

(** The sweep of [main] visits its eight points with less than the fuel
    it is given: more fuel changes nothing. *)
Lemma sweep_exits_more (fuel : nat) (F0 : N) :
  sweep_exits fuel F0 = true →
  sweep_exits (S fuel) F0 = true ∧ points_from (S fuel) F0 = points_from fuel F0.
Proof.
  revert F0. induction fuel as [|fuel IH]; intros F0 H; [done|].
  cbn [sweep_exits points_from] in *.
  destruct (F0 <=? 1024); [|done].
  destruct (IH _ H) as [H1 H2].
  cbn [sweep_exits points_from] in H1, H2. by rewrite H1, H2.
Qed.

(** What [main] does after the stream is generated. *)
Lemma benchmark_spec (ITERATIONS : N) incoming :
  ∃ o, benchmark ITERATIONS incoming = Some o ∧
    (exit_code o = 0 ∨ exit_code o = 1)%Z ∧
    (Forall (agree incoming) scenarios →
       exit_code o = 0%Z ∧
       started (trace o) = scenarios ∧
       diagnostics (trace o) = []) ∧
    (∀ before sc after,
       scenarios = before ++ sc :: after →
       Forall (agree incoming) before →
       ¬ agree incoming sc →
       exit_code o = 1%Z ∧
       started (trace o) = before ++ [sc] ∧
       diagnostics (trace o)
         = [(sc, fst (scenario_counts incoming sc),
                 snd (scenario_counts incoming sc))] ∧
       last (trace o)
         = Some (Cerr sc (fst (scenario_counts incoming sc))
                         (snd (scenario_counts incoming sc)))).
Proof.
  unfold benchmark, agree, scenario_counts, warmed_registry.
  destruct (get_id "BTCUSD" (register_all SYMBOL_POOL empty_registry))
    as [target_id r].
  cbv beta iota.
  destruct (warm_registry_1to1 target_id incoming 0 r) as [sink1 rw] eqn:Ewarm.
  assert (rw = register_all incoming r) as Hrw.
  { pose proof (warm_registry_1to1_registry target_id incoming 0 r) as H.
    by rewrite Ewarm in H. }
  rewrite <- Hrw.
  assert (∀ s, s ∈ incoming → is_Some (string_to_id_ rw !! s)) as Hknown.
  { intros s Hs. rewrite Hrw. by apply register_all_registered. }
  destruct (registry_1to1 target_id incoming 0 rw) as [matches_a r1] eqn:Ereg.
  assert (r1 = rw) as ->.
  { pose proof (registry_1to1_registry target_id incoming 0 rw) as H.
    rewrite Ereg, (register_all_known _ _ Hknown) in H. done. }
  cbn [fst snd].
  destruct (N.eqb_spec matches_a (direct_1to1 "BTCUSD" incoming 0)) as [Heq|Hne];
    cbn [negb].
  - (* the 1-to-1 counts agree: the sweep runs *)
    match goal with
    | |- ∃ o, fanout_sweep _ _ _ _ _ ?st' = Some o ∧ _ =>
        destruct (fanout_sweep_spec SWEEP_FUEL target_id "BTCUSD" incoming 8 st'
                    Hknown sweep_exits_from)
          as (o & Ho & Hcode & Hall & Hfirst)
    end.
    rewrite sweep_points_from in Hall, Hfirst.
    cbn [st_registry st_out] in Hall, Hfirst.
    exists o. split_and!; [done|done| |].
    + unfold scenarios. intros [_ Hrest]%Forall_cons.
      apply Forall_fmap in Hrest.
      destruct (Hall Hrest) as (? & Hst & Hdi). split_and!; [done| |].
      * rewrite Hst. reflexivity.
      * rewrite Hdi. reflexivity.
    + unfold scenarios. intros before sc after Hsc Hbefore Hsc_ne.
      destruct before as [|sc1 before].
      { simpl in Hsc. injection Hsc as <- _. cbn [fst snd] in Hsc_ne. done. }
      rewrite <- app_comm_cons in Hsc. injection Hsc as <- Hsc.
      change (OneToMany <$> sweep_points = before ++ sc :: after) in Hsc.
      apply Forall_cons in Hbefore as [_ Hbefore].
      apply fmap_app_inv in Hsc as (pb & pa & -> & Hpa & Hpts).
      destruct pa as [|F pa]; [done|]. simpl in Hpa. injection Hpa as -> ->.
      apply Forall_fmap in Hbefore.
      destruct (Hfirst pb F pa Hpts Hbefore Hsc_ne) as (? & Hst & Hdi & Hlast).
      split_and!; [done| | |done].
      * rewrite Hst. rewrite fmap_app. reflexivity.
      * rewrite Hdi. reflexivity.
  - (* the 1-to-1 counts differ: diagnostic and [return 1] *)
    eexists. split; [reflexivity|]. cbn [exit_code trace].
    split_and!; [by right| |].
    + unfold scenarios. intros [Hagree _]%Forall_cons.
      cbn [fst snd] in Hagree. done.
    + unfold scenarios. intros before sc after Hsc Hbefore Hsc_ne.
      destruct before as [|sc1 before].
      2:{ simpl in Hsc. injection Hsc as <- _.
          apply Forall_cons in Hbefore as [Hagree _].
          cbn [fst snd] in Hagree. done. }
      simpl in Hsc. injection Hsc as <- _. cbn [fst snd].
      split_and!; [done|reflexivity|reflexivity|].
      by rewrite last_snoc.
Qed.

End benchmark_facts.

(** C7, refuted as stated: with the argument -1 the iteration count is
    [2^64 - 1], [reserve] throws [std::length_error] and the process is
    aborted. No scenario was started and no counts differ, yet the status
    is not 0; nor is it 1. *)
Lemma main_aborts_past_max_size :
  parse_iterations ["string-interning"; "-1"] = SIZE_MOD - 1 ∧
  @reserve lcg_stdlib (SIZE_MOD - 1) = Some LengthError ∧
  ∃ o, @main lcg_stdlib ["string-interning"; "-1"] = Some o ∧
       exit_code o = ABORTED ∧
       exit_code o ≠ 0%Z ∧
       exit_code o ≠ 1%Z ∧
       started (trace o) = [] ∧
       diagnostics (trace o) = [].
Proof.
  split_and!; [reflexivity|reflexivity|].
  eexists. split; [vm_compute; reflexivity|].
  cbn [exit_code trace]. split_and!; [reflexivity|done|done|reflexivity|reflexivity].
Qed.

(** C7 (exit code and diagnostic), as the code has it. When [reserve]
    throws, [main] is aborted after the banner: the status is that of
    [std::abort], no scenario was started and no diagnostic written. When
    [reserve] returns, [main] is the benchmark on the generated stream.
    On every stream the benchmark ends. Its exit code is 0 or 1, and it is
    0 exactly when the two counts of every scenario agree; then every
    scenario was started and nothing was written to [std::cerr]. When a
    scenario is the first whose counts differ, the exit code is 1, the one
    diagnostic names that scenario and the two counts and is the last
    thing written, and no later scenario was started. *)
Theorem exit_code_reports_agreement
    (L : StdLib) (argv : list string) (ITERATIONS : N) (incoming : list string) :
  (∀ e, reserve (parse_iterations argv) = Some e →
     generate_incoming_stream (parse_iterations argv) 42 = inl e ∧
     ∃ o, main argv = Some o ∧
          exit_code o = ABORTED ∧
          trace o = [Cout (Banner (parse_iterations argv)
                             (N.of_nat (length SYMBOL_POOL)))] ∧
          started (trace o) = [] ∧
          diagnostics (trace o) = []) ∧
  (reserve (parse_iterations argv) = None →
     ∃ stream,
       generate_incoming_stream (parse_iterations argv) 42 = inr stream ∧
       main argv = benchmark (parse_iterations argv) stream) ∧
  ∃ o, benchmark ITERATIONS incoming = Some o ∧
    (exit_code o = 0 ∨ exit_code o = 1)%Z ∧
    (exit_code o = 0%Z ↔ Forall (agree incoming) scenarios) ∧
    (exit_code o = 0%Z →
       started (trace o) = scenarios ∧ diagnostics (trace o) = []) ∧
    (∀ before sc after,
       scenarios = before ++ sc :: after →
       Forall (agree incoming) before →
       ¬ agree incoming sc →
       exit_code o = 1%Z ∧
       started (trace o) = before ++ [sc] ∧
       diagnostics (trace o)
         = [(sc, fst (scenario_counts incoming sc),
                 snd (scenario_counts incoming sc))] ∧
       last (trace o)
         = Some (Cerr sc (fst (scenario_counts incoming sc))
                         (snd (scenario_counts incoming sc)))).
Proof.
  split_and!.
  - intros e He. unfold main, generate_incoming_stream. rewrite He.
    split; [reflexivity|]. eexists. split; [reflexivity|].
    cbn [exit_code trace]. split_and!; reflexivity.
  - intros Hres. unfold main, generate_incoming_stream. rewrite Hres.
    eexists. split; reflexivity.
  - destruct (benchmark_spec ITERATIONS incoming)
      as (o & Ho & Hcode & Hall & Hfirst).
    assert (exit_code o = 0%Z → Forall (agree incoming) scenarios) as Hzero.
    { intros H0.
      destruct (decide (Forall (agree incoming) scenarios)) as [|Hnot]; [done|].
      apply (first_failure _ _ (agree_dec incoming)) in Hnot
        as (before & sc & after & Hsc & Hb & Hne).
      destruct (Hfirst before sc after Hsc Hb Hne) as [H1 _]. congruence. }
    exists o. split_and!; [done|done| |intros H0; by apply Hall, Hzero|done].
    split; [done|]. intros Hagree. by apply Hall.
Qed.
(** ** Runs of [main] *)

Section runs.
Context {L : StdLib}.

(** Workloads made of registered symbols keep the prepared registry, and
    every scenario agrees on them. *)
Lemma pool_workload_agrees (incoming : list string) :
  Forall (fun s => s ∈ SYMBOL_POOL) incoming →
  Forall (agree incoming) scenarios.
Proof.
  intros Hpool. rewrite Forall_forall in Hpool.
  destruct prepared_registry as (Htid & Hvec & Ht & Hr).
  cbv zeta in Hvec, Ht, Hr.
  assert (∀ sc, agree incoming sc) as Hagree; [|by apply Forall_forall].
  intros sc. unfold agree, scenario_counts, warmed_registry.
  destruct (get_id "BTCUSD" (register_all SYMBOL_POOL empty_registry))
    as [target_id r].
  cbn [fst snd] in *. subst target_id.
  assert (register_all incoming r = r) as Hsame.
  { apply register_all_known. intros s Hs.
    apply (consistent_seen_iff _ _ Hr). rewrite Hvec. by apply Hpool. }
  rewrite Hsame.
  assert (within_uint32 (register_all incoming r)) as Hb.
  { rewrite Hsame. unfold within_uint32. rewrite Hvec.
    apply N.leb_le. reflexivity. }
  destruct sc as [|F]; cbn [fst snd]; unfold sweep_counts; cbn [fst snd].
  - by apply registry_1to1_direct.
  - by apply registry_1tomany_direct.
Qed.

(** With a standard library that keeps its promise, [main] returns 0
    whenever [reserve] returns. *)
Lemma main_returns_0 (laws : StdLibLaws L) (argv : list string) :
  reserve (parse_iterations argv) = None →
  ∃ o, main argv = Some o ∧ exit_code o = 0%Z ∧
       started (trace o) = scenarios ∧ diagnostics (trace o) = [].
Proof.
  intros Hres. unfold main.
  rewrite (generate_incoming_stream_returns _ 42 Hres).
  set (incoming := generate_loop _ _ _).
  destruct (benchmark_spec (parse_iterations argv) incoming)
    as (o & Ho & _ & Hall & _).
  exists o. split; [done|]. apply Hall, pool_workload_agrees.
  unfold incoming. apply generate_loop_in_pool. constructor.
Qed.

(** The registry path counts the same from a registry that already holds
    what the calls will add. *)
Lemma registry_1tomany_warmed F target_id (incoming : list string) m r rf :
  (∀ s i, string_to_id_ (register_all incoming r) !! s = Some i →
          string_to_id_ rf !! s = Some i) →
  fst (registry_1tomany F target_id incoming m r)
  = fst (registry_1tomany F target_id incoming m rf).
Proof.
  revert m r. induction incoming as [|s incoming IH]; intros m r Hsub; [done|].
  simpl in *. destruct (get_id s r) as [i r1] eqn:E.
  assert (string_to_id_ rf !! s = Some i) as Hi.
  { apply Hsub, register_all_mono.
    pose proof (get_id_lookup r s) as H. by rewrite E in H. }
  rewrite (get_id_seen _ _ _ Hi). by apply IH.
Qed.

(** The diagnostic branch can be taken: on the workload that wraps onto
    the target's identifier the 1-to-1 check fails and the benchmark
    returns 1. *)
Lemma benchmark_returns_1_at (ITERATIONS : N) (n : nat) :
  N.of_nat n = UINT32_MOD - 5 →
  ∃ o, benchmark ITERATIONS (binary_symbols (S n)) = Some o ∧
       exit_code o = 1%Z ∧
       started (trace o) = [OneToOne] ∧
       diagnostics (trace o) = [(OneToOne, 1, 0)].
Proof.
  intros Hn. set (incoming := binary_symbols (S n)).
  destruct (cross_path_fails_at n Hn) as [Hreg Hdir]. cbv zeta in Hreg, Hdir.
  fold incoming in Hreg, Hdir.
  assert (scenario_counts incoming OneToOne = (1, 0)) as Hcounts.
  { unfold scenario_counts, warmed_registry.
    destruct (get_id "BTCUSD" (register_all SYMBOL_POOL empty_registry))
      as [target_id r].
    cbn [fst snd] in *. f_equal.
    - rewrite registry_1to1_fanout_1.
      by rewrite <- (registry_1tomany_warmed 1 target_id incoming 0 r).
    - by rewrite direct_1to1_fanout_1. }
  destruct (benchmark_spec ITERATIONS incoming) as (o & Ho & _ & _ & Hfirst).
  destruct (Hfirst [] OneToOne (OneToMany <$> sweep_points)) as (H1 & H2 & H3 & _).
  - reflexivity.
  - constructor.
  - unfold agree. rewrite Hcounts. discriminate.
  - exists o. rewrite Hcounts in H3.
    split_and!; [exact Ho|exact H1|exact H2|exact H3].
Qed.

Lemma benchmark_returns_1 :
  ∃ o, benchmark (UINT32_MOD - 4)
         (binary_symbols (S (N.to_nat (UINT32_MOD - 5)))) = Some o ∧
       exit_code o = 1%Z ∧
       started (trace o) = [OneToOne] ∧
       diagnostics (trace o) = [(OneToOne, 1, 0)].
Proof.
  exact (benchmark_returns_1_at (UINT32_MOD - 4) (N.to_nat (UINT32_MOD - 5))
           (N2Nat.id (UINT32_MOD - 5))).
Qed.

Lemma digits_value_none (s : string) :
  match s with String c _ => isdigit c | EmptyString => false end = false →
  digits_value 0 s = 0%Z.
Proof. destruct s as [|c s]; simpl; [done|]. by intros ->. Qed.

Lemma atoll_not_numeric (arg : string) : numeric arg = false → atoll arg = 0%Z.
Proof.
  unfold numeric, atoll.
  destruct (strip_sign (skip_spaces arg)) as [negative digits].
  intros H%digits_value_none. rewrite H. by destruct negative.
Qed.

End runs.

(** C6, refuted as stated: an argument without a number gives the
    iteration count 0, not the default. *)
Lemma non_numeric_argument_is_zero :
  numeric "abc" = false ∧
  parse_iterations ["string-interning"; "abc"] = 0 ∧
  parse_iterations ["string-interning"; "abc"] ≠ DEFAULT_ITERATIONS.
Proof. vm_compute. split_and!; [reflexivity|reflexivity|discriminate]. Qed.

(** C6 (iteration count), as the code has it. Without an argument the
    count is 10,000,000. With an argument in which [atoll] finds no
    number the count is 0, and [main] goes on as the benchmark of an empty
    stream. *)
Theorem parse_iterations_default_or_zero
    (L : StdLib) (prog arg : string) (rest : list string) :
  numeric arg = false →
  parse_iterations [] = 10000000 ∧
  parse_iterations [prog] = 10000000 ∧
  parse_iterations (prog :: arg :: rest) = 0 ∧
  main (prog :: arg :: rest) = benchmark 0 [].
Proof.
  intros Hnum.
  assert (parse_iterations (prog :: arg :: rest) = 0) as Hzero.
  { cbn [parse_iterations]. by rewrite (atoll_not_numeric _ Hnum). }
  split_and!; [reflexivity|reflexivity|done|].
  unfold main. rewrite Hzero, generate_incoming_stream_0. reflexivity.
Qed.

Lemma parse_iterations_default_or_zero_witness :
  parse_iterations [] = 10000000 ∧
  parse_iterations ["string-interning"] = 10000000 ∧
  parse_iterations ["string-interning"; "abc"] = 0 ∧
  @main lcg_stdlib ["string-interning"; "abc"] = @benchmark lcg_stdlib 0 [].
Proof.
  apply (parse_iterations_default_or_zero lcg_stdlib "string-interning" "abc" []).
  reflexivity.
Defined.

(** C10 (zero iterations). With an iteration count of 0 the generator
    returns the empty stream, both counts of every scenario are 0, and
    [main] runs all nine scenarios, reports 0 matches in each of the
    eighteen table rows, writes no diagnostic and returns 0. *)
Theorem zero_iterations_run (L : StdLib) (argv : list string) (seed : N) :
  parse_iterations argv = 0 →
  generate_incoming_stream 0 seed = inr [] ∧
  Forall (fun sc => scenario_counts [] sc = (0, 0)) scenarios ∧
  ∃ o, main argv = Some o ∧
       exit_code o = 0%Z ∧
       started (trace o) = scenarios ∧
       row_matches (trace o) = replicate 18 0 ∧
       diagnostics (trace o) = [].
Proof.
  intros Hzero. split_and!.
  - apply generate_incoming_stream_0.
  - vm_compute. repeat constructor.
  - unfold main. rewrite Hzero, generate_incoming_stream_0.
    destruct (benchmark 0 []) as [o|] eqn:E; vm_compute in E; [|discriminate E].
    injection E as <-. eexists. split; [reflexivity|].
    cbn [exit_code trace]. split_and!; reflexivity.
Qed.

Lemma zero_iterations_run_witness :
  @generate_incoming_stream lcg_stdlib 0 42 = inr [] ∧
  Forall (fun sc => scenario_counts [] sc = (0, 0)) scenarios ∧
  ∃ o, @main lcg_stdlib ["string-interning"; "abc"] = Some o ∧
       exit_code o = 0%Z ∧
       started (trace o) = scenarios ∧
       row_matches (trace o) = replicate 18 0 ∧
       diagnostics (trace o) = [].
Proof.
  apply (zero_iterations_run lcg_stdlib ["string-interning"; "abc"] 42).
  vm_compute. reflexivity.
Defined.

(** ** Concurrent callers of [get_id] *)

(** *** Every statement is progress *)

Lemma sum_list_insert (f : caller → nat) (cs : list caller) (i : nat)
    (c c' : caller) :
  cs !! i = Some c →
  (sum_list (f <$> <[i := c']> cs) + f c = sum_list (f <$> cs) + f c')%nat.
Proof.
  revert i. induction cs as [|x cs IH]; intros [|i] Hc; try done.
  - injection Hc as ->. cbn. lia.
  - specialize (IH i Hc). cbn. rewrite <- !Nat.add_assoc. f_equal. exact IH.
Qed.

Lemma caller_step_remaining (c c' : caller) (locked locked' : bool)
    (r r' : SymbolRegistry) :
  caller_step c locked r = Some (c', locked', r') →
  (remaining c' < remaining c)%nat.
Proof.
  destruct c; simpl; try destruct locked; try destruct (string_to_id_ r !! _);
    intros [= <- <- <-]; simpl; lia.
Qed.

Lemma step_work (i : nat) (w w' : world) :
  step i w = Some w' → (work w' < work w)%nat.
Proof.
  unfold step, work. destruct (w_callers w !! i) as [c|] eqn:Hc; [|done].
  destruct (caller_step c (w_mtx w) (w_registry w)) as [[[c' locked] r]|] eqn:Hs;
    [|done].
  intros [= <-]. simpl.
  pose proof (sum_list_insert remaining _ i c c' Hc).
  pose proof (caller_step_remaining _ _ _ _ _ _ Hs). lia.
Qed.

Lemma run_work (schedule : list nat) (w w' : world) :
  run schedule w = Some w' → (length schedule + work w' ≤ work w)%nat.
Proof.
  revert w. induction schedule as [|i schedule IH]; intros w Hrun; simpl in *.
  - injection Hrun as ->. lia.
  - destruct (step i w) as [w1|] eqn:Hstep; [|done].
    pose proof (step_work _ _ _ Hstep). specialize (IH _ Hrun). lia.
Qed.

Lemma work_initial (r : SymbolRegistry) (symbols : list string) :
  work (initial_world r symbols) = (6 * length symbols)%nat.
Proof.
  unfold work, initial_world. cbn [w_callers].
  induction symbols as [|s symbols IH]; [done|].
  rewrite !fmap_cons, length_cons. cbn [sum_list remaining]. rewrite IH.
  unfold id. lia.
Qed.

(** *** Counting the assignments of a run *)

(** A caller is about to append exactly when its last statement was the
    assignment. *)
Lemma caller_step_appends (c c' : caller) (locked locked' : bool)
    (r r' : SymbolRegistry) :
  caller_step c locked r = Some (c', locked', r') →
  appends c' = assigns c ∧
  length (id_to_string_ r') = (length (id_to_string_ r) + appends c)%nat.
Proof.
  destruct c; simpl; try destruct locked; try destruct (string_to_id_ r !! _);
    intros [= <- <- <-]; simpl; rewrite ?length_app; simpl; lia.
Qed.

Lemma run_counts (schedule : list nat) (w w' : world) :
  run schedule w = Some w' →
  (executed assigns schedule w + sum_list (appends <$> w_callers w)
   = executed appends schedule w + sum_list (appends <$> w_callers w'))%nat ∧
  length (id_to_string_ (w_registry w'))
  = (length (id_to_string_ (w_registry w)) + executed appends schedule w)%nat.
Proof.
  revert w. induction schedule as [|i schedule IH]; intros w Hrun; simpl in *.
  - injection Hrun as ->. lia.
  - destruct (step i w) as [w1|] eqn:Hstep; [|done].
    destruct (IH _ Hrun) as [IH1 IH2]. clear IH.
    unfold step in Hstep.
    destruct (w_callers w !! i) as [c|] eqn:Hc; [|done].
    destruct (caller_step c (w_mtx w) (w_registry w)) as [[[c' locked] r]|] eqn:Hs;
      [|done].
    injection Hstep as <-. simpl in *.
    destruct (caller_step_appends _ _ _ _ _ _ Hs) as [Happ Hlen].
    pose proof (sum_list_insert appends _ i c c' Hc). lia.
Qed.

(** The same count for the calls that present one symbol [s]: what the
    schedule appends for [s] is what the reverse table gains in [s]. *)
Lemma caller_step_appends_of (s : string) (c c' : caller)
    (locked locked' : bool) (r r' : SymbolRegistry) :
  caller_step c locked r = Some (c', locked', r') →
  appends_of s c' = assigns_of s c ∧
  length (filter (fun x => x = s) (id_to_string_ r'))
  = (length (filter (fun x => x = s) (id_to_string_ r)) + appends_of s c)%nat.
Proof.
  destruct c as [x|x|x|x i|x i|x i|x i]; simpl; try destruct locked;
    try destruct (string_to_id_ r !! _);
    intros [= <- <- <-]; simpl;
    rewrite ?filter_app, ?length_app, ?filter_cons, ?filter_nil;
    try destruct (decide (x = s)); simpl; lia.
Qed.

Lemma run_counts_of (s : string) (schedule : list nat) (w w' : world) :
  run schedule w = Some w' →
  (executed (assigns_of s) schedule w + sum_list (appends_of s <$> w_callers w)
   = executed (appends_of s) schedule w
     + sum_list (appends_of s <$> w_callers w'))%nat ∧
  length (filter (fun x => x = s) (id_to_string_ (w_registry w')))
  = (length (filter (fun x => x = s) (id_to_string_ (w_registry w)))
     + executed (appends_of s) schedule w)%nat.
Proof.
  revert w. induction schedule as [|i schedule IH]; intros w Hrun; simpl in *.
  - injection Hrun as ->. lia.
  - destruct (step i w) as [w1|] eqn:Hstep; [|done].
    destruct (IH _ Hrun) as [IH1 IH2]. clear IH.
    unfold step in Hstep.
    destruct (w_callers w !! i) as [c|] eqn:Hc; [|done].
    destruct (caller_step c (w_mtx w) (w_registry w)) as [[[c' locked] r]|] eqn:Hs;
      [|done].
    injection Hstep as <-. simpl in *.
    destruct (caller_step_appends_of s _ _ _ _ _ _ Hs) as [Happ Hlen].
    pose proof (sum_list_insert (appends_of s) _ i c c' Hc). lia.
Qed.

Lemma appends_of_initial (s : string) (r : SymbolRegistry)
    (symbols : list string) :
  sum_list (appends_of s <$> w_callers (initial_world r symbols)) = 0%nat.
Proof.
  cbn [initial_world w_callers].
  induction symbols as [|x symbols IH]; [done|].
  rewrite !fmap_cons. cbn [sum_list appends_of]. by rewrite IH.
Qed.

Lemma appends_of_returned (s : string) (cs : list caller) :
  Forall (fun c => has_returned c = true) cs →
  sum_list (appends_of s <$> cs) = 0%nat.
Proof.
  induction 1 as [|c cs Hc _ IH]; simpl; [done|]. destruct c; simpl in *; done.
Qed.

(** A table without repetition holds a symbol once or not at all. *)
Lemma filter_eq_NoDup (s : string) (l : list string) :
  NoDup l →
  length (filter (fun x => x = s) l) = if decide (s ∈ l) then 1%nat else 0%nat.
Proof.
  induction 1 as [|x l Hx Hnd IH]; [done|].
  rewrite filter_cons. destruct (decide (x = s)) as [->|Hne].
  - rewrite decide_True by (by left). simpl. rewrite IH.
    by rewrite decide_False.
  - rewrite IH. destruct (decide (s ∈ l)) as [Hin|Hnin].
    + rewrite decide_True; [done|by right].
    + rewrite decide_False; [done|].
      intros [?|?]%elem_of_cons; congruence.
Qed.

Lemma appends_initial (r : SymbolRegistry) (symbols : list string) :
  sum_list (appends <$> w_callers (initial_world r symbols)) = 0%nat.
Proof.
  cbn [initial_world w_callers].
  induction symbols as [|s symbols IH]; [done|].
  rewrite !fmap_cons. cbn [sum_list appends]. by rewrite IH.
Qed.

Lemma appends_returned (cs : list caller) :
  Forall (fun c => has_returned c = true) cs →
  sum_list (appends <$> cs) = 0%nat.
Proof.
  induction 1 as [|c cs Hc _ IH]; simpl; [done|]. destruct c; simpl in *; done.
Qed.

Section concurrent.
Variables (r0 : SymbolRegistry) (symbols : list string).
Hypothesis r0_consistent : consistent r0.
Implicit Types (w : world) (c : caller) (i j : nat).

Lemma linearized_consistent r : linearized r0 symbols r → consistent r.
Proof. intros (order & _ & ->). by apply register_all_consistent. Qed.

Lemma linearized_snoc r s :
  linearized r0 symbols r → s ∈ symbols →
  linearized r0 symbols (snd (get_id s r)).
Proof.
  intros (order & Hsub & ->) Hs. exists (order ++ [s]). split.
  - intros s' [?| ->%list_elem_of_singleton]%elem_of_app; auto.
  - by rewrite register_all_snoc.
Qed.

Lemma insert_cases (cs : list caller) i c' j x :
  <[i := c']> cs !! j = Some x →
  (j = i ∧ x = c') ∨ (j ≠ i ∧ cs !! j = Some x).
Proof.
  intros [(-> & -> & _)|[Hne H]]%list_lookup_insert_Some; [by left|right].
  split; [congruence|done].
Qed.

(** While one caller is inside, or the mutex is free, every other caller
    is outside. *)
Lemma others_outside w i c :
  atomic_inv r0 symbols w →
  w_callers w !! i = Some c →
  in_critical_section c = true ∨ w_mtx w = false →
  ∀ j c', j ≠ i → w_callers w !! j = Some c' → in_critical_section c' = false.
Proof.
  intros [_ Howner _] Hc Hin j c' Hne Hc'.
  destruct (w_mtx w).
  - destruct Howner as (i0 & c0 & _ & _ & Huniq).
    destruct Hin as [Hin|]; [|done].
    destruct (in_critical_section c') eqn:E; [|done].
    pose proof (Huniq _ _ Hc Hin). pose proof (Huniq _ _ Hc' E). congruence.
  - apply Howner. by eapply list_elem_of_lookup_2.
Qed.

(** A caller inside the critical section holds the mutex. *)
Lemma inside_holds_mutex w i c :
  atomic_inv r0 symbols w →
  w_callers w !! i = Some c → in_critical_section c = true → w_mtx w = true.
Proof.
  intros [_ Howner _] Hc Hin. destruct (w_mtx w); [done|].
  rewrite Howner in Hin; [done|]. by eapply list_elem_of_lookup_2.
Qed.

(** A caller outside only relies on the entries of the completed calls,
    which later calls keep. *)
Lemma outside_view c rc rc' r r' :
  in_critical_section c = false →
  (∀ s id, string_to_id_ rc !! s = Some id → string_to_id_ rc' !! s = Some id) →
  caller_view c rc r → caller_view c rc' r'.
Proof. destruct c; simpl; try done. intros _ Hmono. apply Hmono. Qed.

Lemma initial_world_inv : atomic_inv r0 symbols (initial_world r0 symbols).
Proof.
  split; simpl.
  - rewrite <- list_fmap_compose. apply list_fmap_id.
  - intros c (s & -> & _)%list_elem_of_fmap. done.
  - exists r0. split_and!; [|done|].
    + exists []. split; [|done]. intros s Hs. by apply elem_of_nil in Hs.
    + intros c (s & -> & _)%list_elem_of_fmap. done.
Qed.

(** One statement of one thread keeps the invariant. *)
Lemma step_inv w w' i :
  atomic_inv r0 symbols w → step i w = Some w' → atomic_inv r0 symbols w'.
Proof.
  intros Hinv Hstep. unfold step in Hstep.
  destruct (w_callers w !! i) as [c|] eqn:Hc; [|done].
  destruct (caller_step c (w_mtx w) (w_registry w)) as [[[c' locked] r]|] eqn:Hcs;
    [|done].
  injection Hstep as <-.
  assert (i < length (w_callers w))%nat as Hi by (by eapply lookup_lt_Some).
  assert (caller_symbol c' = caller_symbol c) as Hsym.
  { destruct c; simpl in Hcs; repeat case_match; by simplify_eq. }
  assert (caller_symbol c ∈ symbols) as Hin_symbols.
  { rewrite <- (inv_symbols _ _ _ Hinv). apply list_elem_of_fmap.
    exists c. split; [done|]. by eapply list_elem_of_lookup_2. }
  assert (in_critical_section c = true ∨ w_mtx w = false) as Hmay.
  { destruct c; simpl in Hcs |- *; auto.
    - destruct (w_mtx w); [done|by right].
    - done. }
  pose proof (others_outside w i c Hinv Hc Hmay) as Hothers.
  destruct (inv_views _ _ _ Hinv) as (rc & Hlin & Hfree & Hviews).
  pose proof (Hviews c (list_elem_of_lookup_2 _ _ _ Hc)) as Hview.
  pose proof (linearized_consistent _ Hlin) as Hrc.
  split; cbn [w_registry w_mtx w_callers].
  - (* the callers keep their symbols *)
    rewrite list_fmap_insert, Hsym, list_insert_id; [apply Hinv|].
    by rewrite list_lookup_fmap, Hc.
  - (* one owner while the mutex is held, none while it is free *)
    assert (∀ j x, <[i := c']> (w_callers w) !! j = Some x →
                   in_critical_section x = true → j = i) as Huniq.
    { intros j x [[-> _]|[Hne Hx]]%insert_cases Hin; [done|].
      by rewrite (Hothers j x Hne Hx) in Hin. }
    assert (locked = in_critical_section c') as ->.
    { destruct c; simpl in Hcs; repeat case_match; simplify_eq; try done;
        simpl; by rewrite (inside_holds_mutex w i _ Hinv Hc eq_refl). }
    destruct (in_critical_section c') eqn:Hin'.
    + exists i, c'. split; [by apply list_lookup_insert_eq|]. split; [done|].
      exact Huniq.
    + intros x [j Hx]%list_elem_of_lookup.
      destruct (in_critical_section x) eqn:E; [|done].
      pose proof (Huniq j x Hx E) as ->.
      rewrite list_lookup_insert_eq in Hx by done. simplify_eq. congruence.
  - (* the views *)
    assert (∀ rc' r',
              linearized r0 symbols rc' →
              (∀ s id, string_to_id_ rc !! s = Some id →
                       string_to_id_ rc' !! s = Some id) →
              (locked = false → r' = rc') →
              caller_view c' rc' r' →
              ∃ rc'', linearized r0 symbols rc'' ∧ (locked = false → r' = rc'') ∧
                ∀ x, x ∈ <[i := c']> (w_callers w) → caller_view x rc'' r')
      as Hclose.
    { intros rc' r' Hlin' Hmono Hfree' Hview'. exists rc'.
      split_and!; [done|done|].
      intros x [j [[-> ->]|[Hne Hx]]%insert_cases]%list_elem_of_lookup; [done|].
      eapply outside_view; [by eapply Hothers|done|].
      apply Hviews. by eapply list_elem_of_lookup_2. }
    assert (in_critical_section c = true → w_mtx w = true) as Hheld
      by (by apply inside_holds_mutex with i).
    destruct c as [s|s|s|s id|s id|s id|s id]; simpl in Hcs, Hview, Hheld.
    + (* acquire *)
      destruct (w_mtx w) eqn:Hm; [done|]. simplify_eq.
      apply (Hclose rc); [done|done|done|]. simpl. by apply Hfree.
    + (* find *)
      rewrite Hview in Hcs.
      destruct (string_to_id_ rc !! s) eqn:E; simplify_eq;
        (eapply Hclose; [exact Hlin|done..]).
    + (* size *)
      destruct Hview as [Hr Hs]. rewrite Hr in Hcs. simplify_eq.
      eapply Hclose; [exact Hlin|done..].
    + (* insert into the forward map *)
      destruct Hview as (Hr & Hs & ->). rewrite Hr in Hcs. simplify_eq.
      eapply Hclose; [exact Hlin|try done..].
      intros Hl. by rewrite (Hheld eq_refl) in Hl.
    + (* append to the reverse table: the call takes effect *)
      destruct Hview as (Hr & Hs & ->). simplify_eq. rewrite Hr. simpl.
      pose proof (get_id_unseen _ _ Hs) as Hget.
      apply (Hclose (snd (get_id s rc))).
      * by apply linearized_snoc.
      * intros s' id'. apply get_id_mono.
      * intros _. by rewrite Hget.
      * simpl. rewrite Hget. simpl. split; [done|]. apply lookup_insert_eq.
    + (* release *)
      destruct Hview as [Hr Hs]. simplify_eq.
      eapply Hclose; [exact Hlin|done..].
    + done.
Qed.

Lemma run_inv schedule w w' :
  atomic_inv r0 symbols w → run schedule w = Some w' → atomic_inv r0 symbols w'.
Proof.
  revert w. induction schedule as [|i schedule IH]; intros w Hinv Hrun; simpl in Hrun.
  - by simplify_eq.
  - destruct (step i w) as [w1|] eqn:Hstep; [|done].
    eapply IH; [|done]. by eapply step_inv.
Qed.

Lemma reachable_inv w :
  reachable (initial_world r0 symbols) w → atomic_inv r0 symbols w.
Proof. intros [schedule Hrun]. eapply run_inv; [apply initial_world_inv|done]. Qed.

(** The forward map of the registry always holds the entries of the
    completed calls. *)
Lemma completed_entries w rc s id :
  atomic_inv r0 symbols w →
  (w_mtx w = false → w_registry w = rc) →
  (∀ c, c ∈ w_callers w → caller_view c rc (w_registry w)) →
  string_to_id_ rc !! s = Some id →
  string_to_id_ (w_registry w) !! s = Some id.
Proof.
  intros [_ Howner _] Hfree Hviews Hs.
  destruct (w_mtx w).
  - destruct Howner as (i & c & Hc & Hin & _).
    pose proof (Hviews c (list_elem_of_lookup_2 _ _ _ Hc)) as Hview.
    destruct c; simpl in Hin, Hview; try done.
    + by rewrite Hview.
    + by rewrite (proj1 Hview).
    + by rewrite (proj1 Hview).
    + destruct Hview as (-> & Hnone & _). simpl.
      rewrite lookup_insert_ne; [done|]. intros ->. congruence.
    + by rewrite (proj1 Hview).
  - by rewrite Hfree.
Qed.

(** Unless every call is over, some thread can move. *)
Lemma no_deadlock w :
  atomic_inv r0 symbols w →
  Forall (fun c => has_returned c = true) (w_callers w) ∨
  ∃ i w', step i w = Some w'.
Proof.
  intros Hinv.
  destruct (decide (Forall (fun c => has_returned c = true) (w_callers w)))
    as [|Hnot]; [by left|right].
  apply not_Forall_Exists in Hnot; [|apply _].
  apply Exists_exists in Hnot as (c & [i Hc]%list_elem_of_lookup & Hc_not).
  pose proof (inv_owner _ _ _ Hinv) as Howner. destruct (w_mtx w) eqn:Hm.
  - destruct Howner as (i0 & c0 & Hc0 & Hin0 & _).
    exists i0. unfold step. rewrite Hc0, Hm.
    destruct c0; simpl in *; try done; try (eexists; reflexivity).
    destruct (string_to_id_ (w_registry w) !! symbol); eexists; reflexivity.
  - exists i. unfold step. rewrite Hc, Hm.
    pose proof (Howner c (list_elem_of_lookup_2 _ _ _ Hc)) as Hout.
    destruct c; simpl in *; try done. eexists; reflexivity.
Qed.

(** When every call has returned the mutex is free. *)
Lemma all_returned_free w :
  atomic_inv r0 symbols w →
  Forall (fun c => has_returned c = true) (w_callers w) →
  w_mtx w = false.
Proof.
  intros Hinv Hdone. pose proof (inv_owner _ _ _ Hinv) as Howner.
  destruct (w_mtx w); [|done].
  destruct Howner as (i & c & Hc & Hin & _).
  rewrite Forall_lookup in Hdone. pose proof (Hdone i c Hc). by destruct c.
Qed.

(** The reverse table of the shared registry is that of the completed
    calls, also in the middle of an update. *)
Lemma reverse_table_completed w rc :
  atomic_inv r0 symbols w →
  (w_mtx w = false → w_registry w = rc) →
  (∀ c, c ∈ w_callers w → caller_view c rc (w_registry w)) →
  id_to_string_ (w_registry w) = id_to_string_ rc.
Proof.
  intros [_ Howner _] Hfree Hviews.
  destruct (w_mtx w).
  - destruct Howner as (i & c & Hc & Hin & _).
    pose proof (Hviews c (list_elem_of_lookup_2 _ _ _ Hc)) as Hview.
    destruct c; simpl in Hin, Hview; try done.
    + by rewrite Hview.
    + by rewrite (proj1 Hview).
    + by rewrite (proj1 Hview).
    + by rewrite (proj1 Hview).
    + by rewrite (proj1 Hview).
  - by rewrite Hfree.
Qed.

(** At every instant a reverse-table entry has its forward-map entry. *)
Lemma reverse_entries w n s :
  atomic_inv r0 symbols w →
  id_to_string_ (w_registry w) !! n = Some s →
  string_to_id_ (w_registry w) !! s = Some (to_uint32 (N.of_nat n)).
Proof.
  intros Hinv Hn.
  destruct (inv_views _ _ _ Hinv) as (rc & Hlin & Hfree & Hviews).
  pose proof (linearized_consistent rc Hlin) as Hrc.
  rewrite (reverse_table_completed w rc Hinv Hfree Hviews) in Hn.
  eapply completed_entries; [done..|].
  apply (consistent_lookup _ Hrc). by exists n.
Qed.

(** A forward-map entry has its reverse-table entry, unless the caller
    that assigned it has not appended yet. *)
Lemma forward_entries w s id :
  atomic_inv r0 symbols w →
  string_to_id_ (w_registry w) !! s = Some id →
  (∃ n : nat, id_to_string_ (w_registry w) !! n = Some s ∧
              id = to_uint32 (N.of_nat n)) ∨
  (w_mtx w = true ∧ Appending s id ∈ w_callers w).
Proof.
  intros Hinv Hs.
  destruct (inv_views _ _ _ Hinv) as (rc & Hlin & Hfree & Hviews).
  pose proof (linearized_consistent rc Hlin) as Hrc.
  pose proof (inv_owner _ _ _ Hinv) as Howner.
  destruct (w_mtx w) eqn:Hm.
  - destruct Howner as (i & c & Hc & Hin & _).
    pose proof (list_elem_of_lookup_2 _ _ _ Hc) as Hc_in.
    pose proof (Hviews c Hc_in) as Hview.
    destruct c as [| | | |s' new_id| |]; simpl in Hin, Hview; try done.
    + left. rewrite Hview in *. by apply (consistent_lookup _ Hrc).
    + left. rewrite (proj1 Hview) in *. by apply (consistent_lookup _ Hrc).
    + left. rewrite (proj1 Hview) in *. by apply (consistent_lookup _ Hrc).
    + destruct Hview as (Hr & Hnone & Hnew). rewrite Hr in *. simpl in *.
      destruct (decide (s = s')) as [->|Hne].
      * rewrite lookup_insert_eq in Hs. injection Hs as <-. by right.
      * rewrite lookup_insert_ne in Hs by done.
        left. by apply (consistent_lookup _ Hrc).
    + left. rewrite (proj1 Hview) in *. by apply (consistent_lookup _ Hrc).
  - left. rewrite (Hfree eq_refl) in *. by apply (consistent_lookup _ Hrc).
Qed.

(** When all calls have returned, the schedule that led there assigned an
    identifier once for each symbol that was new, and never for a symbol
    the registry held. *)
Lemma assignments_of schedule w s :
  run schedule (initial_world r0 symbols) = Some w →
  s ∈ symbols →
  Forall (fun c => has_returned c = true) (w_callers w) →
  executed (assigns_of s) schedule (initial_world r0 symbols)
  = match string_to_id_ r0 !! s with Some _ => 0%nat | None => 1%nat end ∧
  executed (appends_of s) schedule (initial_world r0 symbols)
  = match string_to_id_ r0 !! s with Some _ => 0%nat | None => 1%nat end.
Proof.
  intros Hrun Hs Hdone.
  assert (atomic_inv r0 symbols w) as Hinv.
  { eapply run_inv; [apply initial_world_inv|done]. }
  destruct (inv_views _ _ _ Hinv) as (rc & Hlin & Hfree & Hviews).
  pose proof (linearized_consistent rc Hlin) as Hrc.
  pose proof (all_returned_free w Hinv Hdone) as Hm.
  destruct (run_counts_of s _ _ _ Hrun) as [Hcount Hlen].
  rewrite appends_of_initial, (appends_of_returned _ _ Hdone) in Hcount.
  assert (s ∈ id_to_string_ (w_registry w)) as Hin.
  { rewrite <- (inv_symbols _ _ _ Hinv) in Hs.
    apply list_elem_of_fmap in Hs as (c & -> & Hc).
    rewrite Forall_forall in Hdone. pose proof (Hdone c Hc) as Hr.
    destruct c as [| | | | | |x id]; try done. simpl.
    pose proof (Hviews _ Hc) as Hview. simpl in Hview.
    rewrite (Hfree Hm). apply (consistent_seen_iff _ _ Hrc). eauto. }
  rewrite (filter_eq_NoDup s (id_to_string_ (w_registry w))) in Hlen.
  2:{ rewrite (Hfree Hm). apply (consistent_nodup _ Hrc). }
  rewrite decide_True in Hlen by done.
  cbn [initial_world w_registry] in Hlen.
  rewrite (filter_eq_NoDup s (id_to_string_ r0)) in Hlen
    by apply (consistent_nodup _ r0_consistent).
  pose proof (consistent_seen_iff r0 s r0_consistent) as Hseen.
  destruct (string_to_id_ r0 !! s) as [id|] eqn:E.
  - rewrite decide_True in Hlen by (apply Hseen; eauto). lia.
  - rewrite decide_False in Hlen.
    2:{ intros H%Hseen. by destruct H. }
    lia.
Qed.

(** From any state of the system the calls can be run to the end. *)
Lemma completes w :
  atomic_inv r0 symbols w →
  ∃ rest w', run rest w = Some w' ∧
             Forall (fun c => has_returned c = true) (w_callers w').
Proof.
  remember (work w) as n eqn:Hn. revert w Hn.
  induction n as [n IH] using lt_wf_ind. intros w -> Hinv.
  destruct (no_deadlock w Hinv) as [Hdone|(i & w1 & Hstep)].
  - exists [], w. done.
  - destruct (IH (work w1) (step_work i w w1 Hstep) w1 eq_refl) as (rest & w' & Hrun & Hdone).
    { by eapply step_inv. }
    exists (i :: rest), w'. simpl. by rewrite Hstep.
Qed.

End concurrent.

(** Repeated calls with one symbol are one call. *)
Lemma register_all_same (order : list string) (s : string) (r : SymbolRegistry) :
  (∀ x, x ∈ order → x = s) → order ≠ [] →
  register_all order r = snd (get_id s r).
Proof.
  intros Hall Hne. destruct order as [|x order]; [done|].
  rewrite (Hall x) by (by left). simpl. apply register_all_known.
  intros y Hy. rewrite (Hall y) by (by right).
  eexists. apply get_id_lookup.
Qed.

(** One thread alone, from call to return, does what [get_id] does. *)
Lemma run_alone (s : string) (r : SymbolRegistry) :
  ∃ schedule,
    run schedule (initial_world r [s])
    = Some {| w_registry := snd (get_id s r); w_mtx := false;
              w_callers := [Returned s (fst (get_id s r))] |}.
Proof.
  destruct (string_to_id_ r !! s) as [id|] eqn:E.
  - exists [0; 0; 0]%nat. rewrite (get_id_seen _ _ _ E).
    cbn. rewrite E. reflexivity.
  - exists [0; 0; 0; 0; 0; 0]%nat. rewrite (get_id_unseen _ _ E).
    cbn. rewrite E. reflexivity.
Qed.

(** C9 (atomicity). Threads call [get_id] concurrently on a registry that
    earlier calls built; [get_symbol], which takes no lock, is not among
    them. In the state [w] that a schedule reaches:
    at most one thread is inside the critical section;
    a thread that reads the tables, or anyone while the mutex is free,
    finds them as some sequence of calls with the threads' symbols leaves
    them, forward map and reverse table in step;
    at every instant a reverse-table entry has its forward-map entry,
    and a forward-map entry has its reverse-table entry unless the thread
    that assigned it is between the two updates, holding the mutex;
    two returned calls with one symbol have one identifier, which the
    forward map holds;
    when all calls have returned, the schedule executed the assignment
    and the append exactly once for each symbol that was new, however
    many threads presented it, and never for a symbol the registry held;
    when all threads present one unseen symbol and all have returned,
    the schedule executed the assignment once and the append once, the
    registry is what a single call leaves, with that one entry added to
    each table, and every thread got that call's identifier.
    The calls do end: every statement executed lowers the number of
    statements left, so a schedule has at most six steps per thread;
    unless all calls have returned some thread can move; and from [w] the
    calls can be run until all have returned. *)
Theorem get_id_atomic (calls symbols : list string) (schedule : list nat)
    (w : world) :
  let r0 := register_all calls empty_registry in
  run schedule (initial_world r0 symbols) = Some w →
  (∀ i j ci cj,
     w_callers w !! i = Some ci → w_callers w !! j = Some cj →
     in_critical_section ci = true → in_critical_section cj = true → i = j) ∧
  (∀ c, c ∈ w_callers w → reads_tables c = true →
     linearized r0 symbols (w_registry w) ∧ consistent (w_registry w)) ∧
  (w_mtx w = false →
     linearized r0 symbols (w_registry w) ∧ consistent (w_registry w)) ∧
  (∀ (n : nat) s,
     id_to_string_ (w_registry w) !! n = Some s →
     string_to_id_ (w_registry w) !! s = Some (to_uint32 (N.of_nat n))) ∧
  (∀ s id,
     string_to_id_ (w_registry w) !! s = Some id →
     (∃ n : nat, id_to_string_ (w_registry w) !! n = Some s ∧
                 id = to_uint32 (N.of_nat n)) ∨
     (w_mtx w = true ∧ Appending s id ∈ w_callers w)) ∧
  (∀ s id1 id2,
     Returned s id1 ∈ w_callers w → Returned s id2 ∈ w_callers w → id1 = id2) ∧
  (∀ s id,
     Returned s id ∈ w_callers w → string_to_id_ (w_registry w) !! s = Some id) ∧
  (∀ s,
     s ∈ symbols →
     Forall (fun c => has_returned c = true) (w_callers w) →
     executed (assigns_of s) schedule (initial_world r0 symbols)
     = match string_to_id_ r0 !! s with Some _ => 0%nat | None => 1%nat end ∧
     executed (appends_of s) schedule (initial_world r0 symbols)
     = match string_to_id_ r0 !! s with Some _ => 0%nat | None => 1%nat end) ∧
  (∀ s,
     symbols ≠ [] → (∀ x, x ∈ symbols → x = s) →
     string_to_id_ r0 !! s = None →
     Forall (fun c => has_returned c = true) (w_callers w) →
     executed assigns schedule (initial_world r0 symbols) = 1%nat ∧
     executed appends schedule (initial_world r0 symbols) = 1%nat ∧
     w_registry w = snd (get_id s r0) ∧
     string_to_id_ (w_registry w)
     = <[s := to_uint32 (N.of_nat (length (id_to_string_ r0)))]> (string_to_id_ r0) ∧
     id_to_string_ (w_registry w) = id_to_string_ r0 ++ [s] ∧
     w_callers w = replicate (length symbols) (Returned s (fst (get_id s r0)))) ∧
  (length schedule + work w ≤ 6 * length symbols)%nat ∧
  (∀ i w', step i w = Some w' → (work w' < work w)%nat) ∧
  (Forall (fun c => has_returned c = true) (w_callers w) ∨
   ∃ i w', step i w = Some w') ∧
  (∃ rest w', run rest w = Some w' ∧
              Forall (fun c => has_returned c = true) (w_callers w')).
Proof.
  intros r0 Hrun.
  assert (reachable (initial_world r0 symbols) w) as Hreach by by exists schedule.
  assert (consistent r0) as Hr0 by apply register_all_consistent, consistent_empty.
  pose proof (reachable_inv r0 symbols Hr0 w Hreach) as Hinv.
  destruct (inv_views _ _ _ Hinv) as (rc & Hlin & Hfree & Hviews).
  pose proof (linearized_consistent r0 symbols Hr0 rc Hlin) as Hrc.
  assert (∀ s id, Returned s id ∈ w_callers w → string_to_id_ rc !! s = Some id)
    as Hret.
  { intros s id Hin. apply (Hviews _ Hin). }
  split_and!.
  - intros i j ci cj Hi Hj Hci Hcj.
    destruct (decide (i = j)) as [|Hne]; [done|].
    pose proof (others_outside r0 symbols w i ci Hinv Hi (or_introl Hci) j cj) as H.
    rewrite H in Hcj; [done|congruence|done].
  - intros c Hc Hreads. pose proof (Hviews c Hc) as Hview.
    destruct c; simpl in Hreads, Hview; try done.
    + by rewrite Hview.
    + by rewrite (proj1 Hview).
  - intros Hm. by rewrite (Hfree Hm).
  - intros n s Hn. by apply (reverse_entries r0 symbols Hr0).
  - intros s id Hs. by apply (forward_entries r0 symbols Hr0).
  - intros s id1 id2 H1 H2. apply Hret in H1, H2. congruence.
  - intros s id Hin. eapply completed_entries; [done..|]. by apply Hret.
  - intros s Hs Hdone. by apply (assignments_of r0 symbols Hr0 schedule w).
  - intros s Hne Hall Hunseen Hdone.
    assert (w_mtx w = false) as Hm.
    { pose proof (inv_owner _ _ _ Hinv) as Howner.
      destruct (w_mtx w); [|done].
      destruct Howner as (i & c & Hc & Hin & _).
      rewrite Forall_lookup in Hdone. pose proof (Hdone i c Hc).
      by destruct c. }
    rewrite (Hfree Hm).
    assert (∀ c, c ∈ w_callers w → ∃ id, c = Returned s id) as Hshape.
    { intros c Hc. rewrite Forall_forall in Hdone. pose proof (Hdone c Hc) as Hr.
      destruct c as [| | | | | |s' id]; try done. exists id. f_equal.
      apply Hall. rewrite <- (inv_symbols _ _ _ Hinv).
      apply list_elem_of_fmap. by exists (Returned s' id). }
    destruct Hlin as (order & Hsub & Horder).
    assert (order ≠ []) as Horder_ne.
    { intros ->. simpl in Horder. subst rc.
      destruct symbols as [|x symbols']; [done|].
      pose proof (inv_symbols _ _ _ Hinv) as Hsym.
      destruct (w_callers w) as [|c cs]; [done|].
      destruct (Hshape c) as [id ->]; [by left|].
      rewrite (Hret s id) in Hunseen; [done|by left]. }
    assert (rc = snd (get_id s r0)) as Hrc_eq.
    { rewrite Horder. apply register_all_same; [|done].
      intros x Hx. by apply Hall, Hsub. }
    pose proof (get_id_unseen r0 s Hunseen) as Hget.
    destruct (run_counts _ _ _ Hrun) as [Hcount Hlen].
    rewrite appends_initial, (appends_returned _ Hdone) in Hcount.
    rewrite (Hfree Hm), Hrc_eq, Hget in Hlen. simpl in Hlen.
    rewrite length_app in Hlen. simpl in Hlen.
    split_and!.
    + lia.
    + lia.
    + done.
    + by rewrite Hrc_eq, Hget.
    + by rewrite Hrc_eq, Hget.
    + rewrite <- (inv_symbols _ _ _ Hinv), length_fmap.
      symmetry. apply replicate_as_Forall. split; [done|].
      apply Forall_forall. intros c Hc. destruct (Hshape c Hc) as [id ->].
      f_equal. pose proof (Hret s id Hc) as H.
      rewrite Hrc_eq, get_id_lookup in H. congruence.
  - pose proof (run_work _ _ _ Hrun) as H. by rewrite work_initial in H.
  - intros i w' Hstep. by eapply step_work.
  - by apply (no_deadlock r0 symbols).
  - by apply (completes r0 symbols Hr0).
Qed.

Lemma get_id_atomic_witness :
  executed assigns second_then_first two_callers = 1%nat ∧
  executed appends second_then_first two_callers = 1%nat ∧
  w_registry two_callers_done
  = snd (get_id "MSFT" (register_all ["AAPL"] empty_registry)) ∧
  string_to_id_ (w_registry two_callers_done)
  = <[ "MSFT"%string := 1 ]> (string_to_id_ (register_all ["AAPL"] empty_registry)) ∧
  id_to_string_ (w_registry two_callers_done) = ["AAPL"; "MSFT"] ∧
  w_callers two_callers_done = [Returned "MSFT" 1; Returned "MSFT" 1].
Proof.
  pose proof (get_id_atomic ["AAPL"] ["MSFT"; "MSFT"] second_then_first
                two_callers_done) as H.
  cbv zeta in H.
  refine ((fun H' => proj1 (proj2 (proj2 (proj2 (proj2 (proj2 (proj2 (proj2
             (proj2 H')))))))) "MSFT"%string _ _ _ _) (H _)).
  - done.
  - intros x Hx. set_unfold in Hx. tauto.
  - vm_compute. reflexivity.
  - vm_compute. repeat constructor.
  - vm_compute. reflexivity.
Defined.

(** A full run of the two threads: one assignment, one identifier. *)
Example two_callers_run :
  run [1; 1; 1; 1; 1; 1; 0; 0; 0]%nat two_callers
  = Some {| w_registry := snd (get_id "MSFT" (register_all ["AAPL"] empty_registry));
            w_mtx := false;
            w_callers := [Returned "MSFT" 1; Returned "MSFT" 1] |}.
Proof. vm_compute. reflexivity. Qed.

(** Three threads, two of them with MSFT, the first entering after the
    third has left: MSFT is assigned once, GOOGL once, AAPL never. *)
Example three_callers_assignments :
  let w0 := initial_world (register_all ["AAPL"] empty_registry)
              ["MSFT"; "GOOGL"; "MSFT"; "AAPL"] in
  let schedule := [2; 2; 2; 2; 2; 2; 1; 1; 1; 1; 1; 1; 0; 0; 0; 3; 3; 3]%nat in
  (w_callers <$> run schedule w0)
  = Some [Returned "MSFT" 1; Returned "GOOGL" 2; Returned "MSFT" 1;
          Returned "AAPL" 0] ∧
  executed (assigns_of "MSFT") schedule w0 = 1%nat ∧
  executed (assigns_of "GOOGL") schedule w0 = 1%nat ∧
  executed (assigns_of "AAPL") schedule w0 = 0%nat ∧
  executed assigns schedule w0 = 2%nat.
Proof. vm_compute. split_and!; reflexivity. Qed.

(** A thread cannot enter while another is inside. *)
Example two_callers_blocked : step 0 two_callers_mid_update = None.
Proof. vm_compute. reflexivity. Qed.

(** ** More on the registry *)

(** X1 (identifiers are immutable). Once assigned, an identifier stays: whatever the registry holds and
    whatever calls follow, a symbol looked up again gets the identifier it
    got the first time. *)
Theorem get_id_immutable (r : SymbolRegistry) (s : string) (later : list string) :
  let id := fst (get_id s r) in
  let r' := register_all later (snd (get_id s r)) in
  get_id s r' = (id, r') ∧ string_to_id_ r' !! s = Some id.
Proof.
  intros id r'.
  assert (string_to_id_ r' !! s = Some id) as H
    by apply register_all_mono, get_id_lookup.
  split; [|done]. by apply get_id_seen.
Qed.

Lemma filter_all {A : Type} (P : A → Prop) `{∀ x, Decision (P x)} (l : list A) :
  (∀ x, x ∈ l → P x) → filter P l = l.
Proof.
  induction l as [|x l IH]; intros Hall; [done|].
  rewrite filter_cons_True by (apply Hall; by left).
  f_equal. apply IH. intros y Hy. apply Hall. by right.
Qed.

Lemma first_seen_filter_seen (seen : list string) (s : string) (l : list string) :
  s ∈ seen →
  filter (fun x => x ∉ seen) (filter (fun x => x ≠ s) l)
  = filter (fun x => x ∉ seen) l.
Proof.
  intros Hs. induction l as [|x l IH]; [done|].
  rewrite !filter_cons. destruct (decide (x ≠ s)) as [Hx|Hx].
  - rewrite filter_cons. destruct (decide (x ∉ seen)); by rewrite IH.
  - apply dec_stable in Hx as ->.
    destruct (decide (s ∉ seen)); [done|]. by rewrite IH.
Qed.

Lemma first_seen_filter_new (seen : list string) (s : string) (l : list string) :
  filter (fun x => x ∉ seen ++ [s]) l
  = filter (fun x => x ∉ seen) (filter (fun x => x ≠ s) l).
Proof.
  rewrite list_filter_filter. apply list_filter_iff. intros x.
  rewrite elem_of_app, list_elem_of_singleton. tauto.
Qed.

Lemma register_all_first_seen (calls : list string) (r : SymbolRegistry) :
  consistent r →
  id_to_string_ (register_all calls r)
  = id_to_string_ r ++ filter (fun x => x ∉ id_to_string_ r) (first_seen calls).
Proof.
  revert r. induction calls as [|s calls IH]; intros r Hr; simpl.
  - by rewrite app_nil_r.
  - rewrite IH by (by apply get_id_consistent).
    destruct (string_to_id_ r !! s) as [i|] eqn:E.
    + rewrite (get_id_seen _ _ _ E). simpl.
      assert (s ∈ id_to_string_ r) as Hs
        by (apply (consistent_seen_iff _ _ Hr); eauto).
      rewrite filter_cons. destruct (decide (s ∉ id_to_string_ r)); [done|].
      by rewrite first_seen_filter_seen.
    + rewrite (get_id_unseen _ _ E). simpl.
      assert (s ∉ id_to_string_ r) as Hs.
      { rewrite <- (consistent_seen_iff _ _ Hr), E. by intros [? ?]. }
      rewrite filter_cons. destruct (decide (s ∉ id_to_string_ r)); [|done].
      by rewrite first_seen_filter_new, <- app_assoc.
Qed.

(** A registry is determined by its reverse table. *)
Lemma consistent_eq (r1 r2 : SymbolRegistry) :
  consistent r1 → consistent r2 →
  id_to_string_ r1 = id_to_string_ r2 → r1 = r2.
Proof.
  intros H1 H2 Hvec. destruct r1 as [m1 v1], r2 as [m2 v2]. simpl in *.
  subst v2. f_equal. apply map_eq. intros s. apply option_eq. intros i.
  rewrite (consistent_lookup _ H1), (consistent_lookup _ H2). done.
Qed.

(** X2 (first-seen order). After any calls, the reverse table lists the symbols
    in the order of their first appearance, and the repeats in the calls
    made no difference to the registry. *)
Theorem register_all_in_first_seen_order (calls : list string) :
  id_to_string_ (register_all calls empty_registry) = first_seen calls ∧
  register_all calls empty_registry
  = register_all (first_seen calls) empty_registry.
Proof.
  assert (∀ l, id_to_string_ (register_all l empty_registry) = first_seen l)
    as Hvec.
  { intros l. rewrite register_all_first_seen by apply consistent_empty.
    simpl. apply filter_all. intros x _. apply not_elem_of_nil. }
  split; [apply Hvec|].
  apply consistent_eq; try apply register_all_consistent, consistent_empty.
  rewrite !Hvec.
  assert (∀ l, NoDup l → first_seen l = l) as Hid.
  { induction l as [|x l IH]; intros Hnd; [done|].
    apply NoDup_cons in Hnd as [Hx Hnd]. simpl. rewrite IH by done.
    f_equal. apply filter_all. intros y Hy ->. done. }
  symmetry. apply Hid. rewrite <- Hvec.
  apply (register_all_consistent calls _ consistent_empty).
Qed.

(** X3 (identifier is rank). The identifier of a symbol is its rank in first-seen order, for the
    first [2^32] symbols. *)
Theorem get_id_is_rank (calls : list string) (k : nat) (s : string) :
  first_seen calls !! k = Some s →
  N.of_nat k < UINT32_MOD →
  let r := register_all calls empty_registry in
  get_id s r = (N.of_nat k, r) ∧ get_symbol (N.of_nat k) r = Text s.
Proof.
  intros Hk Hlt r.
  assert (consistent r) as Hr by apply register_all_consistent, consistent_empty.
  assert (id_to_string_ r !! k = Some s) as Hvec.
  { subst r. rewrite register_all_first_seen by apply consistent_empty.
    simpl. rewrite filter_all; [done|]. intros x _. apply not_elem_of_nil. }
  split.
  - apply get_id_seen. apply (consistent_lookup _ Hr). exists k.
    split; [done|]. symmetry. by apply to_uint32_small.
  - unfold get_symbol. by rewrite Nat2N.id, Hvec.
Qed.

Lemma get_id_is_rank_witness :
  get_id "V" (register_all ["MSFT"; "AAPL"; "MSFT"; "V"; "AAPL"] empty_registry)
  = (2, register_all ["MSFT"; "AAPL"; "MSFT"; "V"; "AAPL"] empty_registry) ∧
  get_symbol 2 (register_all ["MSFT"; "AAPL"; "MSFT"; "V"; "AAPL"] empty_registry)
  = Text "V".
Proof.
  apply (get_id_is_rank ["MSFT"; "AAPL"; "MSFT"; "V"; "AAPL"] 2 "V").
  - reflexivity.
  - reflexivity.
Defined.

(** X4 (tables in step). The two tables always have the same number of entries, and the
    reverse table never holds a symbol twice: different identifiers never
    lead to the same text. *)
Theorem tables_in_step (calls : list string) (i j : N) (s : string) :
  let r := register_all calls empty_registry in
  size (string_to_id_ r) = length (id_to_string_ r) ∧
  (get_symbol i r = Text s → get_symbol j r = Text s → i = j).
Proof.
  intros r.
  assert (consistent r) as Hr by apply register_all_consistent, consistent_empty.
  split.
  - rewrite <- size_dom.
    rewrite <- (size_list_to_set (C := gset string) (id_to_string_ r))
      by apply Hr.
    f_equal. apply set_eq. intros x.
    rewrite elem_of_dom, elem_of_list_to_set. by apply consistent_seen_iff.
  - unfold get_symbol. intros Hi Hj.
    destruct (id_to_string_ r !! N.to_nat i) as [si|] eqn:Ei; [|done].
    destruct (id_to_string_ r !! N.to_nat j) as [sj|] eqn:Ej; [|done].
    simplify_eq.
    pose proof (NoDup_lookup _ _ _ _ (consistent_nodup _ Hr) Ei Ej). lia.
Qed.

(** X5 (round trip from the identifier). The round trip the other way: the text that [get_symbol] yields for a
    32-bit identifier is a symbol whose identifier is that one, however
    many symbols the registry holds. *)
Theorem get_symbol_then_get_id (calls : list string) (id : N) (s : string) :
  let r := register_all calls empty_registry in
  id < UINT32_MOD →
  get_symbol id r = Text s →
  get_id s r = (id, r).
Proof.
  intros r Hid Hsym.
  assert (consistent r) as Hr by apply register_all_consistent, consistent_empty.
  unfold get_symbol in Hsym.
  destruct (id_to_string_ r !! N.to_nat id) as [s'|] eqn:E; [|done].
  simplify_eq. apply get_id_seen, (consistent_lookup _ Hr).
  exists (N.to_nat id). split; [done|].
  rewrite N2Nat.id. symmetry. by apply to_uint32_small.
Qed.

Lemma get_symbol_then_get_id_witness :
  get_id "MSFT" (register_all ["AAPL"; "MSFT"; "AAPL"] empty_registry)
  = (1, register_all ["AAPL"; "MSFT"; "AAPL"] empty_registry).
Proof.
  apply (get_symbol_then_get_id ["AAPL"; "MSFT"; "AAPL"] 1 "MSFT").
  - reflexivity.
  - reflexivity.
Defined.

(** ** More on the comparison paths *)

Lemma size_incr_iter (F m : N) :
  m < SIZE_MOD → repeat_fanout F size_incr m = (m + F) mod SIZE_MOD.
Proof.
  intros Hm. unfold repeat_fanout.
  induction F as [|F IH] using N.peano_ind.
  - simpl. rewrite N.add_0_r. symmetry. by apply N.mod_small.
  - rewrite N.iter_succ, IH. unfold size_incr.
    rewrite N.Div0.add_mod_idemp_l. f_equal. lia.
Qed.

Lemma direct_1tomany_closed (F : N) (target : string) (incoming : list string) (m : N) :
  m < SIZE_MOD →
  direct_1tomany F target incoming m
  = (m + F * occurrences target incoming) mod SIZE_MOD.
Proof.
  revert m. unfold occurrences.
  induction incoming as [|s incoming IH]; intros m Hm.
  - simpl. rewrite N.mul_0_r, N.add_0_r. symmetry. by apply N.mod_small.
  - cbn [direct_1tomany]. rewrite filter_cons.
    destruct (String.eqb_spec s target) as [->|Hne].
    + rewrite decide_True by done.
      change (count_if true) with size_incr.
      rewrite size_incr_iter by done.
      rewrite IH by (apply N.mod_lt; done).
      rewrite N.Div0.add_mod_idemp_l. f_equal. simpl length. lia.
    + rewrite decide_False by done.
      rewrite repeat_fanout_id by done. by apply IH.
Qed.

(** X6 (direct counts). What the direct path counts. Started at 0, the 1-to-many pass counts
    the fanout times the occurrences of the target, modulo [2^64], and the
    1-to-1 pass counts the occurrences, modulo [2^64]. *)
Theorem direct_counts_occurrences (F : N) (target : string) (incoming : list string) :
  direct_1tomany F target incoming 0
    = (F * occurrences target incoming) mod SIZE_MOD ∧
  direct_1to1 target incoming 0 = occurrences target incoming mod SIZE_MOD.
Proof.
  split.
  - by rewrite direct_1tomany_closed.
  - rewrite direct_1to1_fanout_1, direct_1tomany_closed by done.
    f_equal. lia.
Qed.

(** X7 (warm-up). What the warm-up buys. Whatever the registry and the workload, after
    one pass of [get_id] over the workload every later pass, timed or not,
    leaves the registry as it is, and a timed pass counts from the warmed
    registry what it would have counted from the cold one. *)
Theorem warmed_passes (target_id : N) (incoming : list string)
    (sink m F : N) (r : SymbolRegistry) :
  let rw := snd (warm_registry_1to1 target_id incoming sink r) in
  snd (registry_1to1 target_id incoming m rw) = rw ∧
  snd (registry_1tomany F target_id incoming m rw) = rw ∧
  snd (warm_registry_1tomany F target_id incoming sink rw) = rw ∧
  fst (registry_1to1 target_id incoming m rw)
    = fst (registry_1to1 target_id incoming m r) ∧
  fst (registry_1tomany F target_id incoming m rw)
    = fst (registry_1tomany F target_id incoming m r).
Proof.
  intros rw.
  assert (rw = register_all incoming r) as Hrw
    by apply warm_registry_1to1_registry.
  assert (register_all incoming rw = rw) as Hsame
    by (rewrite Hrw; apply register_all_idempotent).
  split_and!.
  - by rewrite registry_1to1_registry.
  - by rewrite registry_1tomany_registry.
  - by rewrite warm_registry_1tomany_registry.
  - rewrite !registry_1to1_fanout_1. symmetry.
    apply registry_1tomany_warmed. by rewrite Hrw.
  - symmetry. apply registry_1tomany_warmed. by rewrite Hrw.
Qed.

(** ** More on the workload generator *)

Lemma generate_loop_extends `{StdLib} (m : nat) (rng : engine) (stream : list string) :
  stream `prefix_of` generate_loop m rng stream.
Proof.
  revert rng stream. induction m as [|m IH]; intros rng stream; simpl; [done|].
  destruct (uniform_int_distribution _ _ rng) as [k rng'].
  etrans; [|apply IH]. by apply prefix_app_r.
Qed.

Lemma generate_loop_prefix `{StdLib} (n m : nat) (rng : engine) (stream : list string) :
  generate_loop n rng stream `prefix_of` generate_loop (n + m) rng stream.
Proof.
  revert rng stream. induction n as [|n IH]; intros rng stream; simpl.
  - apply generate_loop_extends.
  - destruct (uniform_int_distribution _ _ rng) as [k rng']. apply IH.
Qed.

(** X8 (stream prefix). A longer stream continues a shorter one. With
    one seed, whenever the calls for [n] and for [n + m] symbols both
    return, the stream of [n] symbols is the beginning of the stream of
    [n + m] symbols: raising the iteration count appends draws and changes
    none. *)
Theorem generate_incoming_stream_prefix
    (L : StdLib) (n m seed : N) (shorter longer : list string) :
  generate_incoming_stream n seed = inr shorter →
  generate_incoming_stream (n + m) seed = inr longer →
  shorter `prefix_of` longer ∧
  take (N.to_nat n) longer = shorter.
Proof.
  intros [_ ->]%generate_incoming_stream_inv [_ ->]%generate_incoming_stream_inv.
  set (shorter := generate_loop (N.to_nat n) (mt19937 seed) []).
  set (longer := generate_loop (N.to_nat (n + m)) (mt19937 seed) []).
  assert (shorter `prefix_of` longer) as Hp.
  { unfold shorter, longer. rewrite N2Nat.inj_add. apply generate_loop_prefix. }
  split; [done|]. destruct Hp as [k Hk]. rewrite Hk.
  assert (length shorter = N.to_nat n) as Hlen.
  { unfold shorter. by rewrite generate_loop_length. }
  rewrite <- Hlen. by rewrite take_app_length.
Qed.

Lemma generate_incoming_stream_prefix_witness :
  @generate_incoming_stream lcg_stdlib 3 42 = inr ["MSFT"; "USDCHF"; "GLD"] ∧
  @generate_incoming_stream lcg_stdlib (3 + 3) 42
  = inr ["MSFT"; "USDCHF"; "GLD"; "ZB"; "ETHUSD"; "DIA"] ∧
  ["MSFT"; "USDCHF"; "GLD"]
    `prefix_of` ["MSFT"; "USDCHF"; "GLD"; "ZB"; "ETHUSD"; "DIA"] ∧
  take (N.to_nat 3) ["MSFT"; "USDCHF"; "GLD"; "ZB"; "ETHUSD"; "DIA"]
  = ["MSFT"; "USDCHF"; "GLD"].
Proof.
  assert (@generate_incoming_stream lcg_stdlib 3 42
          = inr ["MSFT"; "USDCHF"; "GLD"]) as H3
    by (vm_compute; reflexivity).
  assert (@generate_incoming_stream lcg_stdlib (3 + 3) 42
          = inr ["MSFT"; "USDCHF"; "GLD"; "ZB"; "ETHUSD"; "DIA"]) as H6
    by (vm_compute; reflexivity).
  split; [exact H3|]. split; [exact H6|].
  exact (generate_incoming_stream_prefix lcg_stdlib 3 3 42 _ _ H3 H6).
Defined.
(** ** More on the command line *)

Section decimal.
Local Open Scope Z_scope.

Lemma pretty_N_char_digit (d : N) :
  (d < 10)%N →
  isdigit (pretty_N_char d) = true ∧
  Z.of_N (N_of_ascii (pretty_N_char d) - 48) = Z.of_N d.
Proof.
  intros Hd.
  assert (d = 0 ∨ d = 1 ∨ d = 2 ∨ d = 3 ∨ d = 4 ∨ d = 5 ∨ d = 6 ∨ d = 7
          ∨ d = 8 ∨ d = 9)%N as Hcases by lia.
  repeat (destruct Hcases as [->|Hcases]; [by split|]). by subst.
Qed.

Lemma isdigit_not_space (c : ascii) : isdigit c = true → isspace c = false.
Proof.
  unfold isdigit, isspace. intros [H1 H2]%andb_prop.
  apply N.leb_le in H1, H2.
  destruct (N.eqb_spec (N_of_ascii c) 32); [lia|].
  destruct (N.leb_spec 9 (N_of_ascii c)); [|done].
  destruct (N.leb_spec (N_of_ascii c) 13); [lia|done].
Qed.

Lemma isdigit_not_sign (c : ascii) (s : string) :
  isdigit c = true → strip_sign (String c s) = (false, String c s).
Proof.
  unfold isdigit. intros [H1 H2]%andb_prop. apply N.leb_le in H1, H2.
  unfold strip_sign.
  destruct (Ascii.eqb_spec c "-") as [->|_]; [done|].
  destruct (Ascii.eqb_spec c "+") as [->|_]; done.
Qed.

Lemma skip_spaces_app (ws s : string) :
  all_spaces ws = true → skip_spaces (ws +:+ s) = skip_spaces s.
Proof.
  induction ws as [|c ws IH]; simpl; [done|].
  intros [-> Hws]%andb_prop. by apply IH.
Qed.

Lemma pretty_N_go_app (x : N) (s rest : string) :
  pretty_N_go x s +:+ rest = pretty_N_go x (s +:+ rest).
Proof.
  revert s. induction (N.lt_wf_0 x) as [x _ IH]; intros s.
  assert (x = 0 ∨ 0 < x)%N as [->|Hx] by lia.
  - by rewrite 2!pretty_N_go_0.
  - rewrite (pretty_N_go_step x s), (pretty_N_go_step x (s +:+ rest)) by done.
    rewrite IH by (apply N.div_lt; lia). reflexivity.
Qed.

Lemma pretty_N_go_head (x : N) (s : string) :
  (0 < x)%N →
  ∃ c s', pretty_N_go x s = String c s' ∧ isdigit c = true.
Proof.
  revert s. induction (N.lt_wf_0 x) as [x _ IH]; intros s Hx.
  rewrite pretty_N_go_step by done.
  destruct (N.eq_0_gt_0_cases (x `div` 10)%N) as [Hq|Hq].
  - rewrite Hq, pretty_N_go_0.
    exists (pretty_N_char (x `mod` 10)), s. split; [reflexivity|].
    apply pretty_N_char_digit. by apply N.mod_lt.
  - apply IH; [apply N.div_lt; lia|done].
Qed.

Lemma digits_value_pretty_N_go (x : N) :
  ∃ k : nat, ∀ acc s,
    digits_value acc (pretty_N_go x s)
    = digits_value (acc * 10 ^ Z.of_nat k + Z.of_N x) s.
Proof.
  induction (N.lt_wf_0 x) as [x _ IH].
  assert (x = 0 ∨ 0 < x)%N as [->|Hx] by lia.
  - exists 0%nat. intros acc s. rewrite pretty_N_go_0. f_equal.
    change (10 ^ Z.of_nat 0) with 1. change (Z.of_N 0) with 0. lia.
  - destruct (IH (x `div` 10)%N) as [k Hk]; [apply N.div_lt; lia|].
    exists (S k). intros acc s. rewrite pretty_N_go_step by lia. rewrite Hk.
    destruct (pretty_N_char_digit (x `mod` 10)) as [Hd Hv];
      [by apply N.mod_lt|].
    cbn [digits_value]. rewrite Hd, Hv. f_equal.
    rewrite Nat2Z.inj_succ, Z.pow_succ_r by lia.
    pose proof (N.div_mod x 10 ltac:(done)) as Hdm.
    set (p := 10 ^ Z.of_nat k). lia.
Qed.

Lemma digits_value_stop (acc : Z) (s : string) :
  starts_with_digit s = false → digits_value acc s = acc.
Proof. destruct s as [|c s]; simpl; [done|]. by intros ->. Qed.

Lemma pretty_N_unfold (x : N) :
  (0 < x)%N → pretty x = pretty_N_go x "".
Proof.
  intros Hx. unfold pretty, pretty_N. rewrite decide_False by lia. done.
Qed.

Lemma atoll_pretty_N (x : N) (rest : string) :
  starts_with_digit rest = false →
  ∃ c s', pretty x +:+ rest = String c s' ∧ isdigit c = true ∧
          digits_value 0 (String c s') = Z.of_N x.
Proof.
  intros Hrest.
  assert (x = 0 ∨ 0 < x)%N as [->|Hx] by lia.
  - exists "0"%char, rest. split_and!; [done|done|].
    cbn [digits_value]. change (isdigit "0") with true. cbn iota.
    change (Z.of_N (N_of_ascii "0" - 48)) with 0.
    by rewrite digits_value_stop.
  - rewrite pretty_N_unfold, pretty_N_go_app by done.
    change ("" +:+ rest) with rest.
    destruct (pretty_N_go_head x rest Hx) as (c & s' & Heq & Hc).
    exists c, s'. split_and!; [done|done|]. rewrite <- Heq.
    destruct (digits_value_pretty_N_go x) as [k Hk]. rewrite Hk.
    rewrite digits_value_stop by done. lia.
Qed.

Lemma atoll_pretty (ws rest : string) (z : Z) :
  all_spaces ws = true → starts_with_digit rest = false →
  LLONG_MIN ≤ z ≤ LLONG_MAX →
  atoll (ws +:+ pretty z +:+ rest) = z.
Proof.
  intros Hws Hrest Hz. unfold atoll. rewrite skip_spaces_app by done.
  unfold LLONG_MIN, LLONG_MAX in *.
  destruct z as [|p|p].
  - change (pretty 0 +:+ rest) with (String "0" rest).
    cbn [skip_spaces]. change (isspace "0") with false. cbn iota.
    rewrite (isdigit_not_sign "0" rest eq_refl).
    cbn [digits_value]. change (isdigit "0") with true. cbn iota.
    change (Z.of_N (N_of_ascii "0" - 48)) with 0.
    rewrite digits_value_stop by done. lia.
  - destruct (atoll_pretty_N (N.pos p) rest Hrest) as (c & s' & Heq & Hc & Hv).
    change (pretty (Z.pos p)) with (pretty (N.pos p)). rewrite Heq.
    cbn [skip_spaces]. rewrite (isdigit_not_space _ Hc).
    rewrite (isdigit_not_sign _ _ Hc), Hv. lia.
  - destruct (atoll_pretty_N (N.pos p) rest Hrest) as (c & s' & Heq & Hc & Hv).
    change (pretty (Z.neg p) +:+ rest)
      with (String "-" (pretty (N.pos p) +:+ rest)).
    rewrite Heq. cbn [skip_spaces]. change (isspace "-") with false. cbn iota.
    unfold strip_sign. change (Ascii.eqb "-" "-") with true. cbn iota.
    rewrite Hv. lia.
Qed.

End decimal.

(** X9 (decimal argument). Reading a decimal count. When the argument is a decimal numeral of a
    [long long] value [z], possibly after white space and before text
    that does not begin with a digit, the iteration count is [z]
    converted to [std::size_t]: [z] itself when it is not negative, and
    [2^64 - |z|] when it is. *)
Theorem parse_iterations_decimal
    (prog ws rest : string) (more : list string) (z : Z) :
  all_spaces ws = true →
  starts_with_digit rest = false →
  (LLONG_MIN ≤ z ≤ LLONG_MAX)%Z →
  let count := parse_iterations (prog :: (ws +:+ pretty z +:+ rest) :: more) in
  ((0 ≤ z)%Z → count = Z.to_N z) ∧
  ((z < 0)%Z → count = SIZE_MOD - Z.to_N (- z)).
Proof.
  intros Hws Hrest Hz count. subst count. cbn [parse_iterations].
  rewrite atoll_pretty by done. unfold to_size.
  unfold LLONG_MIN, LLONG_MAX in Hz.
  assert (Z.of_N SIZE_MOD = 2 ^ 64)%Z as HM by reflexivity.
  assert (SIZE_MOD = 18446744073709551616) as HN by reflexivity.
  rewrite HM. split; intros Hsign.
  - rewrite Z.mod_small by lia. done.
  - rewrite <- (Z.mod_add z 1) by lia. rewrite Z.mod_small by lia. lia.
Qed.

Lemma parse_iterations_decimal_witness :
  ((0 ≤ -1)%Z →
   parse_iterations ["string-interning"; " -1x"; "ignored"] = Z.to_N (-1)) ∧
  ((-1 < 0)%Z →
   parse_iterations ["string-interning"; " -1x"; "ignored"]
   = SIZE_MOD - Z.to_N (- -1)).
Proof.
  apply (parse_iterations_decimal "string-interning" " " "x" ["ignored"] (-1)).
  - reflexivity.
  - reflexivity.
  - vm_compute. split; discriminate.
Defined.

Example parse_iterations_examples :
  parse_iterations ["string-interning"; "1000"] = 1000 ∧
  parse_iterations ["string-interning"; "  +250 symbols"] = 250 ∧
  parse_iterations ["string-interning"; "-1"] = 18446744073709551615.
Proof. vm_compute. done. Qed.

(** ** The report, line by line *)

Section report.
Context {L : StdLib}.
Implicit Types (st : bench_state) (incoming : list string).

Lemma scenario_tables_app (t : nat) (count : scenario → N) (l1 l2 : list scenario) :
  scenario_tables t count (l1 ++ l2)
  = scenario_tables t count l1
    ++ scenario_tables (t + 2 * length l1) count l2.
Proof.
  revert t. induction l1 as [|sc l1 IH]; intros t; simpl.
  - by rewrite Nat.add_0_r.
  - rewrite IH.
    replace (S (S t) + 2 * length l1)%nat with (t + 2 * S (length l1))%nat
      by lia.
    done.
Qed.

(** The sweep from a registry that knows the workload, in full: with all
    points agreeing it appends their tables and the summary; at the first
    point that disagrees it appends the tables before it, the heading and
    the diagnostic. *)
Lemma fanout_sweep_exact (fuel : nat) (target_id : N) (target_string : string)
    incoming (F0 : N) st (count : scenario → N) :
  (∀ s, s ∈ incoming → is_Some (string_to_id_ (st_registry st) !! s)) →
  sweep_exits fuel F0 = true →
  (∀ F, count (OneToMany F) = direct_1tomany F target_string incoming 0) →
  (Forall (fun F => fst (sweep_counts target_id target_string incoming
                           (st_registry st) F)
                    = snd (sweep_counts target_id target_string incoming
                             (st_registry st) F))
          (points_from fuel F0) →
   fanout_sweep fuel target_id target_string incoming F0 st
   = Some {| exit_code := 0;
             trace :=
               st_out st
               ++ scenario_tables (st_timers st) count
                    (OneToMany <$> points_from fuel F0)
               ++ [Cout SummaryTitle; Cout SummaryHeads;
                   Cout (Rule (SW * 4 + 2 + 12))]
               ++ (map (fun r => Cout (SummaryRow (fanout r) (ms_registry r)
                                         (ms_direct r)))
                       (st_fanout_results st)
                   ++ summary_rows (st_timers st) (points_from fuel F0))
               ++ [Cout (Rule (SW * 4 + 2 + 12)); Cout Blank] |}) ∧
  (∀ before F after,
     points_from fuel F0 = before ++ F :: after →
     Forall (fun F => fst (sweep_counts target_id target_string incoming
                             (st_registry st) F)
                      = snd (sweep_counts target_id target_string incoming
                               (st_registry st) F)) before →
     fst (sweep_counts target_id target_string incoming (st_registry st) F)
     ≠ snd (sweep_counts target_id target_string incoming (st_registry st) F) →
     fanout_sweep fuel target_id target_string incoming F0 st
     = Some {| exit_code := 1;
               trace :=
                 st_out st
                 ++ scenario_tables (st_timers st) count (OneToMany <$> before)
                 ++ scenario_abort (OneToMany F)
                      (fst (sweep_counts target_id target_string incoming
                              (st_registry st) F))
                      (snd (sweep_counts target_id target_string incoming
                              (st_registry st) F)) |}).
Proof.
  intros Hknown Hexit Hcount. revert F0 st Hknown Hexit.
  induction fuel as [|fuel IH]; intros F0 st Hknown Hexit; [done|].
  cbn [sweep_exits points_from fanout_sweep] in *.
  destruct (F0 <=? 1024) eqn:Hle.
  2:{ split.
      - intros _. unfold summary. cbn [fmap list_fmap scenario_tables summary_rows].
        by rewrite !app_nil_r.
      - intros [|??] ?? Heq; discriminate Heq. }
  pose proof (register_all_known _ _ Hknown) as Hsame.
  destruct (warm_registry_1tomany F0 target_id incoming (st_sink st) (st_registry st))
    as [sink1 r1] eqn:Ewarm.
  assert (r1 = st_registry st) as ->.
  { pose proof (warm_registry_1tomany_registry F0 target_id incoming
                  (st_sink st) (st_registry st)) as H.
    rewrite Ewarm, Hsame in H. done. }
  destruct (registry_1tomany F0 target_id incoming 0 (st_registry st))
    as [matches_c r2] eqn:Ereg.
  assert (r2 = st_registry st) as ->.
  { pose proof (registry_1tomany_registry F0 target_id incoming 0
                  (st_registry st)) as H.
    rewrite Ereg, Hsame in H. done. }
  assert (sweep_counts target_id target_string incoming (st_registry st) F0
          = (matches_c, direct_1tomany F0 target_string incoming 0))
    as HcF0 by (unfold sweep_counts; by rewrite Ereg).
  destruct (N.eqb_spec matches_c (direct_1tomany F0 target_string incoming 0))
    as [Heq|Hne]; cbn [negb].
  - match goal with
    | |- context [fanout_sweep fuel _ _ _ ?F' ?st'] =>
        destruct (IH F' st' Hknown Hexit) as [Hall Hfirst]
    end.
    cbn [st_registry st_out st_timers st_fanout_results] in Hall, Hfirst.
    split.
    + intros [_ Hrest]%Forall_cons. rewrite (Hall Hrest). f_equal. f_equal.
      rewrite fmap_cons. cbn [scenario_tables summary_rows].
      unfold scenario_table, print_table_row, print_speedup.
      cbn [scenario_labels fst snd]. rewrite (Hcount F0), <- Heq.
      rewrite map_app. cbn [map fanout ms_registry ms_direct].
      rewrite <- !app_assoc. reflexivity.
    + intros before F after Hpts Hbefore HF.
      destruct before as [|F1 before].
      { simpl in Hpts. injection Hpts as <- _. rewrite HcF0 in HF. done. }
      rewrite <- app_comm_cons in Hpts. injection Hpts as <- Hpts.
      apply Forall_cons in Hbefore as [_ Hbefore].
      rewrite (Hfirst before F after Hpts Hbefore HF). f_equal. f_equal.
      rewrite fmap_cons. cbn [scenario_tables].
      unfold scenario_table, print_table_row, print_speedup.
      cbn [scenario_labels fst snd]. rewrite (Hcount F0), <- Heq.
      rewrite <- !app_assoc. reflexivity.
  - split.
    + intros [Hagree _]%Forall_cons. rewrite HcF0 in Hagree. done.
    + intros before F after Hpts Hbefore HF.
      destruct before as [|F1 before].
      2:{ rewrite <- app_comm_cons in Hpts. injection Hpts as <- _.
          apply Forall_cons in Hbefore as [Hagree _].
          rewrite HcF0 in Hagree. done. }
      simpl in Hpts. injection Hpts as <- _. rewrite HcF0. cbn [fst snd].
      f_equal. f_equal. cbn [fmap list_fmap scenario_tables].
      unfold scenario_abort. rewrite <- !app_assoc. reflexivity.
Qed.

End report.

Lemma scenario_counts_closed (L : StdLib) (incoming : list string) (sc : scenario) :
  snd (scenario_counts incoming sc)
  = (scenario_fanout sc * occurrences "BTCUSD" incoming) mod SIZE_MOD.
Proof.
  unfold scenario_counts, warmed_registry.
  destruct (get_id "BTCUSD" (register_all SYMBOL_POOL empty_registry))
    as [target_id r].
  destruct sc as [|F]; cbn [snd sweep_counts scenario_fanout].
  - rewrite direct_1to1_fanout_1. by rewrite direct_1tomany_closed.
  - by rewrite direct_1tomany_closed.
Qed.

(** What [main] writes after the stream is generated, in both outcomes. *)
Lemma benchmark_exact (L : StdLib) (ITERATIONS : N) (incoming : list string) :
  (Forall (agree incoming) scenarios →
   benchmark ITERATIONS incoming
   = Some {| exit_code := 0;
             trace := full_report ITERATIONS (occurrences "BTCUSD" incoming) |}) ∧
  (∀ before sc after,
     scenarios = before ++ sc :: after →
     Forall (agree incoming) before →
     ¬ agree incoming sc →
     benchmark ITERATIONS incoming
     = Some {| exit_code := 1;
               trace := abort_report ITERATIONS (occurrences "BTCUSD" incoming)
                          before sc
                          (fst (scenario_counts incoming sc))
                          (snd (scenario_counts incoming sc)) |}).
Proof.
  set (k := occurrences "BTCUSD" incoming).
  set (count := fun sc => (scenario_fanout sc * k) mod SIZE_MOD).
  assert (∀ F, count (OneToMany F) = direct_1tomany F "BTCUSD" incoming 0)
    as Hcount.
  { intros F. subst count k. cbn [scenario_fanout].
    by rewrite direct_1tomany_closed. }
  assert (count OneToOne = direct_1to1 "BTCUSD" incoming 0) as Hcount1.
  { subst count k. cbn [scenario_fanout].
    rewrite direct_1to1_fanout_1. by rewrite direct_1tomany_closed. }
  unfold full_report, abort_report. fold count.
  unfold benchmark, agree, scenario_counts, warmed_registry.
  destruct (get_id "BTCUSD" (register_all SYMBOL_POOL empty_registry))
    as [target_id r].
  cbv beta iota.
  destruct (warm_registry_1to1 target_id incoming 0 r) as [sink1 rw] eqn:Ewarm.
  assert (rw = register_all incoming r) as Hrw.
  { pose proof (warm_registry_1to1_registry target_id incoming 0 r) as H.
    by rewrite Ewarm in H. }
  rewrite <- Hrw.
  assert (∀ s, s ∈ incoming → is_Some (string_to_id_ rw !! s)) as Hknown.
  { intros s Hs. rewrite Hrw. by apply register_all_registered. }
  destruct (registry_1to1 target_id incoming 0 rw) as [matches_a r1] eqn:Ereg.
  assert (r1 = rw) as ->.
  { pose proof (registry_1to1_registry target_id incoming 0 rw) as H.
    rewrite Ereg, (register_all_known _ _ Hknown) in H. done. }
  cbn [fst snd].
  destruct (N.eqb_spec matches_a (direct_1to1 "BTCUSD" incoming 0)) as [Heq|Hne];
    cbn [negb].
  - match goal with
    | |- context [fanout_sweep _ _ _ _ _ ?st'] =>
        destruct (fanout_sweep_exact SWEEP_FUEL target_id "BTCUSD" incoming 8 st'
                    count Hknown sweep_exits_from Hcount)
          as [Hall Hfirst]
    end.
    rewrite sweep_points_from in Hall, Hfirst.
    cbn [st_registry st_out st_timers st_fanout_results] in Hall, Hfirst.
    split.
    + unfold scenarios. intros [_ Hrest]%Forall_cons.
      apply Forall_fmap in Hrest. rewrite (Hall Hrest). f_equal. f_equal.
      cbn [scenario_tables map app].
      unfold scenario_table, print_table_row, print_speedup.
      cbn [scenario_labels fst snd]. rewrite Hcount1, <- Heq.
      rewrite <- !app_assoc. reflexivity.
    + unfold scenarios. intros before sc after Hsc Hbefore Hsc_ne.
      destruct before as [|sc1 before].
      { simpl in Hsc. injection Hsc as <- _. cbn [fst snd] in Hsc_ne. done. }
      rewrite <- app_comm_cons in Hsc. injection Hsc as <- Hsc.
      change (OneToMany <$> sweep_points = before ++ sc :: after) in Hsc.
      apply Forall_cons in Hbefore as [_ Hbefore].
      apply fmap_app_inv in Hsc as (pb & pa & -> & Hpa & Hpts).
      destruct pa as [|F pa]; [done|]. simpl in Hpa. injection Hpa as -> ->.
      apply Forall_fmap in Hbefore.
      rewrite (Hfirst pb F pa Hpts Hbefore Hsc_ne). f_equal. f_equal.
      cbn [scenario_tables app].
      unfold scenario_table, print_table_row, print_speedup.
      cbn [scenario_labels fst snd]. rewrite Hcount1, <- Heq.
      rewrite <- !app_assoc. reflexivity.
  - split.
    + unfold scenarios. intros [Hagree _]%Forall_cons.
      cbn [fst snd] in Hagree. done.
    + unfold scenarios. intros before sc after Hsc Hbefore Hsc_ne.
      destruct before as [|sc1 before].
      2:{ rewrite <- app_comm_cons in Hsc. injection Hsc as <- _.
          apply Forall_cons in Hbefore as [Hagree _].
          cbn [fst snd] in Hagree. done. }
      simpl in Hsc. injection Hsc as <- _. cbn [fst snd scenario_tables].
      unfold scenario_abort. rewrite <- !app_assoc. reflexivity.
Qed.

(** X10 (full report). The report of a run without mismatch. When the two counts of every
    scenario agree, the benchmark returns 0 and writes exactly: the
    banner; for the 1-to-1 scenario and each of the eight fanout points a
    heading and two rows that both show the fanout times the occurrences
    of BTCUSD in the stream, modulo [2^64]; and the summary, whose row for
    a fanout point repeats the two timer readings of that point's
    table. *)
Theorem benchmark_full_report (L : StdLib) (ITERATIONS : N) (incoming : list string) :
  Forall (agree incoming) scenarios →
  benchmark ITERATIONS incoming
  = Some {| exit_code := 0;
            trace := full_report ITERATIONS (occurrences "BTCUSD" incoming) |}.
Proof. apply benchmark_exact. Qed.

Lemma benchmark_full_report_witness :
  @benchmark lcg_stdlib 3 ["BTCUSD"; "AAPL"; "BTCUSD"]
  = Some {| exit_code := 0; trace := @full_report lcg_stdlib 3 2 |}.
Proof.
  apply (benchmark_full_report lcg_stdlib 3 ["BTCUSD"; "AAPL"; "BTCUSD"]).
  apply pool_workload_agrees. apply (bool_decide_unpack _). vm_compute. exact I.
Defined.

(** X11 (abort report). The report of a run with a mismatch. When a scenario is the first
    whose counts differ, the benchmark returns 1 and writes exactly: the
    banner, the complete tables of the scenarios before it, the heading
    of that scenario, and the diagnostic with its two counts. No row of
    that scenario, no later scenario and no summary is written. *)
Theorem benchmark_abort_report (L : StdLib) (ITERATIONS : N)
    (incoming : list string) (before : list scenario) (sc : scenario)
    (after : list scenario) :
  scenarios = before ++ sc :: after →
  Forall (agree incoming) before →
  ¬ agree incoming sc →
  benchmark ITERATIONS incoming
  = Some {| exit_code := 1;
            trace := abort_report ITERATIONS (occurrences "BTCUSD" incoming)
                       before sc
                       (fst (scenario_counts incoming sc))
                       (snd (scenario_counts incoming sc)) |}.
Proof. apply benchmark_exact. Qed.

Lemma wrapping_workload_counts (n : nat) :
  N.of_nat n = UINT32_MOD - 5 →
  scenario_counts (binary_symbols (S n)) OneToOne = (1, 0).
Proof.
  intros Hn. set (incoming := binary_symbols (S n)).
  destruct (cross_path_fails_at n Hn) as [Hreg Hdir]. cbv zeta in Hreg, Hdir.
  fold incoming in Hreg, Hdir.
  unfold scenario_counts, warmed_registry.
  destruct (get_id "BTCUSD" (register_all SYMBOL_POOL empty_registry))
    as [target_id r].
  cbn [fst snd] in *. f_equal.
  - rewrite registry_1to1_fanout_1.
    by rewrite <- (registry_1tomany_warmed 1 target_id incoming 0 r).
  - by rewrite direct_1to1_fanout_1.
Qed.

Lemma benchmark_abort_report_witness :
  @benchmark lcg_stdlib (UINT32_MOD - 4)
     (binary_symbols (S (N.to_nat (UINT32_MOD - 5))))
  = Some {| exit_code := 1;
            trace :=
              @abort_report lcg_stdlib (UINT32_MOD - 4)
                (occurrences "BTCUSD"
                   (binary_symbols (S (N.to_nat (UINT32_MOD - 5)))))
                [] OneToOne
                (fst (scenario_counts
                        (binary_symbols (S (N.to_nat (UINT32_MOD - 5))))
                        OneToOne))
                (snd (scenario_counts
                        (binary_symbols (S (N.to_nat (UINT32_MOD - 5))))
                        OneToOne)) |}.
Proof.
  refine (benchmark_abort_report lcg_stdlib (UINT32_MOD - 4)
            (binary_symbols (S (N.to_nat (UINT32_MOD - 5))))
            [] OneToOne (OneToMany <$> sweep_points)
            eq_refl (Forall_nil_2 _) _).
  unfold agree.
  rewrite (wrapping_workload_counts _ (N2Nat.id (UINT32_MOD - 5))).
  discriminate.
Defined.

(** X12 (output of main). What [main] does for every argument list, with
    a standard library whose distribution stays in its interval. When
    [reserve] returns for the parsed iteration count, [main] returns 0 and
    writes the full report for that count and the number of times BTCUSD
    occurs in the generated stream: the mismatch diagnostic is never
    written. When [reserve] throws, the process is aborted with only the
    banner written. *)
Theorem main_full_report (L : StdLib) (laws : StdLibLaws L) (argv : list string) :
  let n := parse_iterations argv in
  (reserve n = None →
     ∃ stream,
       generate_incoming_stream n 42 = inr stream ∧
       main argv
       = Some {| exit_code := 0;
                 trace := full_report n (occurrences "BTCUSD" stream) |} ∧
       occurrences "BTCUSD" stream <= n) ∧
  (∀ e, reserve n = Some e →
     generate_incoming_stream n 42 = inl e ∧
     main argv
     = Some {| exit_code := ABORTED;
               trace := [Cout (Banner n (N.of_nat (length SYMBOL_POOL)))] |}).
Proof.
  intros n. split.
  - intros Hres.
    pose proof (generate_incoming_stream_returns n 42 Hres) as Hgen.
    exists (generate_loop (N.to_nat n) (mt19937 42) []).
    split_and!; [done| |].
    + unfold main. fold n. rewrite Hgen.
      apply benchmark_exact, pool_workload_agrees.
      apply generate_loop_in_pool. constructor.
    + unfold occurrences.
      pose proof (length_filter (fun s => s = "BTCUSD"%string)
                    (generate_loop (N.to_nat n) (mt19937 42) [])) as Hle.
      rewrite generate_loop_length in Hle. simpl in Hle. lia.
  - intros e He.
    pose proof (generate_incoming_stream_throws n 42 e He) as Hgen.
    split; [done|]. unfold main. fold n. by rewrite Hgen.
Qed.

Lemma main_full_report_witness :
  (∃ stream,
     @generate_incoming_stream lcg_stdlib 20 42 = inr stream ∧
     @main lcg_stdlib ["string-interning"; "20"]
     = Some {| exit_code := 0;
               trace := @full_report lcg_stdlib 20 (occurrences "BTCUSD" stream) |} ∧
     occurrences "BTCUSD" stream <= 20) ∧
  @main lcg_stdlib ["string-interning"; "-1"]
  = Some {| exit_code := ABORTED;
            trace := [Cout (Banner (SIZE_MOD - 1) (N.of_nat (length SYMBOL_POOL)))] |}.
Proof.
  split.
  - apply (proj1 (main_full_report lcg_stdlib lcg_stdlib_laws
                    ["string-interning"; "20"])).
    reflexivity.
  - apply (proj2 (main_full_report lcg_stdlib lcg_stdlib_laws
                    ["string-interning"; "-1"]) LengthError).
    reflexivity.
Defined.

(** The run of the witness, computed: BTCUSD comes up twice among the 20
    symbols of the stand-in library. *)
Example main_demo :
  @main lcg_stdlib ["string-interning"; "20"]
  = Some {| exit_code := 0; trace := @full_report lcg_stdlib 20 2 |}.
Proof. vm_compute. reflexivity. Qed.
(** ** More on concurrent callers *)

Lemma elem_of_first_seen (l : list string) (x : string) :
  x ∈ first_seen l ↔ x ∈ l.
Proof.
  induction l as [|y l IH]; simpl; [done|].
  rewrite !elem_of_cons, list_elem_of_filter, IH.
  destruct (decide (x = y)); tauto.
Qed.

Lemma NoDup_first_seen (l : list string) : NoDup (first_seen l).
Proof.
  induction l as [|y l IH]; simpl; [constructor|].
  apply NoDup_cons. split.
  - rewrite list_elem_of_filter. by intros [? _].
  - by apply NoDup_filter.
Qed.

Section concurrent_more.
Variables (r0 : SymbolRegistry) (symbols : list string).
Hypothesis r0_consistent : consistent r0.
Implicit Types (w : world) (c : caller) (i j : nat).

Lemma linearized_order rc :
  linearized r0 symbols rc →
  (∀ s, s ∈ symbols → is_Some (string_to_id_ rc !! s)) →
  ∃ order, order ≡ₚ symbols ∧ rc = register_all order r0.
Proof.
  intros (order0 & Hsub & ->) Hall.
  set (rc := register_all order0 r0) in *.
  set (new := filter (fun x => x ∉ id_to_string_ r0) (first_seen order0)).
  assert (id_to_string_ rc = id_to_string_ r0 ++ new) as Hvec
    by (by apply register_all_first_seen).
  assert (NoDup new) as Hnd by apply NoDup_filter, NoDup_first_seen.
  assert (∀ s, s ∈ new → s ∉ id_to_string_ r0) as Hfresh.
  { intros s [? _]%list_elem_of_filter. done. }
  assert (∀ s, s ∈ new → s ∈ symbols) as Hnew.
  { intros s [_ Hs]%list_elem_of_filter. by apply Hsub, elem_of_first_seen. }
  assert (register_all new r0 = rc) as Hrc.
  { apply consistent_eq; [by apply register_all_consistent..|].
    by rewrite register_all_fresh, Hvec. }
  assert (new ⊆+ symbols) as Hsubm by (by apply NoDup_submseteq).
  apply submseteq_Permutation in Hsubm as [rest Hperm].
  exists (new ++ rest). split; [done|].
  rewrite register_all_app, Hrc. symmetry. apply register_all_known.
  intros s Hs. apply Hall. rewrite Hperm, elem_of_app. by right.
Qed.

End concurrent_more.

(** X14 (linearizability). When all calls have returned, the registry is the one
    that the same calls leave when made one after another in some order,
    and each call returned the identifier its symbol has in it. *)
Theorem concurrent_calls_linearize (calls symbols : list string) (w : world) :
  let r0 := register_all calls empty_registry in
  reachable (initial_world r0 symbols) w →
  Forall (fun c => has_returned c = true) (w_callers w) →
  ∃ order,
    order ≡ₚ symbols ∧
    w_registry w = register_all order r0 ∧
    ∀ s id, Returned s id ∈ w_callers w →
            get_id s (register_all order r0) = (id, register_all order r0).
Proof.
  intros r0 Hreach Hdone.
  assert (consistent r0) as Hr0 by apply register_all_consistent, consistent_empty.
  pose proof (reachable_inv r0 symbols Hr0 w Hreach) as Hinv.
  destruct (inv_views _ _ _ Hinv) as (rc & Hlin & Hfree & Hviews).
  pose proof (all_returned_free r0 symbols w Hinv Hdone) as Hm.
  destruct (linearized_order r0 symbols Hr0 rc Hlin) as (order & Hperm & Hrc).
  - intros s Hs. rewrite <- (inv_symbols _ _ _ Hinv) in Hs.
    apply list_elem_of_fmap in Hs as (c & -> & Hc).
    rewrite Forall_forall in Hdone. pose proof (Hdone c Hc) as Hret.
    destruct c; try done. simpl. eexists. apply (Hviews _ Hc).
  - exists order. split_and!; [done|by rewrite (Hfree Hm)|].
    intros s id Hc. apply get_id_seen. rewrite <- Hrc. apply (Hviews _ Hc).
Qed.

Lemma concurrent_calls_linearize_witness :
  ∃ order,
    order ≡ₚ ["MSFT"; "MSFT"] ∧
    snd (get_id "MSFT" (register_all ["AAPL"] empty_registry))
    = register_all order (register_all ["AAPL"] empty_registry) ∧
    ∀ s id, Returned s id ∈ [Returned "MSFT" 1; Returned "MSFT" 1] →
            get_id s (register_all order (register_all ["AAPL"] empty_registry))
            = (id, register_all order (register_all ["AAPL"] empty_registry)).
Proof.
  apply (concurrent_calls_linearize ["AAPL"] ["MSFT"; "MSFT"]
           {| w_registry := snd (get_id "MSFT" (register_all ["AAPL"] empty_registry));
              w_mtx := false;
              w_callers := [Returned "MSFT" 1; Returned "MSFT" 1] |}).
  - exists [1; 1; 1; 1; 1; 1; 0; 0; 0]%nat. vm_compute. reflexivity.
  - repeat constructor.
Defined.

(** X15 (exclusion). Only the holder of the mutex moves. While a thread is inside the
    critical section, no other thread can execute a statement. *)
Theorem only_the_holder_moves (calls symbols : list string) (w : world)
    (i j : nat) (c : caller) :
  let r0 := register_all calls empty_registry in
  reachable (initial_world r0 symbols) w →
  w_callers w !! i = Some c →
  in_critical_section c = true →
  j ≠ i →
  step j w = None.
Proof.
  intros r0 Hreach Hc Hin Hne.
  assert (consistent r0) as Hr0 by apply register_all_consistent, consistent_empty.
  pose proof (reachable_inv r0 symbols Hr0 w Hreach) as Hinv.
  pose proof (inside_holds_mutex r0 symbols w i c Hinv Hc Hin) as Hm.
  unfold step. destruct (w_callers w !! j) as [c'|] eqn:Hc'; [|done].
  pose proof (others_outside r0 symbols w i c Hinv Hc (or_introl Hin) j c' Hne Hc')
    as Hout.
  rewrite Hm. by destruct c'.
Qed.

Lemma only_the_holder_moves_witness : step 0 two_callers_mid_update = None.
Proof.
  apply (only_the_holder_moves ["AAPL"] ["MSFT"; "MSFT"] two_callers_mid_update
           1 0 (Appending "MSFT" 1)).
  - exists [1; 1; 1; 1]%nat. vm_compute. reflexivity.
  - vm_compute. reflexivity.
  - reflexivity.
  - discriminate.
Defined.

(** X16 (growth under concurrency). Concurrent calls only add. In every reachable state, the reverse
    table begins with the table the calls started from, every symbol
    registered before them still has its identifier, and a call for such
    a symbol returns that identifier. *)
Theorem concurrent_calls_only_add (calls symbols : list string) (w : world) :
  let r0 := register_all calls empty_registry in
  reachable (initial_world r0 symbols) w →
  id_to_string_ r0 `prefix_of` id_to_string_ (w_registry w) ∧
  (∀ s id, string_to_id_ r0 !! s = Some id →
           string_to_id_ (w_registry w) !! s = Some id) ∧
  (∀ s id id', string_to_id_ r0 !! s = Some id →
               Returned s id' ∈ w_callers w → id' = id).
Proof.
  intros r0 Hreach.
  assert (consistent r0) as Hr0 by apply register_all_consistent, consistent_empty.
  pose proof (reachable_inv r0 symbols Hr0 w Hreach) as Hinv.
  destruct (inv_views _ _ _ Hinv) as (rc & Hlin & Hfree & Hviews).
  destruct Hlin as (order & Hsub & Hrc).
  split_and!.
  - rewrite (reverse_table_completed r0 symbols w rc Hinv Hfree Hviews), Hrc.
    apply register_all_prefix.
  - intros s id Hs. eapply completed_entries; [done..|].
    rewrite Hrc. by apply register_all_mono.
  - intros s id id' Hs Hc.
    assert (string_to_id_ rc !! s = Some id) as Hrcs
      by (rewrite Hrc; by apply register_all_mono).
    pose proof (Hviews _ Hc) as Hview. simpl in Hview. congruence.
Qed.

Lemma concurrent_calls_only_add_witness :
  id_to_string_ (register_all ["AAPL"] empty_registry)
    `prefix_of` id_to_string_ (w_registry two_callers_mid_update).
Proof.
  refine (proj1 (concurrent_calls_only_add ["AAPL"] ["MSFT"; "MSFT"]
                   two_callers_mid_update _)).
  exists [1; 1; 1; 1]%nat. vm_compute. reflexivity.
Defined.

(** X17 (uninterrupted call). A call that is not interrupted is [get_id]. From a state with the
    mutex free, a waiting thread that alone is scheduled until it returns
    leaves the registry that [get_id] leaves and returns the identifier
    that [get_id] returns; the other threads are where they were. *)
Theorem uninterrupted_call (w : world) (i : nat) (s : string) :
  w_mtx w = false →
  w_callers w !! i = Some (Waiting s) →
  ∃ schedule,
    Forall (fun j => j = i) schedule ∧
    run schedule w
    = Some {| w_registry := snd (get_id s (w_registry w));
              w_mtx := false;
              w_callers :=
                <[i := Returned s (fst (get_id s (w_registry w)))]> (w_callers w) |}.
Proof.
  destruct w as [r m cs]. cbn [w_registry w_mtx w_callers].
  intros -> Hc.
  assert (i < length cs)%nat as Hi by (by eapply lookup_lt_Some).
  assert (∀ c, <[i := c]> cs !! i = Some c) as Hlook
    by (intros c; by apply list_lookup_insert_eq).
  destruct (string_to_id_ r !! s) as [id|] eqn:E.
  - exists [i; i; i]. split; [by repeat constructor|].
    rewrite (get_id_seen _ _ _ E).
    unfold run, step. cbn [w_registry w_mtx w_callers fst snd].
    rewrite Hc. cbn [caller_step w_registry w_mtx w_callers].
    rewrite Hlook. cbn [caller_step]. rewrite E.
    cbn [w_registry w_mtx w_callers].
    rewrite list_insert_insert_eq, Hlook. cbn [caller_step].
    by rewrite list_insert_insert_eq.
  - exists [i; i; i; i; i; i]. split; [by repeat constructor|].
    rewrite (get_id_unseen _ _ E).
    unfold run, step. cbn [w_registry w_mtx w_callers fst snd].
    rewrite Hc. cbn [caller_step w_registry w_mtx w_callers].
    rewrite Hlook. cbn [caller_step]. rewrite E.
    cbn [w_registry w_mtx w_callers].
    rewrite list_insert_insert_eq, Hlook.
    cbn [caller_step w_registry w_mtx w_callers].
    rewrite list_insert_insert_eq, Hlook.
    cbn [caller_step w_registry w_mtx w_callers string_to_id_ id_to_string_].
    rewrite list_insert_insert_eq, Hlook.
    cbn [caller_step w_registry w_mtx w_callers string_to_id_ id_to_string_].
    rewrite list_insert_insert_eq, Hlook.
    cbn [caller_step w_registry w_mtx w_callers].
    by rewrite list_insert_insert_eq.
Qed.

Lemma uninterrupted_call_witness :
  ∃ schedule,
    Forall (fun j => j = 1%nat) schedule ∧
    run schedule two_callers
    = Some {| w_registry := snd (get_id "MSFT" (w_registry two_callers));
              w_mtx := false;
              w_callers :=
                <[1%nat := Returned "MSFT"
                             (fst (get_id "MSFT" (w_registry two_callers)))]>
                  (w_callers two_callers) |}.
Proof.
  apply (uninterrupted_call two_callers 1 "MSFT"); reflexivity.
Defined.

(** ** The catalogue *)

(** X13 (the catalogue). The 45 entries of [SYMBOL_POOL] are pairwise different and shorter
    than 15 characters, as the banner and the design notes say; so the
    registration loop of [main] gives each symbol its position in the
    pool as identifier, the lookup of the target adds nothing, and
    [get_symbol] leads back from the position to the symbol. *)
Theorem pool_ids_are_positions (i : nat) (s : string) :
  SYMBOL_POOL !! i = Some s →
  let r := register_all SYMBOL_POOL empty_registry in
  NoDup SYMBOL_POOL ∧
  length SYMBOL_POOL = 45%nat ∧
  Forall (fun x => (String.length x < 15)%nat) SYMBOL_POOL ∧
  get_id s r = (N.of_nat i, r) ∧
  get_symbol (N.of_nat i) r = Text s ∧
  snd (get_id "BTCUSD" r) = r.
Proof.
  intros Hi r.
  assert (NoDup SYMBOL_POOL) as Hnd.
  { apply (bool_decide_unpack _). vm_compute. exact I. }
  assert (id_to_string_ r = SYMBOL_POOL) as Hvec.
  { subst r. rewrite register_all_fresh; [done|apply consistent_empty|done|].
    intros x _. apply not_elem_of_nil. }
  assert (consistent r) as Hr by apply register_all_consistent, consistent_empty.
  assert (i < 45)%nat as Hlt by (by apply lookup_lt_Some in Hi).
  assert (string_to_id_ r !! s = Some (N.of_nat i)) as Hs.
  { apply (consistent_lookup _ Hr). exists i. rewrite Hvec. split; [done|].
    symmetry. apply to_uint32_small. unfold UINT32_MOD. lia. }
  split_and!.
  - done.
  - reflexivity.
  - apply (bool_decide_unpack _). vm_compute. exact I.
  - by apply get_id_seen.
  - unfold get_symbol. by rewrite Nat2N.id, Hvec, Hi.
  - vm_compute. reflexivity.
Qed.

Lemma pool_ids_are_positions_witness :
  NoDup SYMBOL_POOL ∧
  length SYMBOL_POOL = 45%nat ∧
  Forall (fun x => (String.length x < 15)%nat) SYMBOL_POOL ∧
  get_id "GOOGL" (register_all SYMBOL_POOL empty_registry)
  = (2, register_all SYMBOL_POOL empty_registry) ∧
  get_symbol 2 (register_all SYMBOL_POOL empty_registry) = Text "GOOGL" ∧
  snd (get_id "BTCUSD" (register_all SYMBOL_POOL empty_registry))
  = register_all SYMBOL_POOL empty_registry.
Proof.
  apply (pool_ids_are_positions 2 "GOOGL"). reflexivity.
Defined.

